(** * DefectPro: the PDF layout engine of [script.js]

    A shallow embedding of the report generator (the click handler of
    [generatePdfBtn] and its helpers) and the properties of its layout:
    cursor bookkeeping, page breaks, image scaling, footers.

    Modelling choices.
    - A JavaScript number is a [jsnum]: a rational, or one of the special
      values [+Infinity], [-Infinity], [NaN].  The special values follow
      IEEE 754, so that a division by a zero image width behaves as in the
      browser.  The sums that move the cursor and the constants of the
      layout are computed exactly; the quotients and products that scale
      an image are rounded to the nearest double, as the browser rounds
      them ([JsNum.fl]).
    - A string is a [string] of 8-bit characters.
    - The jsPDF document is a list of pages, each a list of draw operations
      in the order they were issued, with the index of the current page and
      the current graphics state.
    - What the browser and jsPDF decide is a parameter of the development:
      text wrapping ([splitTextToSize]), image decoding ([probe]), whether
      [addImage] throws, the wall clock and the date formatter.
    - [doc.text], [doc.rect] and [doc.line] throw when a coordinate is
      [NaN].  Nothing in the handler catches that before its outer [catch],
      which reports the error and saves nothing.  The statements below
      record every call as it is made, refused or not ([refused]); a run
      with a refused call is one the handler abandons at that call, and
      [generatePdfClick] gives what the user gets: the saved document, or
      the error. *)

From Stdlib Require Import QArith Qminmax Qabs Qpower Lqa Lia Ascii.
From Stdlib Require PrimFloat FloatOps SpecFloat Uint63.
From stdpp Require Import base option list strings pretty gmap.

Local Open Scope Q_scope.

(** ** JavaScript numbers *)

Module JsNum.

Inductive jsnum : Type :=
| Num (q : Q)
| PInf
| NInf
| NaN.

Definition Qis_zero (q : Q) : bool := Qeq_bool q 0.
Definition Qis_pos (q : Q) : bool := if Qlt_le_dec 0 q then true else false.

(** [a + b] *)
Definition add (a b : jsnum) : jsnum :=
  match a, b with
  | NaN, _ | _, NaN => NaN
  | Num x, Num y => Num (x + y)
  | PInf, NInf | NInf, PInf => NaN
  | PInf, _ | _, PInf => PInf
  | NInf, _ | _, NInf => NInf
  end.

(** [- a] *)
Definition opp (a : jsnum) : jsnum :=
  match a with
  | Num x => Num (- x)
  | PInf => NInf
  | NInf => PInf
  | NaN => NaN
  end.

(** [a - b] *)
Definition sub (a b : jsnum) : jsnum := add a (opp b).

(** The sign of an infinite product or quotient. *)
Definition signed_inf (positive : bool) : jsnum :=
  if positive then PInf else NInf.

(** [a * b]; [0 * Infinity] is [NaN]. *)
Definition mul (a b : jsnum) : jsnum :=
  match a, b with
  | NaN, _ | _, NaN => NaN
  | Num x, Num y => Num (x * y)
  | Num x, PInf | PInf, Num x =>
      if Qis_zero x then NaN else signed_inf (Qis_pos x)
  | Num x, NInf | NInf, Num x =>
      if Qis_zero x then NaN else signed_inf (negb (Qis_pos x))
  | PInf, PInf | NInf, NInf => PInf
  | PInf, NInf | NInf, PInf => NInf
  end.

(** [a / b]; a zero divisor is the positive zero (the divisors of the
    program are pixel counts), so [x / 0] is [+-Infinity] by the sign of
    [x], and [0 / 0] is [NaN]. *)
Definition div (a b : jsnum) : jsnum :=
  match a, b with
  | NaN, _ | _, NaN => NaN
  | Num x, Num y =>
      if Qis_zero y
      then (if Qis_zero x then NaN else signed_inf (Qis_pos x))
      else Num (x / y)
  | Num _, (PInf | NInf) => Num 0
  | PInf, Num y => signed_inf (Qis_pos y || Qis_zero y)
  | NInf, Num y => signed_inf (negb (Qis_pos y || Qis_zero y))
  | (PInf | NInf), (PInf | NInf) => NaN
  end.

(** [Math.min(a, b)]: [NaN] when either argument is. *)
Definition min (a b : jsnum) : jsnum :=
  match a, b with
  | NaN, _ | _, NaN => NaN
  | NInf, _ | _, NInf => NInf
  | PInf, c | c, PInf => c
  | Num x, Num y => Num (Qmin x y)
  end.

(** [a > b]: false when either side is [NaN]. *)
Definition gt (a b : jsnum) : bool :=
  match a, b with
  | NaN, _ | _, NaN => false
  | Num x, Num y => if Qlt_le_dec y x then true else false
  | PInf, PInf => false
  | PInf, _ => true
  | _, PInf => false
  | NInf, _ => false
  | Num _, NInf => true
  end.

(** The number of elements of an array, as a number. *)
Definition of_nat (n : nat) : jsnum := Num (inject_Z (Z.of_nat n)).

(** The rational a finite number stands for (0 for the special values). *)
Definition value (a : jsnum) : Q :=
  match a with Num q => q | _ => 0 end.

(** [isNaN(a)] *)
Definition isNaN (a : jsnum) : bool :=
  match a with NaN => true | _ => false end.

(** *** Rounding to a double

    A double has 53 significant bits and a binary exponent from -1074 up;
    the result of an operation is the exact result rounded to the nearest
    double, a tie going to the even significand, and a result of
    magnitude [2 ^ 1024] or more is an infinity.  (The zero of the model
    has no sign.) *)

Definition pow2 (e : Z) : Q := 2 ^ e.

(** The relative error of one rounding is at most [2 ^ -53]. *)
Definition unit_roundoff : Q := pow2 (-53).

(** For [0 < q], the exponent [k] with [2 ^ k <= q < 2 ^ (k + 1)]. *)
Definition ilog2 (q : Q) : Z :=
  let k := (Z.log2 (Qnum q) - Z.log2 (Zpos (Qden q)))%Z in
  if Qle_bool (pow2 k) q then k else (k - 1)%Z.

(** The integer nearest to [q], the even one of the two when [q] is
    half-way between them. *)
Definition nearest_even (q : Q) : Z :=
  let d := Zpos (Qden q) in
  let f := (Qnum q / d)%Z in
  let r := (Qnum q mod d)%Z in
  match (2 * r ?= d)%Z with
  | Lt => f
  | Gt => (f + 1)%Z
  | Eq => if Z.even f then f else (f + 1)%Z
  end.

(** [0 < q] rounded to a multiple of [2 ^ e], where [e] leaves 53 bits to
    the significand and is at least -1074. *)
Definition round_pos (q : Q) : Q :=
  let e := Z.max (ilog2 q - 52) (-1074) in
  Qred (inject_Z (nearest_even (q * pow2 (- e))) * pow2 e).

(** The double nearest to [q]. *)
Definition fl (q : Q) : jsnum :=
  match q ?= 0 with
  | Eq => Num 0
  | Gt => let r := round_pos q in
          if Qle_bool (pow2 1024) r then PInf else Num r
  | Lt => let r := round_pos (- q) in
          if Qle_bool (pow2 1024) r then NInf else Num (- r)
  end.

Definition rounded (a : jsnum) : jsnum :=
  match a with Num q => fl q | _ => a end.

(** [a * b] and [a / b] as the browser computes them. *)
Definition fmul (a b : jsnum) : jsnum := rounded (mul a b).
Definition fdiv (a b : jsnum) : jsnum := rounded (div a b).

End JsNum.

Import JsNum.

Declare Scope js_scope.
Delimit Scope js_scope with js.
Bind Scope js_scope with jsnum.
Infix "+" := JsNum.add : js_scope.
Infix "-" := JsNum.sub : js_scope.
Infix "*" := JsNum.mul : js_scope.
Infix "/" := JsNum.div : js_scope.
Infix ">?" := JsNum.gt (at level 70, no associativity) : js_scope.

Coercion Num : Q >-> jsnum.

(** ** Strings *)

(** White space removed by [String.prototype.trim], among 8-bit characters:
    tab, line feed, vertical tab, form feed, carriage return, space and the
    no-break space. *)
Definition is_space (c : ascii) : bool :=
  let n := nat_of_ascii c in
  ((9 <=? n)%nat && (n <=? 13)%nat) || (n =? 32)%nat || (n =? 160)%nat.

Fixpoint trim_start (s : string) : string :=
  match s with
  | EmptyString => EmptyString
  | String c s' => if is_space c then trim_start s' else s
  end.

Fixpoint trim_end (s : string) : string :=
  match s with
  | EmptyString => EmptyString
  | String c s' =>
      match trim_end s' with
      | EmptyString => if is_space c then EmptyString else String c EmptyString
      | t => String c t
      end
  end.

(** [s.trim()] *)
Definition trim (s : string) : string := trim_end (trim_start s).

(** A string in a condition: true unless empty. *)
Definition truthy (s : string) : bool :=
  match s with EmptyString => false | _ => true end.

(** [a || b] on strings. *)
Definition or_else (a b : string) : string := if truthy a then a else b.

(** [s.split(c)[0]]: the part of [s] before the first [c]. *)
Fixpoint before_char (c : ascii) (s : string) : string :=
  match s with
  | EmptyString => EmptyString
  | String a s' => if Ascii.eqb a c then EmptyString else String a (before_char c s')
  end.

(** ** The document *)

Definition rgb : Type := nat * nat * nat.

(** What has been drawn on a page.  A text carries the font size, weight
    and colour in force when it was drawn. *)
Inductive DrawOp : Type :=
| Text (s : string) (x y : jsnum) (centered : bool)
       (size : jsnum) (isBold : bool) (color : rgb)
| TextLines (ls : list string) (x y : jsnum)
       (size : jsnum) (isBold : bool) (color : rgb)
| Rect (x y w h : jsnum) (fill : rgb)
| Line (x1 y1 x2 y2 : jsnum) (stroke : rgb) (width : jsnum)
| Image (data format : string) (x y w h : jsnum).

Abbreviation Page := (list DrawOp).

(** The jsPDF document: pages in creation order, the 0-based index of the
    current page, and the graphics state. *)
Record Doc : Type := mkDoc {
  pages : list Page;
  cur : nat;
  fontSize : jsnum;
  bold : bool;
  textColor : rgb;
  fillColor : rgb;
  drawColor : rgb;
  lineWidth : jsnum
}.

(** [new jsPDF(...)]: one empty page, jsPDF's default graphics state. *)
Definition newDoc : Doc :=
  {| pages := [[]]; cur := 0; fontSize := Num 16; bold := false;
     textColor := (0, 0, 0)%nat; fillColor := (0, 0, 0)%nat;
     drawColor := (0, 0, 0)%nat; lineWidth := Num (200025 # 1000000) |}.

Definition with_pages (ps : list Page) (c : nat) (d : Doc) : Doc :=
  {| pages := ps; cur := c; fontSize := fontSize d; bold := bold d;
     textColor := textColor d; fillColor := fillColor d;
     drawColor := drawColor d; lineWidth := lineWidth d |}.

(** Appends an operation to the current page. *)
Definition emit (op : DrawOp) (d : Doc) : Doc :=
  with_pages (alter (fun p => p ++ [op]) (cur d) (pages d)) (cur d) d.

(** [doc.addPage()]: a new last page, which becomes the current one. *)
Definition doc_addPage (d : Doc) : Doc :=
  with_pages (pages d ++ [[]]) (length (pages d)) d.

(** [doc.setPage(i)], pages counted from 1; ignored out of range. *)
Definition doc_setPage (i : nat) (d : Doc) : Doc :=
  if ((1 <=? i)%nat && (i <=? length (pages d))%nat)%bool
  then with_pages (pages d) (i - 1) d
  else d.

Definition doc_setFontSize (s : jsnum) (d : Doc) : Doc :=
  {| pages := pages d; cur := cur d; fontSize := s; bold := bold d;
     textColor := textColor d; fillColor := fillColor d;
     drawColor := drawColor d; lineWidth := lineWidth d |}.

(** [doc.setFont('helvetica', isBold ? 'bold' : 'normal')] *)
Definition doc_setFont (b : bool) (d : Doc) : Doc :=
  {| pages := pages d; cur := cur d; fontSize := fontSize d; bold := b;
     textColor := textColor d; fillColor := fillColor d;
     drawColor := drawColor d; lineWidth := lineWidth d |}.

Definition doc_setTextColor (c : rgb) (d : Doc) : Doc :=
  {| pages := pages d; cur := cur d; fontSize := fontSize d; bold := bold d;
     textColor := c; fillColor := fillColor d;
     drawColor := drawColor d; lineWidth := lineWidth d |}.

Definition doc_setFillColor (c : rgb) (d : Doc) : Doc :=
  {| pages := pages d; cur := cur d; fontSize := fontSize d; bold := bold d;
     textColor := textColor d; fillColor := c;
     drawColor := drawColor d; lineWidth := lineWidth d |}.

Definition doc_setDrawColor (c : rgb) (d : Doc) : Doc :=
  {| pages := pages d; cur := cur d; fontSize := fontSize d; bold := bold d;
     textColor := textColor d; fillColor := fillColor d;
     drawColor := c; lineWidth := lineWidth d |}.

Definition doc_setLineWidth (w : jsnum) (d : Doc) : Doc :=
  {| pages := pages d; cur := cur d; fontSize := fontSize d; bold := bold d;
     textColor := textColor d; fillColor := fillColor d;
     drawColor := drawColor d; lineWidth := w |}.

(** [doc.text(s, x, y)] and [doc.text(s, x, y, { align: 'center' })]: the
    call as it is made; jsPDF throws on it when [x] or [y] is [NaN]
    ([refused]), and the handler then goes to its outer [catch]
    ([generatePdfClick]). *)
Definition doc_text (s : string) (x y : jsnum) (centered : bool) (d : Doc) : Doc :=
  emit (Text s x y centered (fontSize d) (bold d) (textColor d)) d.

(** [doc.text(lines, x, y)] with an array of lines *)
Definition doc_textLines (ls : list string) (x y : jsnum) (d : Doc) : Doc :=
  emit (TextLines ls x y (fontSize d) (bold d) (textColor d)) d.

(** [doc.rect(x, y, w, h, 'F')] *)
Definition doc_rect (x y w h : jsnum) (d : Doc) : Doc :=
  emit (Rect x y w h (fillColor d)) d.

(** [doc.line(x1, y1, x2, y2)] *)
Definition doc_line (x1 y1 x2 y2 : jsnum) (d : Doc) : Doc :=
  emit (Line x1 y1 x2 y2 (drawColor d) (lineWidth d)) d.

(** [doc.internal.getNumberOfPages()] *)
Definition getNumberOfPages (d : Doc) : nat := length (pages d).

(** The calls jsPDF throws on: [doc.text], [doc.rect] and [doc.line] check
    their coordinates with [isNaN] and throw "Invalid arguments passed to
    jsPDF.text" (or [rect], or [line]) when one of them is [NaN].  What
    [doc.addImage] throws on is left to [addImage_ok] below: only the calls
    it accepts are recorded. *)
Definition refused (op : DrawOp) : bool :=
  match op with
  | Text _ x y _ _ _ _ => isNaN x || isNaN y
  | TextLines _ x y _ _ _ => isNaN x || isNaN y
  | Rect x y w h _ => isNaN x || isNaN y || isNaN w || isNaN h
  | Line x1 y1 x2 y2 _ _ => isNaN x1 || isNaN y1 || isNaN x2 || isNaN y2
  | Image _ _ _ _ _ _ => false
  end.

(** Every call recorded in the document, page after page. *)
Definition calls (d : Doc) : list DrawOp := concat (pages d).

(** One of the calls is one jsPDF throws on. *)
Definition has_refused (d : Doc) : Prop := existsb refused (calls d) = true.

(** ** The state of one generation run

    The document, the cursor [yPos] of the click handler, and the number of
    times the wall clock has been read. *)
Record Run : Type := mkRun {
  doc : Doc;
  yPos : jsnum;
  clockReads : nat
}.

(** A statement of the handler. *)
Definition Stmt : Type := Run -> Run.

Definition andThen (a b : Stmt) : Stmt := fun st => b (a st).
Declare Scope stmt_scope.
Delimit Scope stmt_scope with stmt.
Bind Scope stmt_scope with Stmt.
Notation "a ;; b" := (andThen a b) : stmt_scope.
Local Open Scope stmt_scope.

Definition skip : Stmt := fun st => st.

(** [if (c) { a }] *)
Definition when (c : bool) (a : Stmt) : Stmt := if c then a else skip.

(** [doc.method(...)] *)
Definition on_doc (f : Doc -> Doc) : Stmt :=
  fun st => {| doc := f (doc st); yPos := yPos st; clockReads := clockReads st |}.

(** [yPos = y] *)
Definition setY (y : jsnum) : Stmt :=
  fun st => {| doc := doc st; yPos := y; clockReads := clockReads st |}.

(** [yPos += dy] *)
Definition advance (dy : jsnum) : Stmt :=
  fun st => setY (yPos st + dy)%js st.

(** A statement that reads the cursor. *)
Definition at_y (f : jsnum -> Stmt) : Stmt := fun st => f (yPos st) st.

(** [xs.forEach(x => body)] *)
Definition forEach {A : Type} (body : A -> Stmt) (xs : list A) : Stmt :=
  fun st => fold_left (fun s x => body x s) xs st.

(** The iterations of a loop over [xs] whose first index is [i]. *)
Fixpoint forEachFrom {A : Type} (body : A -> nat -> Stmt) (i : nat) (xs : list A)
    : Stmt :=
  match xs with
  | [] => skip
  | x :: xs' => fun st => forEachFrom body (S i) xs' (body x i st)
  end.

(** [xs.forEach((x, index) => body)], and [for (let i = 0; i < xs.length;
    i++)] with [x = xs[i]] *)
Definition forEachIndexed {A : Type} (body : A -> nat -> Stmt) (xs : list A) : Stmt :=
  forEachFrom body 0 xs.

(** ** What the browser and jsPDF decide *)

Record Env : Type := mkEnv {
  (** [doc.splitTextToSize(text, maxWidth)] under the given font size and
      weight *)
  splitTextToSize : jsnum -> bool -> string -> jsnum -> list string;
  (** The intrinsic pixel size of an image payload once loaded; [None] when
      the browser fires [onerror] *)
  probe : string -> option (positive * positive);
  (** Whether [doc.addImage(data, 'JPEG', x, y, w, h)] returns ([true]) or
      throws ([false]) *)
  addImage_ok : string -> jsnum -> jsnum -> jsnum -> jsnum -> bool;
  (** [new Date().toLocaleString()] at the k-th reading of the clock *)
  localeString : nat -> string;
  (** [new Date().toISOString()] at the k-th reading of the clock *)
  isoString : nat -> string;
  (** [new Date(s).toLocaleDateString('en-US', ...)] *)
  formatDate : string -> string
}.

(** ** The form and the defect list *)

(** The value of each form element, by element id. *)
Abbreviation Form := (gmap string string).

(** [getFieldValue(id)] *)
Definition getFieldValue (form : Form) (id : string) : string :=
  match form !! id with
  | Some v => trim v
  | None => ""
  end.

Record Defect : Type := mkDefect {
  id : nat;
  defectType : string;
  imageData : string;
  imageName : string;
  description : string
}.

(** ** PDF dimensions *)

Definition pageWidth : jsnum := Num 210.
Definition pageHeight : jsnum := Num 297.
Definition margin : jsnum := Num 20.
Definition contentWidth : jsnum := (pageWidth - (margin * 2))%js.

(** The result of a [try] block: it ran to its end, or threw in the given
    state (what it did before throwing stays done). *)
Inductive Outcome : Type :=
| Done (st : Run)
| Threw (st : Run).

(** [try { body } catch (e) { handler }] *)
Definition tryCatch (body : Run -> Outcome) (handler : Stmt) : Stmt :=
  fun st =>
    match body st with
    | Done st' => st'
    | Threw st' => handler st'
    end.

(** The two ends of a click on "Generate PDF". *)
Inductive Status : Type :=
| Saved (d : Doc) (filename : string)
| ErrorShown.

Section Generator.

Variable env : Env.

(** [doc.splitTextToSize(text, width)] with the font of the document, then
    the rest of the block. *)
Definition withLines (text : string) (width : jsnum)
    (k : list string -> Stmt) : Stmt :=
  fun st =>
    k (splitTextToSize env (fontSize (doc st)) (bold (doc st)) text width) st.

(** *** Helper functions *)

(** [checkNewPage(requiredSpace)] *)
Definition checkNewPage (requiredSpace : jsnum) (st : Run) : bool * Run :=
  if (yPos st + requiredSpace >? pageHeight - margin)%js
  then (true, (on_doc doc_addPage ;; setY margin) st)
  else (false, st).

(** A call of [checkNewPage] whose result is dropped. *)
Definition checkNewPage_ (requiredSpace : jsnum) : Stmt :=
  fun st => snd (checkNewPage requiredSpace st).

(** [addLine()] *)
Definition addLine : Stmt :=
  on_doc (doc_setDrawColor (200, 200, 200)%nat) ;;
  on_doc (doc_setLineWidth (Num 0.5)) ;;
  at_y (fun y => on_doc (doc_line margin y (pageWidth - margin) y)) ;;
  advance 5.

(** [addText(text, fontSize, isBold)] (the defaults of the last two
    parameters are 10 and false) *)
Definition addText (text : string) (size : jsnum) (isBold : bool) : Stmt :=
  on_doc (doc_setFontSize size) ;;
  on_doc (doc_setFont isBold) ;;
  withLines text contentWidth (fun lines =>
    let lineHeight := (size * Num 0.5)%js in
    forEach (fun line =>
      checkNewPage_ (lineHeight + 2) ;;
      at_y (fun y => on_doc (doc_text line margin y false)) ;;
      advance lineHeight) lines ;;
    advance 2).

(** [addSectionHeader(title)] *)
Definition addSectionHeader (title : string) : Stmt :=
  checkNewPage_ 20 ;;
  advance 5 ;;
  on_doc (doc_setFillColor (240, 240, 240)%nat) ;;
  at_y (fun y => on_doc (doc_rect margin (y - 5) contentWidth 10)) ;;
  on_doc (doc_setFontSize 12) ;;
  on_doc (doc_setFont true) ;;
  on_doc (doc_setTextColor (30, 30, 30)%nat) ;;
  at_y (fun y => on_doc (doc_text title (margin + 3) (y + 2) false)) ;;
  advance 12 ;;
  on_doc (doc_setTextColor (0, 0, 0)%nat).

(** *** Document header *)

Definition contactInfo (companyPhone companyEmail : string) : list string :=
  (if truthy companyPhone then [companyPhone] else []) ++
  (if truthy companyEmail then [companyEmail] else []).

Definition documentHeader (form : Form) : Stmt :=
  let companyName := or_else (getFieldValue form "companyName") "Inspection Company" in
  let companyPhone := getFieldValue form "companyPhone" in
  let companyEmail := getFieldValue form "companyEmail" in
  let reportTitle :=
    or_else (getFieldValue form "reportTitle") "Home Defect Inspection Report" in
  on_doc (doc_setFontSize 20) ;;
  on_doc (doc_setFont true) ;;
  at_y (fun y => on_doc (doc_text companyName (pageWidth / 2) y true)) ;;
  advance 10 ;;
  on_doc (doc_setFontSize 10) ;;
  on_doc (doc_setFont false) ;;
  when (0 <? length (contactInfo companyPhone companyEmail))%nat (
    at_y (fun y => on_doc (doc_text
      (String.concat " | " (contactInfo companyPhone companyEmail))
      (pageWidth / 2) y true)) ;;
    advance 8) ;;
  on_doc (doc_setFontSize 16) ;;
  on_doc (doc_setFont true) ;;
  at_y (fun y => on_doc (doc_text reportTitle (pageWidth / 2) (y + 5) true)) ;;
  advance 15 ;;
  addLine.

(** *** Client and property details *)

(** A label and a one-line value. *)
Definition labelled (label value : string) : Stmt :=
  on_doc (doc_setFont true) ;;
  at_y (fun y => on_doc (doc_text label margin y false)) ;;
  on_doc (doc_setFont false) ;;
  at_y (fun y => on_doc (doc_text value (margin + 35) y false)) ;;
  advance 6.

(** A label and a wrapped value. *)
Definition labelledLines (label value : string) : Stmt :=
  on_doc (doc_setFont true) ;;
  at_y (fun y => on_doc (doc_text label margin y false)) ;;
  on_doc (doc_setFont false) ;;
  withLines value (contentWidth - 40) (fun lines =>
    at_y (fun y => on_doc (doc_textLines lines (margin + 35) y)) ;;
    advance (of_nat (length lines) * 5 + 2)).

Definition clientDetails (form : Form) : Stmt :=
  addSectionHeader "Property & Client Details" ;;
  let clientName := getFieldValue form "clientName" in
  let clientAddress := getFieldValue form "clientAddress" in
  let inspectionDate := getFieldValue form "inspectionDate" in
  let inspectorName := getFieldValue form "inspectorName" in
  let inspectorCredentials := getFieldValue form "inspectorCredentials" in
  on_doc (doc_setFontSize 10) ;;
  when (truthy clientName) (labelled "Client Name:" clientName) ;;
  when (truthy clientAddress) (labelledLines "Property Address:" clientAddress) ;;
  when (truthy inspectionDate)
    (labelled "Inspection Date:" (formatDate env inspectionDate)) ;;
  when (truthy inspectorName) (labelled "Inspector:" inspectorName) ;;
  when (truthy inspectorCredentials)
    (labelledLines "Credentials:" inspectorCredentials) ;;
  advance 5.

(** *** Inspection details table *)

Definition tableData (form : Form) : list (string * string) :=
  [ ("Attendance", or_else (getFieldValue form "attendance") "N/A");
    ("Occupancy", or_else (getFieldValue form "occupancy") "N/A");
    ("Type of Building", or_else (getFieldValue form "buildingType") "N/A");
    ("Weather Condition", or_else (getFieldValue form "weatherCondition") "N/A") ].

Definition tableRow (row : string * string) (index : nat) : Stmt :=
  let colWidth := (contentWidth / 2)%js in
  checkNewPage_ 8 ;;
  when (index mod 2 =? 0)%nat (
    on_doc (doc_setFillColor (248, 248, 248)%nat) ;;
    at_y (fun y => on_doc (doc_rect margin (y - 4) contentWidth 8))) ;;
  on_doc (doc_setFont true) ;;
  at_y (fun y => on_doc (doc_text (fst row) (margin + 2) y false)) ;;
  on_doc (doc_setFont false) ;;
  at_y (fun y => on_doc (doc_text (snd row) (margin + colWidth) y false)) ;;
  advance 8.

Definition inspectionDetails (form : Form) : Stmt :=
  addSectionHeader "Inspection Details" ;;
  on_doc (doc_setFontSize 10) ;;
  forEachIndexed tableRow (tableData form) ;;
  advance 5.

(** *** Disclaimer *)

Definition disclaimerLine (line : string) : Stmt :=
  checkNewPage_ 5 ;;
  at_y (fun y => on_doc (doc_text line margin y false)) ;;
  advance (Num 4.5).

Definition disclaimerSection (form : Form) : Stmt :=
  addSectionHeader "General Disclaimer" ;;
  let disclaimer := getFieldValue form "disclaimer" in
  when (truthy disclaimer) (
    on_doc (doc_setFontSize 9) ;;
    on_doc (doc_setFont false) ;;
    on_doc (doc_setTextColor (80, 80, 80)%nat) ;;
    withLines disclaimer contentWidth (forEach disclaimerLine) ;;
    on_doc (doc_setTextColor (0, 0, 0)%nat)) ;;
  advance 5.

(** *** Defects *)

(** The heading of the defect at 0-based position [i]:
    [`Defect #${i + 1}: ${defect.defectType}`] followed by [suffix]. *)
Definition defectHeading (i : nat) (defect : Defect) (suffix : string) : string :=
  "Defect #" +:+ pretty (i + 1)%nat +:+ ": " +:+ defectType defect +:+ suffix.

Definition printHeading (heading : string) : Stmt :=
  on_doc (doc_setFontSize 11) ;;
  on_doc (doc_setFont true) ;;
  on_doc (doc_setTextColor (44, 82, 130)%nat) ;;
  at_y (fun y => on_doc (doc_text heading margin y false)) ;;
  on_doc (doc_setTextColor (0, 0, 0)%nat) ;;
  advance 8.

(** [img.width] and [img.height] once the promise has resolved: the
    intrinsic size after [onload], 0 by 0 after [onerror]. *)
Definition loadedSize (data : string) : jsnum * jsnum :=
  match probe env data with
  | Some (w, h) => (Num (inject_Z (Zpos w)), Num (inject_Z (Zpos h)))
  | None => (Num 0, Num 0)
  end.

(** Scale image to fit: the placed width and height.  The two quotients
    and the two products are rounded to doubles. *)
Definition scaleImage (imgWidth imgHeight maxImgWidth maxImgHeight : jsnum)
    : jsnum * jsnum :=
  let ratio := JsNum.min (fdiv maxImgWidth imgWidth) (fdiv maxImgHeight imgHeight) in
  (fmul imgWidth ratio, fmul imgHeight ratio).

Definition maxImgWidth : jsnum := contentWidth.
Definition maxImgHeight : jsnum := Num 80.

(** The part of the [try] block after the size is known: the page-fit
    check, then [doc.addImage]. *)
Definition placeImage (i : nat) (defect : Defect) (imgWidth imgHeight : jsnum)
    (st : Run) : Outcome :=
  let st1 :=
    if (yPos st + imgHeight + 20 >? pageHeight - margin)%js
    then (on_doc doc_addPage ;;
          setY margin ;;
          printHeading (defectHeading i defect " (continued)")) st
    else st in
  if addImage_ok env (imageData defect) margin (yPos st1) imgWidth imgHeight
  then Done ((on_doc (emit (Image (imageData defect) "JPEG" margin (yPos st1)
                                  imgWidth imgHeight)) ;;
              advance (imgHeight + 5)) st1)
  else Threw st1.

(** The body of the [try] block. *)
Definition tryImage (i : nat) (defect : Defect) (st : Run) : Outcome :=
  let size := loadedSize (imageData defect) in
  let scaled := scaleImage (fst size) (snd size) maxImgWidth maxImgHeight in
  placeImage i defect (fst scaled) (snd scaled) st.

(** The [catch] block. *)
Definition imageError : Stmt :=
  on_doc (doc_setFontSize 10) ;;
  on_doc (doc_setTextColor (150, 0, 0)%nat) ;;
  at_y (fun y => on_doc (doc_text "[Image could not be loaded]" margin y false)) ;;
  on_doc (doc_setTextColor (0, 0, 0)%nat) ;;
  advance 8.

Definition descriptionLine (line : string) : Stmt :=
  checkNewPage_ 6 ;;
  at_y (fun y => on_doc (doc_text line margin y false)) ;;
  advance 5.

Definition separator : Stmt :=
  checkNewPage_ 15 ;;
  on_doc (doc_setDrawColor (220, 220, 220)%nat) ;;
  on_doc (doc_setLineWidth (Num 0.3)) ;;
  at_y (fun y => on_doc (doc_line margin y (pageWidth - margin) y)) ;;
  advance 10.

(** An iteration of the loop over the defects, from the [try] block on:
    the image, the description, the separator; [total] is
    [defects.length]. *)
Definition imageAndDescription (total : nat) (defect : Defect) (i : nat) : Stmt :=
  tryCatch (tryImage i defect) imageError ;;
  on_doc (doc_setFontSize 10) ;;
  on_doc (doc_setFont false) ;;
  withLines (description defect) contentWidth (forEach descriptionLine) ;;
  advance 10 ;;
  when (i <? total - 1)%nat separator.

(** One iteration of the loop over the defects. *)
Definition renderDefect (total : nat) (defect : Defect) (i : nat) : Stmt :=
  checkNewPage_ 100 ;;
  printHeading (defectHeading i defect "") ;;
  imageAndDescription total defect i.

Definition defectsTitle (total : nat) : string :=
  "Identified Defects (" +:+ pretty total +:+ " Total)".

Definition defectsSection (defects : list Defect) : Stmt :=
  when (0 <? length defects)%nat (
    on_doc doc_addPage ;;
    setY margin ;;
    addSectionHeader (defectsTitle (length defects)) ;;
    forEachIndexed (renderDefect (length defects)) defects).

(** *** Footer on all pages *)

(** [new Date()]: the index of this reading of the clock. *)
Definition newDate (k : nat -> Stmt) : Stmt :=
  fun st =>
    k (clockReads st)
      {| doc := doc st; yPos := yPos st; clockReads := S (clockReads st) |}.

Definition pageLabel (i totalPages : nat) : string :=
  "Page " +:+ pretty i +:+ " of " +:+ pretty totalPages.

(** The body of the footer loop for page [i], counted from 1. *)
Definition stampPage (totalPages i : nat) : Stmt :=
  on_doc (doc_setPage i) ;;
  on_doc (doc_setFontSize 8) ;;
  on_doc (doc_setFont false) ;;
  on_doc (doc_setTextColor (150, 150, 150)%nat) ;;
  on_doc (doc_text (pageLabel i totalPages) (pageWidth / 2) (pageHeight - 10) true) ;;
  newDate (fun now =>
    let timestamp := localeString env now in
    on_doc (doc_text ("Report generated: " +:+ timestamp)
                     (pageWidth / 2) (pageHeight - 6) true)).

Definition footers : Stmt :=
  fun st =>
    let totalPages := getNumberOfPages (doc st) in
    forEach (stampPage totalPages) (seq 1%nat totalPages) st.

(** *** The handler *)

Definition startRun : Run :=
  {| doc := newDoc; yPos := margin; clockReads := 0 |}.

(** Everything up to the footers. *)
Definition compose (form : Form) (defects : list Defect) : Stmt :=
  documentHeader form ;;
  clientDetails form ;;
  inspectionDetails form ;;
  disclaimerSection form ;;
  defectsSection defects.

(** The name the file is saved under, from the date of [today]. *)
Definition fileName (today : nat) : string :=
  "Inspection_Report_" +:+ before_char "T" (isoString env today) +:+ ".pdf".

(** The click handler: the finished document and the name it is saved
    under. *)
Definition generate (form : Form) (defects : list Defect) : Doc * string :=
  let st := (compose form defects ;; footers) startRun in
  (doc st, fileName (clockReads st)).

(** What a click on "Generate PDF" ends in.  The body of the handler is one
    [try] block: when a call throws that the [try] block around the image
    does not catch, the rest is skipped, nothing is saved, and the outer
    [catch] shows "Error generating PDF: ..." in the status line;
    otherwise [doc.save(filename)] downloads the document.  The calls
    [generate] records up to the first refused one are those the handler
    makes before it throws, so the handler throws exactly when one of the
    recorded calls is refused. *)
Definition generatePdfClick (form : Form) (defects : list Defect) : Status :=
  let result := generate form defects in
  if existsb refused (calls (fst result))
  then ErrorShown
  else Saved (fst result) (snd result).

End Generator.

(** ** Observations on documents and runs *)

(** The strings an operation draws. *)
Definition op_texts (op : DrawOp) : list string :=
  match op with
  | Text s _ _ _ _ _ _ => [s]
  | TextLines ls _ _ _ _ _ => ls
  | _ => []
  end.

Definition page_texts (p : Page) : list string := concat (op_texts <$> p).

(** Every string drawn, page after page, in drawing order on each page. *)
Definition all_texts (d : Doc) : list string := concat (page_texts <$> pages d).

(** The current page is the last one: what holds while the report is
    composed, before the footer loop revisits the pages. *)
Definition current_is_last (d : Doc) : Prop := S (cur d) = length (pages d).

(** An operation draws only strings of [T], and tags an image as JPEG. *)
Definition op_ok (T : string -> Prop) (op : DrawOp) : Prop :=
  match op with
  | Text s _ _ _ _ _ _ => T s
  | TextLines ls _ _ _ _ _ => Forall T ls
  | Image _ format _ _ _ _ => format = "JPEG"
  | _ => True
  end.

Definition ops_ok (T : string -> Prop) (d : Doc) : Prop :=
  Forall (Forall (op_ok T)) (pages d).

(** Pages are append-only: every page of [d0] is still there in [d], at the
    same index, with operations added at its end only. *)
Definition extends (d0 d : Doc) : Prop :=
  forall i p, pages d0 !! i = Some p -> exists q, pages d !! i = Some (p ++ q).

(** The first [n] pages are [ps] and the current page is a later one. *)
Definition frozen (n : nat) (ps : list Page) (d : Doc) : Prop :=
  (n <= cur d)%nat /\ (cur d < length (pages d))%nat /\ take n (pages d) = ps.

(** The cursor is a number between the top and the bottom margin. *)
Definition cursor_in_range (st : Run) : Prop :=
  exists y, yPos st = Num y /\ value margin <= y <= value pageHeight - value margin.

(** The cursor is a number not above the top margin line. *)
Definition cursor_below_top (st : Run) : Prop :=
  exists y, yPos st = Num y /\ value margin <= y.

(** A statement keeps a property of the document. *)
Definition preserves (I : Doc -> Prop) (s : Stmt) : Prop :=
  forall st, I (doc st) -> I (doc (s st)).

(** The state a [try] block ends in, thrown or not. *)
Definition outcome_state (o : Outcome) : Run :=
  match o with Done st => st | Threw st => st end.

(** A property of documents that drawing keeps, as long as the strings
    drawn are in [T] and images are tagged JPEG: it depends on the pages and
    the current page only, and survives one more operation on the current
    page and one more page. *)
Class DocInvariant (T : string -> Prop) (I : Doc -> Prop) : Prop := {
  inv_state : forall d d', pages d' = pages d -> cur d' = cur d -> I d -> I d';
  inv_emit : forall op d, op_ok T op -> I d -> I (emit op d);
  inv_addPage : forall d, I d -> I (doc_addPage d)
}.

(** An invariant that also survives [doc.setPage]. *)
Class PageInvariant (T : string -> Prop) (I : Doc -> Prop) : Prop := {
  page_inv :: DocInvariant T I;
  inv_setPage : forall i d, I d -> I (doc_setPage i d)
}.

Definition any_text : string -> Prop := fun _ => True.

(** What [clientDetails] draws for the field [id] under [label], when the
    field is not empty, is in [T]. *)
Definition field_shown (T : string -> Prop) (form : Form) (id label : string)
    (shown : string -> Prop) : Prop :=
  truthy (getFieldValue form id) = true ->
  T label /\ shown (getFieldValue form id).

(** However [value] is wrapped to [width], its lines are in [T]. *)
Definition wrapped_in (env : Env) (T : string -> Prop) (width : jsnum)
    (value : string) : Prop :=
  forall size b, Forall T (splitTextToSize env size b value width).

(** The two footer lines stamped on page [i] of [totalPages] at the
    [now]-th reading of the clock. *)
Definition footerStamps (env : Env) (totalPages i now : nat) : list DrawOp :=
  [ Text (pageLabel i totalPages) (pageWidth / 2) (pageHeight - 10) true
         (Num 8) false (150, 150, 150)%nat;
    Text ("Report generated: " +:+ localeString env now)
         (pageWidth / 2) (pageHeight - 6) true
         (Num 8) false (150, 150, 150)%nat ].

(** ** Sample inputs *)

Fixpoint split_lines (acc s : string) : list string :=
  match s with
  | EmptyString => [String.rev acc]
  | String c s' =>
      if Ascii.eqb c "010"%char
      then String.rev acc :: split_lines EmptyString s'
      else split_lines (String c acc) s'
  end.

(** A browser and a jsPDF for the examples: text is broken at line feeds
    only (every line is narrower than the page), an image has the size
    [sizes] gives it, [addImage] accepts the payloads of [accepts], and the
    clock reads [clock]. *)
Definition sampleEnv (sizes : string -> option (positive * positive))
    (accepts : string -> bool) (clock : nat -> string) : Env :=
  {| splitTextToSize := fun _ _ s _ => split_lines EmptyString s;
     probe := sizes;
     addImage_ok := fun data _ _ _ _ => accepts data;
     localeString := clock;
     isoString := fun _ => "2024-03-15T09:30:00.000Z";
     formatDate := fun s => s |}.

(** Every payload is a 400 by 300 image that jsPDF accepts; the clock
    stands still. *)
Definition plainEnv : Env :=
  sampleEnv (fun _ => Some (400, 300)%positive) (fun _ => true)
            (fun _ => "3/15/2024, 9:30:00 AM").

Definition pngDefect : Defect :=
  {| id := 1; defectType := "Crack";
     imageData := "data:image/png;base64,iVBORw0KGgo=";
     imageName := "crack.png"; description := "Hairline crack in the wall." |}.

(** A run that has reached [y] on its only page, with 10 pt regular type. *)
Definition runAt (y : Q) : Run :=
  {| doc := doc_setFontSize 10 newDoc; yPos := Num y; clockReads := 0 |}.


(** The text block of [addText] laid out on a page of unbounded height:
    one wrap of the text, its lines one below the other on the current
    page, and no page break. *)
Definition addText_unbounded (env : Env) (text : string) (size : jsnum)
    (isBold : bool) : Stmt :=
  on_doc (doc_setFontSize size) ;;
  on_doc (doc_setFont isBold) ;;
  withLines env text contentWidth (fun lines =>
    let lineHeight := (size * Num 0.5)%js in
    forEach (fun line =>
      at_y (fun y => on_doc (doc_text line margin y false)) ;;
      advance lineHeight) lines ;;
    advance 2).

(** The first three operations of the defects section: the banner, the
    title, and the heading of the first defect. *)
Definition defectsOpening (total : nat) (first : Defect) : list DrawOp :=
  [ Rect margin (margin + 5 - 5) contentWidth 10 (240, 240, 240)%nat;
    Text (defectsTitle total) (margin + 3) (margin + 5 + 2) false
         (Num 12) true (30, 30, 30)%nat;
    Text (defectHeading 0 first "") margin (margin + 5 + 12) false
         (Num 11) true (44, 82, 130)%nat ].

(** Every payload is a 392 by 294 image that jsPDF accepts. *)
Definition photoEnv : Env :=
  sampleEnv (fun _ => Some (392, 294)%positive) (fun _ => true)
            (fun _ => "3/15/2024, 9:30:00 AM").

(** *** The doubles of the machine

    The image scaling on the primitive floats of Rocq, which are the
    binary64 numbers of the processor, to check [JsNum.fl] against. *)

Module Binary64.

(** The number a double of the machine stands for. *)
Definition to_jsnum (f : PrimFloat.float) : jsnum :=
  match FloatOps.Prim2SF f with
  | SpecFloat.S754_zero _ => Num 0
  | SpecFloat.S754_infinity s => if s then NInf else PInf
  | SpecFloat.S754_nan => NaN
  | SpecFloat.S754_finite s m e =>
      let v := Qred (inject_Z (Z.pos m) * pow2 e) in
      Num (if s then - v else v)
  end.

(** A pixel count as a double. *)
Definition of_pixels (n : positive) : PrimFloat.float :=
  PrimFloat.of_uint63 (Uint63.of_Z (Z.pos n)).

(** The double [m * 2 ^ e], for [m] below [2 ^ 53]. *)
Definition of_scaled (m : positive) (e : Z) : PrimFloat.float :=
  FloatOps.Z.ldexp (of_pixels m) e.

(** The scaling of the handler (lines 556 to 562) on the doubles of the
    machine. *)
Definition scaled (w h : positive) : jsnum * jsnum :=
  let a := PrimFloat.div (of_pixels 170) (of_pixels w) in
  let b := PrimFloat.div (of_pixels 80) (of_pixels h) in
  let ratio := if PrimFloat.ltb a b then a else b in
  (to_jsnum (PrimFloat.mul (of_pixels w) ratio),
   to_jsnum (PrimFloat.mul (of_pixels h) ratio)).

End Binary64.

(** [m * 2 ^ e] *)
Definition scaled_by (m : positive) (e : Z) : jsnum :=
  Num (inject_Z (Z.pos m) * pow2 e).

(** Some image sizes: photographs, small and large, and the extremes. *)
Definition sampleSizes : list (positive * positive) :=
  [ (392, 294); (400, 300); (1, 147); (3, 7); (10, 10); (640, 480); (800, 600);
    (1024, 768); (1920, 1080); (4032, 3024); (3024, 4032); (169, 79); (171, 81);
    (1, 1); (4294967295, 1); (1, 4294967295); (333, 777); (12345, 6789) ]%positive.

(** The clock moves on by one second between two readings. *)
Definition tickingEnv : Env :=
  sampleEnv (fun _ => Some (400, 300)%positive) (fun _ => true)
            (fun k => "3/15/2024, 9:30:0" +:+ pretty k +:+ " AM").

(** The string of the last operation of a page, when it is a text: after
    the footer loop, the timestamp line. *)
Definition lastLine (p : Page) : option string :=
  match last p with
  | Some (Text s _ _ _ _ _ _) => Some s
  | _ => None
  end.

(** A file that is not an image, picked under the name [notes.jpg]. *)
Definition brokenDefect : Defect :=
  {| id := 1; defectType := "Leak";
     imageData := "data:image/jpeg;base64,bm90IGFuIGltYWdl";
     imageName := "notes.jpg"; description := "Damp patch." |}.

(** A JPEG file cut off after its frame header, picked as [photo.jpg]: the
    header says 400 by 300, the picture data is missing. *)
Definition truncatedDefect : Defect :=
  {| id := 2; defectType := "Leak";
     imageData := "data:image/jpeg;base64,/9j/4AAQSkZJRgABAQAAAQABAAD/wAALCAEsAZABAREA";
     imageName := "photo.jpg"; description := "Damp patch." |}.

(** The browser can decode neither the payload of [brokenDefect] nor that
    of [truncatedDefect] ([onerror]).  jsPDF throws on the first, in which
    it finds no image, and embeds the second, of which it reads the header
    only. *)
Definition headerOnlyEnv : Env :=
  sampleEnv (fun data =>
               if String.eqb data (imageData brokenDefect)
                  || String.eqb data (imageData truncatedDefect)
               then None
               else Some (400, 300)%positive)
            (fun data => negb (String.eqb data (imageData brokenDefect)))
            (fun _ => "3/15/2024, 9:30:00 AM").

(** jsPDF throws on the payload of [brokenDefect]. *)
Definition strictEnv : Env :=
  sampleEnv (fun data =>
               if String.eqb data (imageData brokenDefect) then None
               else Some (400, 300)%positive)
            (fun data => negb (String.eqb data (imageData brokenDefect)))
            (fun _ => "3/15/2024, 9:30:00 AM").

(** An address of sixty short lines, and a form that has it and the name
    of the inspector. *)
Definition longAddress : string :=
  String.concat (String "010" EmptyString) (replicate 60 "Flat 1").

Definition longAddressForm : Form :=
  {[ "clientAddress" := longAddress; "inspectorName" := "Ann" ]}.

(** The handler up to the write of the property address and the advance
    that follows it. *)
Definition untilAddress (env : Env) (form : Form) : Stmt :=
  documentHeader form ;;
  addSectionHeader "Property & Client Details" ;;
  on_doc (doc_setFontSize 10) ;;
  when (truthy (getFieldValue form "clientName"))
       (labelled "Client Name:" (getFieldValue form "clientName")) ;;
  labelledLines env "Property Address:" (getFieldValue form "clientAddress").

(** The document has at least [n] pages. *)
Definition at_least_pages (n : nat) (d : Doc) : Prop := (n <= length (pages d))%nat.

(** ** The texts that stand for the fields of the form *)

(** The titles and labels the layout draws whatever the form holds. *)
Definition layoutLabels : list string :=
  [ "Property & Client Details"; "Inspection Details"; "General Disclaimer";
    "Attendance"; "Occupancy"; "Type of Building"; "Weather Condition" ].

(** The fields of the inspection details table. *)
Definition tableFields : list string :=
  [ "attendance"; "occupancy"; "buildingType"; "weatherCondition" ].

(** [s] is drawn for a field that is not empty: its value, its label, the
    contact line, the formatted date, or one of its lines once wrapped. *)
Definition fromPresentField (env : Env) (form : Form) (s : string) : Prop :=
  let v := getFieldValue form in
  let present id := truthy (v id) = true in
  let wrapped id width :=
    exists size b, s ∈ splitTextToSize env size b (v id) width in
  (present "companyName" /\ s = v "companyName") \/
  ((present "companyPhone" \/ present "companyEmail") /\
   s = String.concat " | " (contactInfo (v "companyPhone") (v "companyEmail"))) \/
  (present "reportTitle" /\ s = v "reportTitle") \/
  (present "clientName" /\ (s = "Client Name:" \/ s = v "clientName")) \/
  (present "clientAddress" /\
   (s = "Property Address:" \/ wrapped "clientAddress" (contentWidth - 40)%js)) \/
  (present "inspectionDate" /\
   (s = "Inspection Date:" \/ s = formatDate env (v "inspectionDate"))) \/
  (present "inspectorName" /\ (s = "Inspector:" \/ s = v "inspectorName")) \/
  (present "inspectorCredentials" /\
   (s = "Credentials:" \/ wrapped "inspectorCredentials" (contentWidth - 40)%js)) \/
  (exists id, id ∈ tableFields /\ present id /\ s = v id) \/
  (present "disclaimer" /\ wrapped "disclaimer" contentWidth).

(** The ids of the fields of the report metadata. *)
Definition formFields : list string :=
  [ "companyName"; "companyPhone"; "companyEmail"; "reportTitle";
    "clientName"; "clientAddress"; "inspectionDate"; "inspectorName";
    "inspectorCredentials"; "attendance"; "occupancy"; "buildingType";
    "weatherCondition"; "disclaimer" ].

(** [s] is the placeholder of an empty field. *)
Definition placeholderText (form : Form) (s : string) : Prop :=
  s = "N/A" /\ exists id, id ∈ formFields /\ getFieldValue form id = "".

(** [s] is the default that replaces an empty company name or an empty
    report title. *)
Definition defaultText (form : Form) (s : string) : Prop :=
  (s = "Inspection Company" /\ getFieldValue form "companyName" = "") \/
  (s = "Home Defect Inspection Report" /\ getFieldValue form "reportTitle" = "").

(** What C2 allows the layout to draw: a title or label, a text of a field
    that is not empty, or "N/A" for an empty one; an empty field is left
    out or shown as "N/A". *)
Definition claimedText (env : Env) (form : Form) (s : string) : Prop :=
  s ∈ layoutLabels \/ fromPresentField env form s \/ placeholderText form s.

(** What the layout draws: as above, or one of the two defaults. *)
Definition drawnText (env : Env) (form : Form) (s : string) : Prop :=
  claimedText env form s \/ defaultText form s.

(** The current page is the last one and [s] is among the texts drawn. *)
Definition texts_include (s : string) (d : Doc) : Prop :=
  current_is_last d /\ s ∈ all_texts d.

(** ** The outline of a document

    What is drawn and in which order, without the coordinates: the view in
    which a report is the same wherever its page breaks fall. *)

Inductive Sketch : Type :=
| KText (s : string)
| KLines (ls : list string)
| KRect (fill : rgb)
| KLine (stroke : rgb)
| KImage (data format : string).

Definition sketch (op : DrawOp) : Sketch :=
  match op with
  | Text s _ _ _ _ _ _ => KText s
  | TextLines ls _ _ _ _ _ => KLines ls
  | Rect _ _ _ _ fill => KRect fill
  | Line _ _ _ _ stroke _ => KLine stroke
  | Image data format _ _ _ _ => KImage data format
  end.

(** Every operation of the document, page after page. *)
Definition all_ops (d : Doc) : list DrawOp := concat (pages d).

Definition outline (d : Doc) : list Sketch := sketch <$> all_ops d.

(** The part of the graphics state that decides what the next operation
    looks like and how the next text is wrapped. *)
Record Pen : Type := mkPen {
  penSize : jsnum;
  penBold : bool;
  penFill : rgb;
  penStroke : rgb
}.

Definition pen_of (d : Doc) : Pen :=
  {| penSize := fontSize d; penBold := bold d;
     penFill := fillColor d; penStroke := drawColor d |}.

(** Started with the pen [p] on the last page, the statement [s] appends
    the operations sketched by [l], ends on the last page and leaves the
    pen [p']. *)
Definition writes (p : Pen) (s : Stmt) (l : list Sketch) (p' : Pen) : Prop :=
  forall st, current_is_last (doc st) -> pen_of (doc st) = p ->
    current_is_last (doc (s st)) /\
    pen_of (doc (s st)) = p' /\
    outline (doc (s st)) = outline (doc st) ++ l.

(** The same from the state [st], whatever its pen. *)
Definition appends (s : Stmt) (st : Run) (l : list Sketch) : Prop :=
  current_is_last (doc (s st)) /\ outline (doc (s st)) = outline (doc st) ++ l.

(** The contact line of the header, if there is one. *)
Definition contactSketch (companyPhone companyEmail : string) : list Sketch :=
  match truthy companyPhone, truthy companyEmail with
  | true, true => [KText (companyPhone +:+ " | " +:+ companyEmail)]
  | true, false => [KText companyPhone]
  | false, true => [KText companyEmail]
  | false, false => []
  end.

(** A label and its value, when the value is not empty. *)
Definition pairSketch (label value : string) (shown : Sketch) : list Sketch :=
  if truthy value then [KText label; shown] else [].

Definition bannerFill : rgb := (240, 240, 240)%nat.
Definition rowFill : rgb := (248, 248, 248)%nat.
Definition ruleStroke : rgb := (200, 200, 200)%nat.
Definition separatorStroke : rgb := (220, 220, 220)%nat.

(** What stands for the image of the defect at position [i]: the image, or
    the notice, either of them after the repeated heading when a page was
    added for the image. *)
Definition imageSketches (i : nat) (defect : Defect) (l : list Sketch) : Prop :=
  l = [KImage (imageData defect) "JPEG"] \/
  l = [KText (defectHeading i defect " (continued)");
       KImage (imageData defect) "JPEG"] \/
  l = [KText "[Image could not be loaded]"] \/
  l = [KText (defectHeading i defect " (continued)");
       KText "[Image could not be loaded]"].

(** The outline of the defect at position [i] out of [total], given what
    stands for its image. *)
Definition defectSketches (env : Env) (total i : nat) (defect : Defect)
    (img : list Sketch) : list Sketch :=
  KText (defectHeading i defect "") :: img ++
  (KText <$> splitTextToSize env 10 false (description defect) contentWidth) ++
  (if (i <? total - 1)%nat then [KLine separatorStroke] else []).

(** The outlines of the defects [defects], the first at position [i], given
    what stands for the image of each. *)
Fixpoint defectsSketches (env : Env) (total i : nat) (defects : list Defect)
    (imgs : list (list Sketch)) : list Sketch :=
  match defects, imgs with
  | defect :: defects', img :: imgs' =>
      defectSketches env total i defect img ++
      defectsSketches env total (S i) defects' imgs'
  | _, _ => []
  end.

(** What stands for the images of [defects], the first at position [i]. *)
Fixpoint imagesSketches (i : nat) (defects : list Defect)
    (imgs : list (list Sketch)) : Prop :=
  match defects, imgs with
  | [], [] => True
  | defect :: defects', img :: imgs' =>
      imageSketches i defect img /\ imagesSketches (S i) defects' imgs'
  | _, _ => False
  end.

(** The statement keeps a property of the run. *)
Definition keeps (J : Run -> Prop) (s : Stmt) : Prop := forall st, J st -> J (s st).

(** The clock has been read [k] times. *)
Definition clock_at (k : nat) (st : Run) : Prop := clockReads st = k.

(** The string is made of white space only. *)
Fixpoint all_spaces (s : string) : bool :=
  match s with
  | EmptyString => true
  | String c s' => is_space c && all_spaces s'
  end.

(** The last character of a string. *)
Fixpoint last_char (s : string) : option ascii :=
  match s with
  | EmptyString => None
  | String c EmptyString => Some c
  | String _ s' => last_char s'
  end.

(** ** The defect list and the form that feeds it

    The global state of the script and the form elements its handlers read
    and write.  "Add Defect" reads the picked file asynchronously: the
    click handler validates the form and starts a [FileReader]; the defect
    is added, and the form cleared, when the reader fires [onload], and
    other events can come in between.  The preview of a picked file is
    shown as soon as the file is picked.  The rendering of the list into
    the page ([renderDefects], [escapeHtml]) and the status line write to
    elements that no handler reads back, and are left out. *)

(** A picked file: its name, its MIME type, and the data URL that reading
    it gives. *)
Record File : Type := mkFile {
  file_name : string;
  file_type : string;
  file_dataURL : string
}.

(** What [imagePreview] shows: the placeholder text or the picked image. *)
Inductive Preview : Type :=
| PreviewPlaceholder
| PreviewImage (src : string).

(** A read started by a click on "Add Defect" and not finished yet: what
    the closure of its [onload] holds. *)
Record Reading : Type := mkReading {
  read_defectType : string;
  read_description : string;
  read_file : File
}.

Record Ui : Type := mkUi {
  defects : list Defect;
  defectCounter : nat;
  defectTypeSelect : string;
  customDefectInputShown : bool;
  customDefectType : string;
  defectImage : option File;
  defectDescription : string;
  imagePreview : Preview;
  readings : list Reading
}.

(** [s.match(pattern)] for a pattern without special characters: whether
    [pattern] occurs in [s]. *)
Fixpoint contains (pattern s : string) : bool :=
  String.prefix pattern s ||
  match s with
  | EmptyString => false
  | String _ s' => contains pattern s'
  end.

(** The [change] handler of the file input, once the browser has put the
    picked file (or none) into the input: the alert shown, if any, and the
    new state. *)
Definition imageChange (picked : option File) (ui : Ui) : option string * Ui :=
  match picked with
  | Some file =>
      if negb (contains "image/jpeg" (file_type file)) &&
         negb (contains "image/png" (file_type file))
      then (Some "Please select a JPEG or PNG image file.",
            {| defects := defects ui; defectCounter := defectCounter ui;
               defectTypeSelect := defectTypeSelect ui;
               customDefectInputShown := customDefectInputShown ui;
               customDefectType := customDefectType ui;
               defectImage := None;
               defectDescription := defectDescription ui;
               imagePreview := imagePreview ui;
               readings := readings ui |})
      else (None,
            {| defects := defects ui; defectCounter := defectCounter ui;
               defectTypeSelect := defectTypeSelect ui;
               customDefectInputShown := customDefectInputShown ui;
               customDefectType := customDefectType ui;
               defectImage := Some file;
               defectDescription := defectDescription ui;
               imagePreview := PreviewImage (file_dataURL file);
               readings := readings ui |})
  | None =>
      (None,
       {| defects := defects ui; defectCounter := defectCounter ui;
          defectTypeSelect := defectTypeSelect ui;
          customDefectInputShown := customDefectInputShown ui;
          customDefectType := customDefectType ui;
          defectImage := None;
          defectDescription := defectDescription ui;
          imagePreview := PreviewPlaceholder;
          readings := readings ui |})
  end.

(** The [change] handler of the defect type select, once the browser has
    put the chosen value into it. *)
Definition typeChange (value : string) (ui : Ui) : Ui :=
  if String.eqb value "Other"
  then {| defects := defects ui; defectCounter := defectCounter ui;
          defectTypeSelect := value;
          customDefectInputShown := true;
          customDefectType := customDefectType ui;
          defectImage := defectImage ui;
          defectDescription := defectDescription ui;
          imagePreview := imagePreview ui;
          readings := readings ui |}
  else {| defects := defects ui; defectCounter := defectCounter ui;
          defectTypeSelect := value;
          customDefectInputShown := false;
          customDefectType := "";
          defectImage := defectImage ui;
          defectDescription := defectDescription ui;
          imagePreview := imagePreview ui;
          readings := readings ui |}.

(** The defect type the click handler settles on. *)
Definition chosenType (ui : Ui) : string :=
  if String.eqb (defectTypeSelect ui) "Other"
  then trim (customDefectType ui)
  else defectTypeSelect ui.

(** [reader.readAsDataURL(file)] in the click handler: one more read is
    under way. *)
Definition startReading (r : Reading) (ui : Ui) : Ui :=
  {| defects := defects ui; defectCounter := defectCounter ui;
     defectTypeSelect := defectTypeSelect ui;
     customDefectInputShown := customDefectInputShown ui;
     customDefectType := customDefectType ui;
     defectImage := defectImage ui;
     defectDescription := defectDescription ui;
     imagePreview := imagePreview ui;
     readings := readings ui ++ [r] |}.

(** The [click] handler of "Add Defect": the alert shown, if any, and the
    new state.  When the form is valid nothing changes but that a read of
    the file is under way, with the type and the description of the moment
    of the click. *)
Definition addDefectClick (ui : Ui) : option string * Ui :=
  let file := defectImage ui in
  let description := trim (defectDescription ui) in
  let defectType := chosenType ui in
  if negb (truthy defectType)
  then (Some "Please select or enter a defect type.", ui)
  else
    match file with
    | None => (Some "Please select an image for the defect.", ui)
    | Some file =>
        if negb (truthy description)
        then (Some "Please enter a description for the defect.", ui)
        else
          (None,
           startReading {| read_defectType := defectType;
                           read_description := description;
                           read_file := file |} ui)
    end.

(** [reader.onload] of "Add Defect": the defect is created under the next
    id and pushed, and the form is cleared. *)
Definition readerOnload (r : Reading) (ui : Ui) : Ui :=
  {| defects :=
       defects ui ++
       [ {| id := S (defectCounter ui);
            defectType := read_defectType r;
            imageData := file_dataURL (read_file r);
            imageName := file_name (read_file r);
            description := read_description r |} ];
     defectCounter := S (defectCounter ui);
     defectTypeSelect := "";
     customDefectInputShown := false;
     customDefectType := "";
     defectImage := None;
     defectDescription := "";
     imagePreview := PreviewPlaceholder;
     readings := readings ui |}.

(** The [n]-th of the reads under way finishes. *)
Definition finishReading (n : nat) (ui : Ui) : Ui :=
  match readings ui !! n with
  | Some r =>
      readerOnload r
        {| defects := defects ui; defectCounter := defectCounter ui;
           defectTypeSelect := defectTypeSelect ui;
           customDefectInputShown := customDefectInputShown ui;
           customDefectType := customDefectType ui;
           defectImage := defectImage ui;
           defectDescription := defectDescription ui;
           imagePreview := imagePreview ui;
           readings := delete n (readings ui) |}
  | None => ui
  end.

(** [removeDefect(id)]; [confirmed] is the answer to the confirmation. *)
Definition removeDefect (removed : nat) (confirmed : bool) (ui : Ui) : Ui :=
  if confirmed
  then {| defects := List.filter (fun d => negb (Nat.eqb (id d) removed)) (defects ui);
          defectCounter := defectCounter ui;
          defectTypeSelect := defectTypeSelect ui;
          customDefectInputShown := customDefectInputShown ui;
          customDefectType := customDefectType ui;
          defectImage := defectImage ui;
          defectDescription := defectDescription ui;
          imagePreview := imagePreview ui;
          readings := readings ui |}
  else ui.

(** What the user and the browser can do to the state.  The reads under
    way finish in any order, or not at all. *)
Inductive Event : Type :=
| PickFile (picked : option File)
| SelectType (value : string)
| TypeCustomType (text : string)
| TypeDescription (text : string)
| ClickAdd
| ReaderLoaded (n : nat)
| ClickRemove (removed : nat) (confirmed : bool).

Definition step (ui : Ui) (e : Event) : Ui :=
  match e with
  | PickFile picked => snd (imageChange picked ui)
  | SelectType value => typeChange value ui
  | TypeCustomType text =>
      {| defects := defects ui; defectCounter := defectCounter ui;
         defectTypeSelect := defectTypeSelect ui;
         customDefectInputShown := customDefectInputShown ui;
         customDefectType := text;
         defectImage := defectImage ui;
         defectDescription := defectDescription ui;
         imagePreview := imagePreview ui;
         readings := readings ui |}
  | TypeDescription text =>
      {| defects := defects ui; defectCounter := defectCounter ui;
         defectTypeSelect := defectTypeSelect ui;
         customDefectInputShown := customDefectInputShown ui;
         customDefectType := customDefectType ui;
         defectImage := defectImage ui;
         defectDescription := text;
         imagePreview := imagePreview ui;
         readings := readings ui |}
  | ClickAdd => snd (addDefectClick ui)
  | ReaderLoaded n => finishReading n ui
  | ClickRemove removed confirmed => removeDefect removed confirmed ui
  end.

(** The state when the script has loaded: no defect, counter at 0, no read
    under way, and the form as the page has it. *)
Definition loadedUi (defectTypeSelect0 customDefectType0 defectDescription0 : string)
    : Ui :=
  {| defects := []; defectCounter := 0;
     defectTypeSelect := defectTypeSelect0;
     customDefectInputShown := false;
     customDefectType := customDefectType0;
     defectImage := None;
     defectDescription := defectDescription0;
     imagePreview := PreviewPlaceholder;
     readings := [] |}.

(** The ids grow along the list and none is above the counter. *)
Fixpoint ids_increase (lower : nat) (ds : list Defect) (counter : nat) : Prop :=
  match ds with
  | [] => (lower <= counter)%nat
  | d :: ds' => (lower < id d)%nat /\ ids_increase (id d) ds' counter
  end.

(** What holds of the list whatever the user has done: ids grow along the
    list up to the counter, and every defect has a type and a description
    that are not empty, the description trimmed. *)
Definition well_formed (ui : Ui) : Prop :=
  ids_increase 0 (defects ui) (defectCounter ui) /\
  Forall (fun d => truthy (defectType d) = true /\
                   truthy (description d) = true /\
                   trim (description d) = description d) (defects ui).

(** The reads under way hold what the click handler has validated. *)
Definition readings_valid (ui : Ui) : Prop :=
  Forall (fun r => truthy (read_defectType r) = true /\
                   truthy (read_description r) = true /\
                   trim (read_description r) = read_description r) (readings ui).

Definition sampleFile : File :=
  {| file_name := "crack.png"; file_type := "image/png";
     file_dataURL := "data:image/png;base64,iVBORw0KGgo=" |}.

(** The form filled in for a crack. *)
Definition filledUi : Ui :=
  {| defects := []; defectCounter := 0;
     defectTypeSelect := "Crack";
     customDefectInputShown := false;
     customDefectType := "";
     defectImage := Some sampleFile;
     defectDescription := " Hairline crack in the wall. ";
     imagePreview := PreviewImage (file_dataURL sampleFile);
     readings := [] |}.

(** The state after a sequence of events. *)
Definition run (events : list Event) (ui : Ui) : Ui := fold_left step events ui.

(** The type check of the file input, on the file. *)
Definition accepted (file : File) : bool :=
  contains "image/jpeg" (file_type file) || contains "image/png" (file_type file).

(** The files the user has picked in the course of [events]. *)
Definition pickedFiles (events : list Event) : list File :=
  flat_map (fun e => match e with PickFile (Some file) => [file] | _ => [] end) events.

(** [d] was made of [file]. *)
Definition made_of (d : Defect) (file : File) : Prop :=
  imageData d = file_dataURL file /\ imageName d = file_name file.

(** The file the input holds, the file of every read under way and the
    file every defect was made of is one of [files], and has passed the
    type check. *)
Definition from_files (files : list File) (ui : Ui) : Prop :=
  (forall file, defectImage ui = Some file -> In file files /\ accepted file = true) /\
  Forall (fun r => In (read_file r) files /\ accepted (read_file r) = true)
         (readings ui) /\
  Forall (fun d => exists file, In file files /\ accepted file = true /\ made_of d file)
         (defects ui).

(** Every defect of [ui'] is one of [ui], or has an id above the counter
    of [ui]. *)
Definition later_than (ui ui' : Ui) : Prop :=
  (defectCounter ui <= defectCounter ui')%nat /\
  Forall (fun d => In d (defects ui) \/ (defectCounter ui < id d)%nat) (defects ui').

(** Two defects added one after the other, the second of a type typed in. *)
Definition sampleEvents : list Event :=
  [ SelectType "Crack"; PickFile (Some sampleFile);
    TypeDescription " Hairline crack in the wall. "; ClickAdd; ReaderLoaded 0;
    SelectType "Other"; TypeCustomType " Damp patch ";
    PickFile (Some sampleFile); TypeDescription "Below the window."; ClickAdd;
    ReaderLoaded 0 ].

Definition twoDefects : Ui := run sampleEvents (loadedUi "" "" "").

Definition firstDefect : Defect :=
  {| id := 1; defectType := "Crack";
     imageData := file_dataURL sampleFile; imageName := file_name sampleFile;
     description := "Hairline crack in the wall." |}.

Definition secondDefect : Defect :=
  {| id := 2; defectType := "Damp patch";
     imageData := file_dataURL sampleFile; imageName := file_name sampleFile;
     description := "Below the window." |}.

(** The first defect removed, and a third one added. *)
Definition laterEvents : list Event :=
  [ ClickRemove 1 true; SelectType "Crack"; PickFile (Some sampleFile);
    TypeDescription "Another crack."; ClickAdd; ReaderLoaded 0 ].

(** * Properties *)

(** ** JavaScript numbers *)


Lemma gt_Num_false (a b : Q) : (Num a >? Num b)%js = false <-> a <= b.
Proof.
  unfold JsNum.gt. destruct (Qlt_le_dec b a) as [H | H]; split; intros H'.
  - discriminate.
  - lra.
  - exact H.
  - reflexivity.
Qed.

Lemma div_Num (a b : Q) : ~ b == 0 -> (Num a / Num b)%js = Num (a / b).
Proof.
  intros Hb. unfold JsNum.div, Qis_zero.
  destruct (Qeq_bool b 0) eqn:E; [| reflexivity].
  apply Qeq_bool_iff in E. contradiction.
Qed.

Lemma bottom_line : (pageHeight - margin)%js = Num (297 - 20).
Proof. reflexivity. Qed.

(** ** Statements and the document *)

Lemma doc_on_doc f st : doc (on_doc f st) = f (doc st).
Proof. reflexivity. Qed.

Lemma yPos_on_doc f st : yPos (on_doc f st) = yPos st.
Proof. reflexivity. Qed.

Lemma doc_advance dy st : doc (advance dy st) = doc st.
Proof. reflexivity. Qed.

Lemma yPos_advance dy st : yPos (advance dy st) = (yPos st + dy)%js.
Proof. reflexivity. Qed.

Lemma forEach_cons {A} (body : A -> Stmt) x xs st :
  forEach body (x :: xs) st = forEach body xs (body x st).
Proof. reflexivity. Qed.

Lemma forEach_app {A} (body : A -> Stmt) xs ys st :
  forEach body (xs ++ ys) st = forEach body ys (forEach body xs st).
Proof. unfold forEach. apply fold_left_app. Qed.


(** ** Invariants of the document

    One proof per statement of the handler shows that it keeps every
    [DocInvariant], given that the strings it draws are in [T]. *)

Section Preservation.

Context (T : string -> Prop) (I : Doc -> Prop) `{!DocInvariant T I}.
Variable env : Env.

Lemma preserves_skip : preserves I skip.
Proof. intros st H. exact H. Qed.

Lemma preserves_andThen a b :
  preserves I a -> preserves I b -> preserves I (a ;; b).
Proof. intros Ha Hb st H. apply Hb, Ha, H. Qed.

Lemma preserves_when c a : (c = true -> preserves I a) -> preserves I (when c a).
Proof.
  intros Ha. destruct c; cbn [when].
  - apply Ha. reflexivity.
  - apply preserves_skip.
Qed.

Lemma preserves_forEach {A} (body : A -> Stmt) xs :
  (forall x, preserves I (body x)) -> preserves I (forEach body xs).
Proof.
  intros Hbody. induction xs as [| x xs IH]; intros st H.
  - exact H.
  - rewrite forEach_cons. apply IH, Hbody, H.
Qed.

Lemma preserves_forEachFrom {A} (body : A -> nat -> Stmt) i xs :
  (forall x j, preserves I (body x j)) -> preserves I (forEachFrom body i xs).
Proof.
  intros Hbody. revert i. induction xs as [| x xs IH]; intros i st H.
  - exact H.
  - cbn [forEachFrom]. apply IH, Hbody, H.
Qed.

Lemma preserves_at_y f : (forall y, preserves I (f y)) -> preserves I (at_y f).
Proof. intros Hf st H. apply Hf, H. Qed.

Lemma preserves_withLines text width k :
  (forall size b, preserves I (k (splitTextToSize env size b text width))) ->
  preserves I (withLines env text width k).
Proof. intros Hk st H. apply Hk, H. Qed.

Lemma preserves_newDate k : (forall n, preserves I (k n)) -> preserves I (newDate k).
Proof. intros Hk st H. apply Hk, H. Qed.

Lemma preserves_setY y : preserves I (setY y).
Proof. intros st H. exact H. Qed.

Lemma preserves_advance dy : preserves I (advance dy).
Proof. intros st H. exact H. Qed.

Lemma preserves_state f :
  (forall d, pages (f d) = pages d /\ cur (f d) = cur d) -> preserves I (on_doc f).
Proof.
  intros Hf st H. rewrite doc_on_doc.
  destruct (Hf (doc st)) as [Hp Hc]. exact (inv_state _ _ Hp Hc H).
Qed.

Lemma preserves_setFontSize s : preserves I (on_doc (doc_setFontSize s)).
Proof. apply preserves_state. intros d. split; reflexivity. Qed.

Lemma preserves_setFont b : preserves I (on_doc (doc_setFont b)).
Proof. apply preserves_state. intros d. split; reflexivity. Qed.

Lemma preserves_setTextColor c : preserves I (on_doc (doc_setTextColor c)).
Proof. apply preserves_state. intros d. split; reflexivity. Qed.

Lemma preserves_setFillColor c : preserves I (on_doc (doc_setFillColor c)).
Proof. apply preserves_state. intros d. split; reflexivity. Qed.

Lemma preserves_setDrawColor c : preserves I (on_doc (doc_setDrawColor c)).
Proof. apply preserves_state. intros d. split; reflexivity. Qed.

Lemma preserves_setLineWidth w : preserves I (on_doc (doc_setLineWidth w)).
Proof. apply preserves_state. intros d. split; reflexivity. Qed.

Lemma preserves_emit op : op_ok T op -> preserves I (on_doc (emit op)).
Proof. intros Hop st H. rewrite doc_on_doc. apply inv_emit; assumption. Qed.

Lemma preserves_text s x y c : T s -> preserves I (on_doc (doc_text s x y c)).
Proof. intros Hs st H. rewrite doc_on_doc. apply inv_emit; assumption. Qed.

Lemma preserves_textLines ls x y :
  Forall T ls -> preserves I (on_doc (doc_textLines ls x y)).
Proof. intros Hs st H. rewrite doc_on_doc. apply inv_emit; assumption. Qed.

Lemma preserves_rect x y w h : preserves I (on_doc (doc_rect x y w h)).
Proof. intros st H. rewrite doc_on_doc. apply inv_emit; [exact Logic.I | exact H]. Qed.

Lemma preserves_line x1 y1 x2 y2 : preserves I (on_doc (doc_line x1 y1 x2 y2)).
Proof. intros st H. rewrite doc_on_doc. apply inv_emit; [exact Logic.I | exact H]. Qed.

Lemma preserves_addPage : preserves I (on_doc doc_addPage).
Proof. intros st H. rewrite doc_on_doc. apply inv_addPage, H. Qed.

Lemma preserves_checkNewPage_ r : preserves I (checkNewPage_ r).
Proof.
  intros st H. unfold checkNewPage_, checkNewPage.
  destruct (yPos st + r >? pageHeight - margin)%js; cbn [snd].
  - apply inv_addPage, H.
  - exact H.
Qed.

Lemma preserves_tryCatch body handler :
  (forall st, I (doc st) -> I (doc (outcome_state (body st)))) ->
  preserves I handler -> preserves I (tryCatch body handler).
Proof.
  intros Hbody Hh st H. unfold tryCatch.
  specialize (Hbody st H). destruct (body st) as [st' | st']; cbn in Hbody.
  - exact Hbody.
  - apply Hh, Hbody.
Qed.

End Preservation.

(** Splits a goal about a statement along its structure, down to the
    strings it draws. *)
Ltac invariant_instance :=
  lazymatch goal with
  | |- DocInvariant _ _ => exact _
  | _ => idtac
  end.

Ltac preserve_with T :=
  repeat
    lazymatch goal with
    | |- preserves _ skip => apply preserves_skip
    | |- preserves _ (setY _) => apply preserves_setY
    | |- preserves _ (advance _) => apply preserves_advance
    | |- preserves _ (on_doc (doc_setFontSize _)) => apply (preserves_setFontSize T); invariant_instance
    | |- preserves _ (on_doc (doc_setFont _)) => apply (preserves_setFont T); invariant_instance
    | |- preserves _ (on_doc (doc_setTextColor _)) => apply (preserves_setTextColor T); invariant_instance
    | |- preserves _ (on_doc (doc_setFillColor _)) => apply (preserves_setFillColor T); invariant_instance
    | |- preserves _ (on_doc (doc_setDrawColor _)) => apply (preserves_setDrawColor T); invariant_instance
    | |- preserves _ (on_doc (doc_setLineWidth _)) => apply (preserves_setLineWidth T); invariant_instance
    | |- preserves _ (on_doc (doc_rect _ _ _ _)) => apply (preserves_rect T); invariant_instance
    | |- preserves _ (on_doc (doc_line _ _ _ _)) => apply (preserves_line T); invariant_instance
    | |- preserves _ (on_doc doc_addPage) => apply (preserves_addPage T); invariant_instance
    | |- preserves _ (checkNewPage_ _) => apply (preserves_checkNewPage_ T); invariant_instance
    | |- preserves _ (on_doc (doc_text _ _ _ _)) => apply (preserves_text T); invariant_instance
    | |- preserves _ (on_doc (doc_textLines _ _ _)) => apply (preserves_textLines T); invariant_instance
    | |- preserves _ (at_y _) => apply preserves_at_y; intros ?
    | |- preserves _ (when _ _) => apply preserves_when; intros ?
    | |- preserves _ (_ ;; _) => apply preserves_andThen
    end.

Section Blocks.

Context (T : string -> Prop) (I : Doc -> Prop) `{!DocInvariant T I}.
Variable env : Env.

Ltac preserve := preserve_with T.

Lemma preserves_addLine : preserves I addLine.
Proof. unfold addLine. preserve. Qed.

Lemma preserves_addSectionHeader title :
  T title -> preserves I (addSectionHeader title).
Proof. intros Ht. unfold addSectionHeader. preserve. exact Ht. Qed.

Lemma preserves_addText text size isBold :
  (forall sz b, Forall T (splitTextToSize env sz b text contentWidth)) ->
  preserves I (addText env text size isBold).
Proof.
  intros Ht. unfold addText. preserve.
  apply preserves_withLines. intros sz b. cbv beta zeta. preserve.
  specialize (Ht sz b). induction Ht as [| l ls Hl Hls IH]; intros st H.
  - exact H.
  - rewrite forEach_cons. apply IH.
    revert st H. change (preserves I
      (checkNewPage_ (size * Num 0.5 + 2) ;;
       at_y (fun y => on_doc (doc_text l margin y false)) ;;
       advance (size * Num 0.5))).
    preserve. exact Hl.
Qed.

Lemma preserves_documentHeader form :
  T (or_else (getFieldValue form "companyName") "Inspection Company") ->
  (truthy (getFieldValue form "companyPhone") = true \/
   truthy (getFieldValue form "companyEmail") = true ->
   T (String.concat " | " (contactInfo (getFieldValue form "companyPhone")
                                       (getFieldValue form "companyEmail")))) ->
  T (or_else (getFieldValue form "reportTitle") "Home Defect Inspection Report") ->
  preserves I (documentHeader form).
Proof.
  intros Hname Hcontact Htitle. unfold documentHeader.
  preserve; try assumption; try apply preserves_addLine.
  apply Hcontact. unfold contactInfo in *.
  destruct (truthy (getFieldValue form "companyPhone")); [left; reflexivity |].
  destruct (truthy (getFieldValue form "companyEmail")); [right; reflexivity |].
  discriminate.
Qed.

Lemma preserves_labelled label value :
  T label -> T value -> preserves I (labelled label value).
Proof. intros Hl Hv. unfold labelled. preserve; assumption. Qed.

Lemma preserves_labelledLines label value :
  T label ->
  (forall size b, Forall T (splitTextToSize env size b value (contentWidth - 40))) ->
  preserves I (labelledLines env label value).
Proof.
  intros Hl Hv. unfold labelledLines. preserve; try assumption.
  apply preserves_withLines. intros size b. cbv beta. preserve. apply Hv.
Qed.

Lemma preserves_clientDetails form :
  T "Property & Client Details" ->
  field_shown T form "clientName" "Client Name:" T ->
  field_shown T form "clientAddress" "Property Address:"
    (wrapped_in env T (contentWidth - 40)) ->
  field_shown T form "inspectionDate" "Inspection Date:"
    (fun v => T (formatDate env v)) ->
  field_shown T form "inspectorName" "Inspector:" T ->
  field_shown T form "inspectorCredentials" "Credentials:"
    (wrapped_in env T (contentWidth - 40)) ->
  preserves I (clientDetails env form).
Proof.
  intros Htitle Hname Haddr Hdate Hinsp Hcred. unfold clientDetails.
  preserve.
  - apply preserves_addSectionHeader, Htitle.
  - apply preserves_labelled; apply Hname; assumption.
  - apply preserves_labelledLines; apply Haddr; assumption.
  - apply preserves_labelled; apply Hdate; assumption.
  - apply preserves_labelled; apply Hinsp; assumption.
  - apply preserves_labelledLines; apply Hcred; assumption.
Qed.

Lemma preserves_tableRow row index :
  T (fst row) -> T (snd row) -> preserves I (tableRow row index).
Proof. intros H1 H2. unfold tableRow. preserve; assumption. Qed.

Lemma preserves_inspectionDetails form :
  T "Inspection Details" ->
  Forall (fun row => T (fst row) /\ T (snd row)) (tableData form) ->
  preserves I (inspectionDetails form).
Proof.
  intros Htitle Hrows. unfold inspectionDetails. preserve.
  - apply preserves_addSectionHeader, Htitle.
  - unfold forEachIndexed. generalize 0%nat.
    induction Hrows as [| row rows [H1 H2] Hrows IH]; intros i st H.
    + exact H.
    + cbn [forEachFrom]. apply IH. apply preserves_tableRow; assumption.
Qed.

Lemma preserves_disclaimerLine line : T line -> preserves I (disclaimerLine line).
Proof. intros Hl. unfold disclaimerLine. preserve. exact Hl. Qed.

Lemma preserves_lines (body : string -> Stmt) ls :
  (forall l, T l -> preserves I (body l)) -> Forall T ls ->
  preserves I (forEach body ls).
Proof.
  intros Hbody Hls. induction Hls as [| l ls Hl Hls IH]; intros st H.
  - exact H.
  - rewrite forEach_cons. apply IH. apply Hbody; assumption.
Qed.

Lemma preserves_disclaimerSection form :
  T "General Disclaimer" ->
  (truthy (getFieldValue form "disclaimer") = true ->
   wrapped_in env T contentWidth (getFieldValue form "disclaimer")) ->
  preserves I (disclaimerSection env form).
Proof.
  intros Htitle Hlines. unfold disclaimerSection. preserve.
  - apply preserves_addSectionHeader, Htitle.
  - apply preserves_withLines. intros size b.
    apply preserves_lines; [apply preserves_disclaimerLine | apply Hlines; assumption].
Qed.

(** The defects section draws the types and descriptions the user
    entered: it keeps the invariants that put no condition on strings. *)
Section Defects.

Hypothesis all_T : forall s, T s.

Lemma preserves_printHeading heading : preserves I (printHeading heading).
Proof. unfold printHeading. preserve. apply all_T. Qed.

Lemma preserves_imageError : preserves I imageError.
Proof. unfold imageError. preserve. apply all_T. Qed.

Lemma preserves_descriptionLine line : preserves I (descriptionLine line).
Proof. unfold descriptionLine. preserve. apply all_T. Qed.

Lemma preserves_separator : preserves I separator.
Proof. unfold separator. preserve. Qed.

Lemma placeImage_keeps i defect w h st :
  I (doc st) -> I (doc (outcome_state (placeImage env i defect w h st))).
Proof.
  intros H. unfold placeImage.
  set (st1 := if (yPos st + h + 20 >? pageHeight - margin)%js then _ else st).
  assert (H1 : I (doc st1)).
  { subst st1. destruct (yPos st + h + 20 >? pageHeight - margin)%js; [| exact H].
    revert st H. change (preserves I
      (on_doc doc_addPage ;; setY margin ;;
       printHeading (defectHeading i defect " (continued)"))).
    preserve. apply preserves_printHeading. }
  destruct (addImage_ok env (imageData defect) margin (yPos st1) w h);
    cbn [outcome_state]; [| exact H1].
  refine (preserves_andThen _ _ _ _ _ st1 H1).
  - apply (preserves_emit T); [exact _ | reflexivity].
  - apply preserves_advance.
Qed.

Lemma preserves_imageAndDescription total defect i :
  preserves I (imageAndDescription env total defect i).
Proof.
  unfold imageAndDescription. preserve.
  - apply preserves_tryCatch; [| apply preserves_imageError].
    intros st H. apply placeImage_keeps, H.
  - apply preserves_withLines. intros size b.
    apply preserves_forEach, preserves_descriptionLine.
  - apply preserves_separator.
Qed.

Lemma preserves_renderDefect total defect i :
  preserves I (renderDefect env total defect i).
Proof.
  unfold renderDefect. preserve.
  - apply preserves_printHeading.
  - apply preserves_imageAndDescription.
Qed.

Lemma preserves_defectsSection defects :
  preserves I (defectsSection env defects).
Proof.
  unfold defectsSection. preserve.
  - apply preserves_addSectionHeader, all_T.
  - apply preserves_forEachFrom. intros x j. apply preserves_renderDefect.
Qed.

Lemma preserves_afterHeader form defects :
  preserves I (clientDetails env form ;; inspectionDetails form ;;
               disclaimerSection env form ;; defectsSection env defects).
Proof.
  preserve.
  - apply preserves_clientDetails; try apply all_T;
      intros _; (split; [apply all_T |]);
      try apply all_T; intros size b; apply Forall_forall; intros; apply all_T.
  - apply preserves_inspectionDetails; [apply all_T |].
    apply Forall_forall. intros; split; apply all_T.
  - apply preserves_disclaimerSection; [apply all_T |].
    intros _ size b. apply Forall_forall. intros; apply all_T.
  - apply preserves_defectsSection.
Qed.

Lemma preserves_compose form defects : preserves I (compose env form defects).
Proof.
  unfold compose. apply preserves_andThen; [| apply preserves_afterHeader].
  apply preserves_documentHeader; intros; apply all_T.
Qed.

End Defects.

End Blocks.

(** *** The invariants *)

Lemma alter_last {A} (f : A -> A) (l : list A) (x : A) :
  alter f (length l) (l ++ [x]) = l ++ [f x].
Proof.
  rewrite alter_app_r_alt by lia. rewrite Nat.sub_diag. reflexivity.
Qed.

(** Every operation draws strings of [T] only and tags images as JPEG. *)
#[export] Instance ops_ok_invariant T : PageInvariant T (ops_ok T).
Proof.
  split; [split |].
  - intros d d' Hp _ H. unfold ops_ok in *. rewrite Hp. exact H.
  - intros op d Hop H. unfold ops_ok, emit in *. cbn [pages with_pages].
    apply Forall_alter; [exact H |].
    intros p _ Hp. apply Forall_app_2; [exact Hp |]. constructor; [exact Hop | constructor].
  - intros d H. unfold ops_ok, doc_addPage in *. cbn [pages with_pages].
    apply Forall_app_2; [exact H |]. repeat constructor.
  - intros i d H. unfold doc_setPage.
    destruct (_ && _)%bool; exact H.
Qed.

(** The page count does not go below [n]. *)
#[export] Instance page_count_invariant n : PageInvariant any_text (at_least_pages n).
Proof.
  unfold at_least_pages. split; [split |].
  - intros d d' Hp _ H. rewrite Hp. exact H.
  - intros op d _ H. unfold emit. cbn [pages with_pages].
    rewrite length_alter. exact H.
  - intros d H. unfold doc_addPage. cbn [pages with_pages].
    rewrite length_app. lia.
  - intros i d H. unfold doc_setPage. destruct (_ && _)%bool; exact H.
Qed.

Lemma extends_refl d : extends d d.
Proof. intros i p H. exists []. rewrite app_nil_r. exact H. Qed.

(** Pages are append-only. *)
#[export] Instance extends_invariant d0 : PageInvariant any_text (extends d0).
Proof.
  split; [split |].
  - intros d d' Hp _ H i p Hi. rewrite Hp. apply H, Hi.
  - intros op d _ H i p Hi. destruct (H i p Hi) as [q Hq].
    unfold emit. cbn [pages with_pages].
    destruct (decide (cur d = i)) as [-> | Hne].
    + exists (q ++ [op]). rewrite list_lookup_alter_eq, Hq. cbn.
      rewrite app_assoc. reflexivity.
    + exists q. rewrite list_lookup_alter_ne by exact Hne. exact Hq.
  - intros d H i p Hi. destruct (H i p Hi) as [q Hq]. exists q.
    unfold doc_addPage. cbn [pages with_pages].
    rewrite lookup_app_l; [exact Hq |]. eapply lookup_lt_Some, Hq.
  - intros i d H. unfold doc_setPage. destruct (_ && _)%bool; exact H.
Qed.

(** The pages before the current one are never touched again. *)
#[export] Instance frozen_invariant n ps : DocInvariant any_text (frozen n ps).
Proof.
  split.
  - intros d d' Hp Hc H. unfold frozen in *. rewrite Hp, Hc. exact H.
  - intros op d _ (Hn & Hlt & Ht). unfold frozen, emit. cbn [pages cur with_pages].
    rewrite length_alter, take_alter_ge by exact Hn. auto.
  - intros d (Hn & Hlt & Ht). unfold frozen, doc_addPage. cbn [pages cur with_pages].
    rewrite length_app, take_app_le by lia. cbn [length]. repeat split; [lia | lia | exact Ht].
Qed.

(** While the report is composed, the current page is the last one. *)
#[export] Instance current_is_last_invariant : DocInvariant any_text current_is_last.
Proof.
  split.
  - intros d d' Hp Hc H. unfold current_is_last in *. rewrite Hp, Hc. exact H.
  - intros op d _ H. unfold current_is_last, emit in *. cbn [pages cur with_pages].
    rewrite length_alter. exact H.
  - intros d H. unfold current_is_last, doc_addPage. cbn [pages cur with_pages].
    rewrite length_app. cbn [length]. lia.
Qed.

Lemma any_text_all s : any_text s.
Proof. exact Logic.I. Qed.

(** *** The footer loop *)

Lemma preserves_footers T I `{!PageInvariant T I} env :
  (forall s, T s) -> preserves I (footers env).
Proof.
  intros all_T st H. unfold footers.
  apply preserves_forEach; [| exact H].
  intros i. unfold stampPage. preserve_with T; try apply all_T.
  - intros st' H'. rewrite doc_on_doc. apply inv_setPage, H'.
  - apply preserves_newDate. intros now. cbv zeta. preserve_with T. apply all_T.
Qed.

Lemma stampPage_pages env n done p todo st :
  pages (doc st) = done ++ p :: todo ->
  let st' := stampPage env n (S (length done)) st in
  pages (doc st') =
    (done ++ [p ++ footerStamps env n (S (length done)) (clockReads st)]) ++ todo
  /\ clockReads st' = S (clockReads st).
Proof.
  intros Hp. unfold stampPage, andThen, newDate, on_doc. cbn [doc clockReads].
  split; [| reflexivity].
  unfold doc_text, emit, doc_setPage. rewrite Hp, length_app. cbn [length].
  replace ((1 <=? S (length done))%nat && (S (length done) <=? length done + S (length todo))%nat)%bool
    with true
    by (symmetry; apply andb_true_intro; split; apply Nat.leb_le; lia).
  cbn. rewrite Nat.sub_0_r.
  rewrite alter_app_r_alt by lia. rewrite Nat.sub_diag. cbn.
  rewrite alter_app_r_alt by lia. rewrite Nat.sub_diag. cbn.
  rewrite <- !app_assoc. reflexivity.
Qed.

Lemma stamp_loop env n todo : forall done st,
  pages (doc st) = done ++ todo ->
  pages (doc (forEach (stampPage env n) (seq (S (length done)) (length todo)) st)) =
    done ++ imap (fun k p =>
      p ++ footerStamps env n (S (length done + k)) (clockReads st + k)) todo.
Proof.
  induction todo as [| p todo IH]; intros done st Hp.
  - cbn. exact Hp.
  - cbn [length seq]. rewrite forEach_cons.
    destruct (stampPage_pages env n done p todo st Hp) as [Hp' Hc].
    specialize (IH (done ++ [p ++ footerStamps env n (S (length done)) (clockReads st)])
                   (stampPage env n (S (length done)) st) Hp').
    rewrite length_app in IH. cbn [length] in IH.
    replace (length done + 1)%nat with (S (length done)) in IH by lia.
    rewrite IH, Hc, <- app_assoc. cbn [imap app]. f_equal.
    rewrite !Nat.add_0_r. f_equal.
    apply imap_ext. intros k q _. cbn.
    replace (length done + S k)%nat with (S (length done + k)) by lia.
    replace (clockReads st + S k)%nat with (S (clockReads st + k)) by lia.
    reflexivity.
Qed.

(** What the footer loop leaves on each page: the page as it was, then its
    number out of the total, then the time read for that page. *)
Lemma footers_pages env st :
  pages (doc (footers env st)) =
    imap (fun k p =>
      p ++ footerStamps env (length (pages (doc st))) (S k) (clockReads st + k))
      (pages (doc st)).
Proof.
  unfold footers, getNumberOfPages.
  exact (stamp_loop env (length (pages (doc st))) (pages (doc st)) [] st eq_refl).
Qed.

(** ** The cursor primitive *)



(** ** Rounding and image placement *)

Lemma pow2_pos e : 0 < pow2 e.
Proof. apply Qpower_0_lt. reflexivity. Qed.

Lemma pow2_add a b : pow2 (a + b) == pow2 a * pow2 b.
Proof. apply Qpower_plus. discriminate. Qed.

Lemma pow2_inv a : pow2 (- a) * pow2 a == 1.
Proof. rewrite <- pow2_add. replace (- a + a)%Z with 0%Z by lia. reflexivity. Qed.

Lemma pow2_le a b : (a <= b)%Z -> pow2 a <= pow2 b.
Proof. intros H. apply Qpower_le_compat_l; [exact H | discriminate]. Qed.

Lemma pow2_Z n : (0 <= n)%Z -> pow2 n == inject_Z (2 ^ n).
Proof. intros H. unfold pow2. rewrite Zpower_Qpower by exact H. reflexivity. Qed.

Lemma pow2_succ a : pow2 (a + 1) == 2 * pow2 a.
Proof. rewrite pow2_add. change (pow2 1) with 2. ring. Qed.

Lemma ilog2_spec q : 0 < q -> pow2 (ilog2 q) <= q /\ q < pow2 (ilog2 q + 1).
Proof.
  intros Hq. destruct q as [n d].
  assert (Hn : (0 < n)%Z) by (unfold Qlt in Hq; cbn in Hq; lia).
  unfold ilog2. cbn [Qnum Qden].
  set (ln := Z.log2 n). set (ld := Z.log2 (Z.pos d)).
  destruct (Z.log2_spec n Hn) as [Hn1 Hn2]. fold ln in Hn1, Hn2.
  destruct (Z.log2_spec (Z.pos d) eq_refl) as [Hd1 Hd2]. fold ld in Hd1, Hd2.
  assert (Hln : (0 <= ln)%Z) by apply Z.log2_nonneg.
  assert (Hld : (0 <= ld)%Z) by apply Z.log2_nonneg.
  assert (Q1 : pow2 ln <= inject_Z n).
  { rewrite pow2_Z by exact Hln. rewrite <- Zle_Qle. exact Hn1. }
  assert (Q2 : inject_Z n < pow2 (ln + 1)).
  { rewrite pow2_Z by lia. rewrite <- Zlt_Qlt. exact Hn2. }
  assert (Q3 : pow2 ld <= inject_Z (Z.pos d)).
  { rewrite pow2_Z by exact Hld. rewrite <- Zle_Qle. exact Hd1. }
  assert (Q4 : inject_Z (Z.pos d) < pow2 (ld + 1)).
  { rewrite pow2_Z by lia. rewrite <- Zlt_Qlt. exact Hd2. }
  assert (Hd : 0 < inject_Z (Z.pos d)) by reflexivity.
  assert (E : n # d == inject_Z n / inject_Z (Z.pos d)) by apply Qmake_Qdiv.
  pose proof (pow2_pos ld) as P1. pose proof (pow2_pos ln) as P2.
  pose proof (pow2_pos (ln - ld)) as P3.
  assert (Ek : pow2 ln == pow2 (ln - ld) * pow2 ld).
  { rewrite <- pow2_add. replace (ln - ld + ld)%Z with ln by lia. reflexivity. }
  destruct (Qle_bool (pow2 (ln - ld)) (n # d)) eqn:C.
  - apply Qle_bool_iff in C. split; [exact C |].
    rewrite E. apply Qlt_shift_div_r; [exact Hd |].
    rewrite pow2_succ. rewrite pow2_succ in Q2. nra.
  - assert (C' : n # d < pow2 (ln - ld)).
    { apply Qnot_le_lt. intros H. apply Qle_bool_iff in H. congruence. }
    replace (ln - ld - 1 + 1)%Z with (ln - ld)%Z by lia. split; [| exact C'].
    rewrite E. apply Qle_shift_div_l; [exact Hd |].
    assert (E1 : pow2 (ln - ld) == 2 * pow2 (ln - ld - 1)).
    { rewrite <- pow2_succ. replace (ln - ld - 1 + 1)%Z with (ln - ld)%Z by lia.
      reflexivity. }
    rewrite pow2_succ in Q4. pose proof (pow2_pos (ln - ld - 1)). nra.
Qed.

Lemma nearest_even_spec q :
  inject_Z (nearest_even q) - (1 # 2) <= q <= inject_Z (nearest_even q) + (1 # 2).
Proof.
  destruct q as [n d]. unfold nearest_even. cbn [Qnum Qden].
  pose proof (Z.div_mod n (Z.pos d) ltac:(discriminate)) as Hdm.
  pose proof (Z.mod_pos_bound n (Z.pos d) eq_refl) as Hr.
  set (f := (n / Z.pos d)%Z) in *. set (r := (n mod Z.pos d)%Z) in *.
  assert (Hcases : forall z : Z,
            (2 * z * Z.pos d - Z.pos d <= 2 * n <= 2 * z * Z.pos d + Z.pos d)%Z ->
            inject_Z z - (1 # 2) <= n # d <= inject_Z z + (1 # 2)).
  { intros z Hz. unfold Qle, Qplus, Qminus, Qopp, inject_Z. cbn. lia. }
  destruct (Z.compare_spec (2 * r) (Z.pos d)) as [H | H | H].
  - destruct (Z.even f); apply Hcases; lia.
  - apply Hcases; lia.
  - apply Hcases; lia.
Qed.

(** In the normal range one rounding moves a number by at most
    [unit_roundoff] of itself. *)
Lemma round_pos_error q :
  pow2 (-1022) <= q ->
  q * (1 - unit_roundoff) <= round_pos q <= q * (1 + unit_roundoff).
Proof.
  intros Hq. unfold unit_roundoff.
  assert (Hq0 : 0 < q) by (pose proof (pow2_pos (-1022)); lra).
  destruct (ilog2_spec q Hq0) as [Hl Hu].
  assert (He : (-1022 <= ilog2 q)%Z).
  { destruct (Z.lt_ge_cases (ilog2 q) (-1022)) as [H |]; [| assumption].
    assert (pow2 (ilog2 q + 1) <= pow2 (-1022)) by (apply pow2_le; lia). lra. }
  unfold round_pos. rewrite Z.max_l by lia. rewrite Qred_correct.
  set (e := (ilog2 q - 52)%Z).
  pose proof (nearest_even_spec (q * pow2 (- e))) as [H1 H2].
  set (m := inject_Z (nearest_even (q * pow2 (- e)))) in *.
  pose proof (pow2_pos e) as Pe. pose proof (pow2_inv e) as Pinv.
  assert (E52 : pow2 (ilog2 q) == pow2 52 * pow2 e).
  { rewrite <- pow2_add. replace (52 + e)%Z with (ilog2 q) by (unfold e; lia).
    reflexivity. }
  assert (E53 : pow2 (-53) * pow2 52 == 1 # 2) by reflexivity.
  pose proof (pow2_pos (-53)) as P53. pose proof (pow2_pos 52) as P52.
  assert (Hhalf : (1 # 2) * pow2 e <= q * pow2 (-53)).
  { rewrite <- E53. nra. }
  assert (Hq' : q == q * pow2 (- e) * pow2 e).
  { rewrite <- Qmult_assoc, Pinv. ring. }
  split.
  - assert ((q * pow2 (- e) - (1 # 2)) * pow2 e <= m * pow2 e) by nra. nra.
  - assert (m * pow2 e <= (q * pow2 (- e) + (1 # 2)) * pow2 e) by nra. nra.
Qed.

Lemma fl_error q :
  pow2 (-1022) <= q -> q <= pow2 1023 ->
  exists r, fl q = Num r /\
    q * (1 - unit_roundoff) <= r <= q * (1 + unit_roundoff).
Proof.
  intros Hlo Hhi.
  assert (Hq0 : 0 < q) by (pose proof (pow2_pos (-1022)); lra).
  destruct (round_pos_error q Hlo) as [H1 H2].
  unfold fl. rewrite (proj1 (Qgt_alt q 0) Hq0).
  destruct (Qle_bool (pow2 1024) (round_pos q)) eqn:C.
  - exfalso. apply Qle_bool_iff in C.
    assert (E : pow2 1024 == 2 * pow2 1023) by (rewrite <- pow2_succ; reflexivity).
    pose proof (pow2_pos 1023) as P.
    assert (U : unit_roundoff < 1) by reflexivity.
    assert (0 < unit_roundoff) by reflexivity. nra.
  - exists (round_pos q). split; [reflexivity | split; assumption].
Qed.

(** The same for the numbers of the image scaling, all between [2 ^ -40]
    and [2 ^ 40]. *)
Lemma fl_error_mid q :
  pow2 (-40) <= q -> q <= pow2 40 ->
  exists r, fl q = Num r /\
    q * (1 - unit_roundoff) <= r <= q * (1 + unit_roundoff).
Proof.
  intros Hlo Hhi. apply fl_error.
  - assert (pow2 (-1022) <= pow2 (-40)) by (apply pow2_le; lia). lra.
  - assert (pow2 40 <= pow2 1023) by (apply pow2_le; lia). lra.
Qed.

Lemma pixels_bounds (n : positive) :
  (Z.pos n < 2 ^ 32)%Z ->
  1 <= inject_Z (Z.pos n) /\ inject_Z (Z.pos n) <= pow2 32.
Proof.
  intros H. split.
  - change 1 with (inject_Z 1). rewrite <- Zle_Qle. lia.
  - rewrite pow2_Z by lia. rewrite <- Zle_Qle. lia.
Qed.

(** The scaled size of a decoded image: the two quotients, their minimum
    [r] and the two products, each rounding within [unit_roundoff]. *)
Lemma scaleImage_decoded (w h : positive) :
  (Z.pos w < 2 ^ 32)%Z -> (Z.pos h < 2 ^ 32)%Z ->
  let pw := inject_Z (Z.pos w) in
  let ph := inject_Z (Z.pos h) in
  let u := unit_roundoff in
  exists a b w' h',
    fl (170 / pw) = Num a /\ fl (80 / ph) = Num b /\
    fl (pw * Qmin a b) = Num w' /\ fl (ph * Qmin a b) = Num h' /\
    scaleImage (Num pw) (Num ph) (Num 170) (Num 80) = (Num w', Num h') /\
    170 / pw * (1 - u) <= a <= 170 / pw * (1 + u) /\
    80 / ph * (1 - u) <= b <= 80 / ph * (1 + u) /\
    pw * Qmin a b * (1 - u) <= w' <= pw * Qmin a b * (1 + u) /\
    ph * Qmin a b * (1 - u) <= h' <= ph * Qmin a b * (1 + u).
Proof.
  intros Hw Hh pw ph u.
  destruct (pixels_bounds w Hw) as [Hw1 Hw2]. fold pw in Hw1, Hw2.
  destruct (pixels_bounds h Hh) as [Hh1 Hh2]. fold ph in Hh1, Hh2.
  assert (P32 : pow2 32 == 4294967296) by reflexivity.
  assert (P40 : pow2 40 == 1099511627776) by reflexivity.
  assert (M40 : pow2 (-40) == 1 # 1099511627776) by reflexivity.
  assert (U : unit_roundoff == 1 # 9007199254740992) by reflexivity.
  assert (Nw : Qis_zero pw = false) by reflexivity.
  assert (Nh : Qis_zero ph = false) by reflexivity.
  subst u. clearbody pw ph.
  assert (Ew0 : pw * (170 / pw) == 170) by (field; lra).
  assert (Eh0 : ph * (80 / ph) == 80) by (field; lra).
  assert (Ha0 : (170 # 4294967296) <= 170 / pw <= 170).
  { split; [apply Qle_shift_div_l | apply Qle_shift_div_r]; lra. }
  assert (Hb0 : (80 # 4294967296) <= 80 / ph <= 80).
  { split; [apply Qle_shift_div_l | apply Qle_shift_div_r]; lra. }
  destruct (fl_error_mid (170 / pw)) as (a & Ea & Ha); [lra | lra |].
  destruct (fl_error_mid (80 / ph)) as (b & Eb & Hb); [lra | lra |].
  pose proof Ha as Ha'. pose proof Hb as Hb'. rewrite U in Ha', Hb'.
  pose proof (Q.le_min_l a b) as Hra. pose proof (Q.le_min_r a b) as Hrb.
  assert (Hr : (1 # 4294967296) <= Qmin a b) by (apply Q.min_glb; lra).
  assert (Hwr : pow2 (-40) <= pw * Qmin a b <= 171).
  { split.
    - assert (0 <= (pw - 1) * Qmin a b) by (apply Qmult_le_0_compat; lra). lra.
    - assert (pw * Qmin a b <= pw * a) by (apply Qmult_le_l; lra).
      assert (pw * a <= pw * (170 / pw * (1 + (1 # 9007199254740992))))
        by (apply Qmult_le_l; lra).
      lra. }
  assert (Hhr : pow2 (-40) <= ph * Qmin a b <= 81).
  { split.
    - assert (0 <= (ph - 1) * Qmin a b) by (apply Qmult_le_0_compat; lra). lra.
    - assert (ph * Qmin a b <= ph * b) by (apply Qmult_le_l; lra).
      assert (ph * b <= ph * (80 / ph * (1 + (1 # 9007199254740992))))
        by (apply Qmult_le_l; lra).
      lra. }
  destruct (fl_error_mid (pw * Qmin a b)) as (w' & Ew & Hw'); [lra | lra |].
  destruct (fl_error_mid (ph * Qmin a b)) as (h' & Eh & Hh'); [lra | lra |].
  exists a, b, w', h'. repeat split; try assumption; try tauto.
  unfold scaleImage, fdiv, fmul.
  cbn [JsNum.div]. rewrite Nw, Nh. cbn [rounded]. rewrite Ea, Eb.
  cbn [JsNum.min JsNum.mul rounded]. rewrite Ew, Eh. reflexivity.
Qed.

Lemma Qmin_cases (a b : Q) : Qmin a b == a \/ Qmin a b == b.
Proof.
  destruct (Q.min_spec a b) as [[_ H] | [_ H]]; [left | right]; exact H.
Qed.

Lemma pixels_below (n : positive) (k : Z) :
  inject_Z (Z.pos n) < inject_Z k -> inject_Z (Z.pos n) <= inject_Z (k - 1).
Proof. rewrite <- Zlt_Qlt, <- Zle_Qle. lia. Qed.

(** What the scaling guarantees for a decoded image, in the box of 170 by
    80: the ratio [r] is the smaller of the two quotients, within one
    rounding of [min (170 / w) (80 / h)]; the size is [w * r] by [h * r],
    each within one more rounding. *)
Lemma scaled_bounds (w h : positive) :
  (Z.pos w < 2 ^ 32)%Z -> (Z.pos h < 2 ^ 32)%Z ->
  let pw := inject_Z (Z.pos w) in
  let ph := inject_Z (Z.pos h) in
  let u := unit_roundoff in
  exists r w' h',
    JsNum.min (fdiv (Num 170) (Num pw)) (fdiv (Num 80) (Num ph)) = Num r /\
    fmul (Num pw) (Num r) = Num w' /\
    fmul (Num ph) (Num r) = Num h' /\
    scaleImage (Num pw) (Num ph) (Num 170) (Num 80) = (Num w', Num h') /\
    Qmin (170 / pw) (80 / ph) * (1 - u) <= r <= Qmin (170 / pw) (80 / ph) * (1 + u) /\
    pw * r * (1 - u) <= w' <= pw * r * (1 + u) /\
    ph * r * (1 - u) <= h' <= ph * r * (1 + u) /\
    0 < w' <= 170 * (1 + u) * (1 + u) /\
    0 < h' <= 80 * (1 + u) * (1 + u) /\
    (170 * (1 - u) * (1 - u) <= w' \/ 80 * (1 - u) * (1 - u) <= h') /\
    (1 - u) * (pw * h') <= (1 + u) * (ph * w') /\
    (1 - u) * (ph * w') <= (1 + u) * (pw * h') /\
    (pw < 170 -> ph < 80 -> 1 < r).
Proof.
  intros Hw Hh pw ph u.
  destruct (scaleImage_decoded w h Hw Hh)
    as (a & b & w' & h' & Ea & Eb & Ew & Eh & Es & Ha & Hb & Hw' & Hh').
  fold pw ph in Ea, Eb, Ew, Eh, Es, Ha, Hb, Hw', Hh'.
  destruct (pixels_bounds w Hw) as [Hw1 _]. fold pw in Hw1.
  destruct (pixels_bounds h Hh) as [Hh1 _]. fold ph in Hh1.
  pose proof (pixels_below w 170) as Iw. fold pw in Iw.
  pose proof (pixels_below h 80) as Ih. fold ph in Ih.
  change (inject_Z 170) with 170 in Iw. change (inject_Z (170 - 1)) with 169 in Iw.
  change (inject_Z 80) with 80 in Ih. change (inject_Z (80 - 1)) with 79 in Ih.
  assert (U : unit_roundoff == 1 # 9007199254740992) by reflexivity.
  assert (Nw : Qis_zero pw = false) by reflexivity.
  assert (Nh : Qis_zero ph = false) by reflexivity.
  exists (Qmin a b), w', h'.
  split. { unfold fdiv. cbn [JsNum.div]. rewrite Nw, Nh. cbn [rounded].
           rewrite Ea, Eb. reflexivity. }
  split. { unfold fmul. cbn [JsNum.mul rounded]. exact Ew. }
  split. { unfold fmul. cbn [JsNum.mul rounded]. exact Eh. }
  split; [exact Es |].
  subst u. clearbody pw ph.
  rewrite U in *.
  set (A := 170 / pw) in *. set (B := 80 / ph) in *.
  assert (EA : pw * A == 170) by (unfold A; field; lra).
  assert (EB : ph * B == 80) by (unfold B; field; lra).
  assert (HA : 0 < A) by (apply Qlt_shift_div_l; lra).
  assert (HB : 0 < B) by (apply Qlt_shift_div_l; lra).
  pose proof (Q.le_min_l a b) as Hra. pose proof (Q.le_min_r a b) as Hrb.
  pose proof (Q.le_min_l A B) as HmA. pose proof (Q.le_min_r A B) as HmB.
  assert (Hm0 : 0 < Qmin A B) by (apply Q.min_glb_lt; assumption).
  assert (Hr0 : 0 < Qmin a b) by (apply Q.min_glb_lt; lra).
  assert (Hwa : pw * Qmin a b <= pw * a) by (apply Qmult_le_l; lra).
  assert (Hhb : ph * Qmin a b <= ph * b) by (apply Qmult_le_l; lra).
  assert (Hwr0 : 0 < pw * Qmin a b) by (apply Qmult_lt_0_compat; lra).
  assert (Hhr0 : 0 < ph * Qmin a b) by (apply Qmult_lt_0_compat; lra).
  assert (Hpa : pw * a <= pw * (A * (1 + (1 # 9007199254740992))))
    by (apply Qmult_le_l; lra).
  assert (Hpb : ph * b <= ph * (B * (1 + (1 # 9007199254740992))))
    by (apply Qmult_le_l; lra).
  assert (Hpa' : pw * (A * (1 - (1 # 9007199254740992))) <= pw * a)
    by (apply Qmult_le_l; lra).
  assert (Hpb' : ph * (B * (1 - (1 # 9007199254740992))) <= ph * b)
    by (apply Qmult_le_l; lra).
  split.
  { split.
    - apply Q.min_glb; lra.
    - destruct (Qmin_cases A B) as [E | E]; rewrite E; lra. }
  split; [exact Hw' |]. split; [exact Hh' |].
  split; [split; lra |]. split; [split; lra |].
  split.
  { destruct (Qmin_cases a b) as [E | E].
    - left. assert (E' : pw * Qmin a b == pw * a) by (rewrite E; reflexivity). lra.
    - right. assert (E' : ph * Qmin a b == ph * b) by (rewrite E; reflexivity). lra. }
  assert (I1 : pw * h' <= pw * (ph * Qmin a b * (1 + (1 # 9007199254740992))))
    by (apply Qmult_le_l; lra).
  assert (I2 : pw * (ph * Qmin a b * (1 - (1 # 9007199254740992))) <= pw * h')
    by (apply Qmult_le_l; lra).
  assert (I3 : ph * w' <= ph * (pw * Qmin a b * (1 + (1 # 9007199254740992))))
    by (apply Qmult_le_l; lra).
  assert (I4 : ph * (pw * Qmin a b * (1 - (1 # 9007199254740992))) <= ph * w')
    by (apply Qmult_le_l; lra).
  split; [lra |]. split; [lra |].
  intros Lw Lh. specialize (Iw Lw). specialize (Ih Lh).
  assert ((170 # 169) <= A) by (apply Qle_shift_div_l; lra).
  assert ((80 # 79) <= B) by (apply Qle_shift_div_l; lra).
  apply Q.min_glb_lt; lra.
Qed.

(** The rounding of the model is the rounding of the machine where the
    cases of [fl] part: a quotient that does not end, a tie (to the even
    significand), a gradual underflow, an underflow to zero, an overflow,
    and the division by zero. *)
Lemma rounding_as_on_the_machine :
  fdiv (Num 1) (Num 3) =
    Binary64.to_jsnum (PrimFloat.div (Binary64.of_pixels 1) (Binary64.of_pixels 3)) /\
  fmul (Num 67108865) (Num 134217729) =
    Binary64.to_jsnum (PrimFloat.mul (Binary64.of_pixels 67108865)
                                     (Binary64.of_pixels 134217729)) /\
  fdiv (scaled_by 1 (-1070)) (Num 3) =
    Binary64.to_jsnum (PrimFloat.div (Binary64.of_scaled 1 (-1070))
                                     (Binary64.of_pixels 3)) /\
  fmul (scaled_by 1 (-600)) (scaled_by 1 (-600)) =
    Binary64.to_jsnum (PrimFloat.mul (Binary64.of_scaled 1 (-600))
                                     (Binary64.of_scaled 1 (-600))) /\
  fmul (scaled_by 3 1000) (scaled_by 5 23) =
    Binary64.to_jsnum (PrimFloat.mul (Binary64.of_scaled 3 1000)
                                     (Binary64.of_scaled 5 23)) /\
  fmul (scaled_by 3 1000) (scaled_by 5 23) = PInf /\
  fdiv (Num 170) (Num 0) = PInf /\
  fmul (Num 0) PInf = NaN.
Proof. repeat split; vm_compute; reflexivity. Qed.

(** On the sample sizes the scaling of the model is the scaling of the
    machine, to the last bit. *)
Lemma scaleImage_as_on_the_machine :
  Forall (fun '(w, h) =>
            scaleImage (Num (inject_Z (Z.pos w))) (Num (inject_Z (Z.pos h)))
                       maxImgWidth maxImgHeight = Binary64.scaled w h)
         sampleSizes.
Proof. repeat constructor. Qed.

(** C6. The image of a defect, decoded with intrinsic size [w] by [h]
    (pixel counts, below 2^32), is placed with the size [w * r] by [h * r],
    where [r] is the smaller of [170 / w] and [80 / h], every quotient and
    product rounded to a double.  So [r] is within one rounding of
    [min (170 / w) (80 / h)]; the size fits the box of 170 by 80 and keeps
    the aspect ratio up to two roundings ([u] is [2 ^ -53]); and an image
    smaller than the box both ways is enlarged ([r > 1]). *)
Theorem placed_size_fits_box_up_to_rounding env (i : nat) (defect : Defect)
    (st : Run) (w h : positive) :
  probe env (imageData defect) = Some (w, h) ->
  (Z.pos w < 2 ^ 32)%Z -> (Z.pos h < 2 ^ 32)%Z ->
  let pw := inject_Z (Z.pos w) in
  let ph := inject_Z (Z.pos h) in
  let u := unit_roundoff in
  exists r w' h',
    JsNum.min (fdiv maxImgWidth (Num pw)) (fdiv maxImgHeight (Num ph)) = Num r /\
    fmul (Num pw) (Num r) = Num w' /\
    fmul (Num ph) (Num r) = Num h' /\
    tryImage env i defect st = placeImage env i defect (Num w') (Num h') st /\
    Qmin (170 / pw) (80 / ph) * (1 - u) <= r <= Qmin (170 / pw) (80 / ph) * (1 + u) /\
    0 < w' <= 170 * (1 + u) * (1 + u) /\
    0 < h' <= 80 * (1 + u) * (1 + u) /\
    (1 - u) * (pw * h') <= (1 + u) * (ph * w') /\
    (1 - u) * (ph * w') <= (1 + u) * (pw * h') /\
    (pw < 170 -> ph < 80 -> 1 < r).
Proof.
  intros Hprobe Hw Hh pw ph u. subst pw ph u.
  destruct (scaled_bounds w h Hw Hh)
    as (r & w' & h' & Er & Ew & Eh & Es & Hr & _ & _ & Hw' & Hh' & _ & A1 & A2 & Up).
  exists r, w', h'.
  split; [exact Er |]. split; [exact Ew |]. split; [exact Eh |].
  split.
  { unfold tryImage, loadedSize. rewrite Hprobe. cbn [fst snd].
    change maxImgWidth with (Num 170). change maxImgHeight with (Num 80).
    rewrite Es. reflexivity. }
  split; [exact Hr |]. split; [exact Hw' |]. split; [exact Hh' |].
  split; [exact A1 |]. split; [exact A2 | exact Up].
Qed.

Lemma placed_size_fits_box_up_to_rounding_witness :
  probe plainEnv (imageData pngDefect) = Some (400, 300)%positive /\
  exists r w' h',
    tryImage plainEnv 0 pngDefect (runAt 100) =
      placeImage plainEnv 0 pngDefect (Num w') (Num h') (runAt 100) /\
    Qmin (170 / 400) (80 / 300) * (1 - unit_roundoff) <= r /\
    0 < w' <= 170 * (1 + unit_roundoff) * (1 + unit_roundoff) /\
    0 < h' <= 80 * (1 + unit_roundoff) * (1 + unit_roundoff).
Proof.
  split; [reflexivity |].
  destruct (placed_size_fits_box_up_to_rounding plainEnv 0 pngDefect (runAt 100)
              400 300 eq_refl eq_refl eq_refl)
    as (r & w' & h' & _ & _ & _ & Et & Hr & Hw & Hh & _).
  exists r, w', h'.
  split; [exact Et |]. split; [exact (proj1 Hr) |]. split; [exact Hw | exact Hh].
Defined.

(** C6 as stated fails.  An image of 392 by 294 pixels is placed
    80.00000000000001 high, above the 80 of the box: the quotient
    [80 / 294] is rounded down, the product [294 * r] is rounded up, and
    the result is one step above 80, not [h * min (W / w) (H / h)]. *)
Lemma image_of_392_by_294_is_placed_higher_than_the_box :
  probe photoEnv (imageData pngDefect) = Some (392, 294)%positive /\
  (exists st',
     tryImage photoEnv 0 pngDefect (runAt 100) = Done st' /\
     pages (doc st') =
       [[Image (imageData pngDefect) "JPEG" margin (Num 100)
               (Num (7505999378950827 # 70368744177664))
               (Num (5629499534213121 # 70368744177664))]]) /\
  80 < 5629499534213121 # 70368744177664 /\
  ~ (5629499534213121 # 70368744177664) == 294 * Qmin (170 / 392) (80 / 294).
Proof.
  split; [reflexivity |]. split.
  - eexists. split; vm_compute; reflexivity.
  - split; [reflexivity |]. intros H. vm_compute in H. discriminate.
Qed.



(** ** Text flow *)

Lemma page_texts_app p q : page_texts (p ++ q) = page_texts p ++ page_texts q.
Proof. unfold page_texts. rewrite fmap_app, concat_app. reflexivity. Qed.

Lemma all_texts_emit op d :
  current_is_last d -> all_texts (emit op d) = all_texts d ++ op_texts op.
Proof.
  unfold current_is_last, all_texts, emit. cbn [pages with_pages].
  generalize (pages d) (cur d). intros ps c.
  induction ps as [| p l _] using rev_ind; [cbn; lia |].
  rewrite length_app. cbn [length]. intros Hc.
  assert (Hcur : c = length l) by lia.
  rewrite Hcur, alter_last, !fmap_app, !concat_app. cbn [fmap list_fmap concat].
  rewrite page_texts_app, !app_nil_r, <- app_assoc. f_equal. f_equal.
  unfold page_texts. cbn. apply app_nil_r.
Qed.

Lemma all_texts_addPage d : all_texts (doc_addPage d) = all_texts d.
Proof.
  unfold all_texts, doc_addPage. cbn [pages with_pages].
  rewrite fmap_app, concat_app. cbn. apply app_nil_r.
Qed.

Lemma checkNewPage_texts r st :
  current_is_last (doc st) ->
  current_is_last (doc (checkNewPage_ r st)) /\
  all_texts (doc (checkNewPage_ r st)) = all_texts (doc st).
Proof.
  intros H. unfold checkNewPage_, checkNewPage.
  destruct (yPos st + r >? pageHeight - margin)%js; cbn [snd].
  - split; [apply (inv_addPage (T := any_text)), H | apply all_texts_addPage].
  - split; [exact H | reflexivity].
Qed.

Lemma text_line_texts line x c dy st :
  current_is_last (doc st) ->
  let st' := (at_y (fun y => on_doc (doc_text line x y c)) ;; advance dy) st in
  current_is_last (doc st') /\ all_texts (doc st') = all_texts (doc st) ++ [line].
Proof.
  intros H. cbv zeta. unfold andThen, at_y. rewrite doc_advance, doc_on_doc. split.
  - apply (inv_emit (T := any_text)); [exact Logic.I | exact H].
  - unfold doc_text. rewrite all_texts_emit by exact H. reflexivity.
Qed.

Lemma addText_loop_texts lineHeight lines : forall st,
  current_is_last (doc st) ->
  let st' := forEach (fun line =>
      checkNewPage_ (lineHeight + 2) ;;
      at_y (fun y => on_doc (doc_text line margin y false)) ;;
      advance lineHeight) lines st in
  current_is_last (doc st') /\ all_texts (doc st') = all_texts (doc st) ++ lines.
Proof.
  induction lines as [| line lines IH]; intros st H; cbv zeta.
  - cbn. rewrite app_nil_r. split; [exact H | reflexivity].
  - rewrite forEach_cons.
    destruct (checkNewPage_texts (lineHeight + 2) st H) as [H1 E1].
    destruct (text_line_texts line margin false lineHeight _ H1) as [H2 E2].
    destruct (IH _ H2) as [H3 E3]. split; [exact H3 |].
    unfold andThen in *. rewrite E3, E2, E1, <- app_assoc. reflexivity.
Qed.

Lemma unbounded_loop_texts lineHeight lines : forall st,
  current_is_last (doc st) ->
  let st' := forEach (fun line =>
      at_y (fun y => on_doc (doc_text line margin y false)) ;;
      advance lineHeight) lines st in
  current_is_last (doc st') /\ all_texts (doc st') = all_texts (doc st) ++ lines.
Proof.
  induction lines as [| line lines IH]; intros st H; cbv zeta.
  - cbn. rewrite app_nil_r. split; [exact H | reflexivity].
  - rewrite forEach_cons.
    destruct (text_line_texts line margin false lineHeight _ H) as [H2 E2].
    destruct (IH _ H2) as [H3 E3]. split; [exact H3 |].
    rewrite E3, E2, <- app_assoc. reflexivity.
Qed.

(** C9. The lines [addText] writes do not depend on pagination: read page
    after page, they are the lines of one wrap of the text to the content
    width, which are also the lines written when the page is unbounded; a
    page break drops, repeats or re-wraps none of them. *)
Theorem addText_lines_independent_of_pagination env text size isBold st :
  current_is_last (doc st) ->
  let lines := splitTextToSize env size isBold text contentWidth in
  all_texts (doc (addText env text size isBold st)) = all_texts (doc st) ++ lines /\
  all_texts (doc (addText_unbounded env text size isBold st)) =
    all_texts (doc st) ++ lines.
Proof.
  intros H lines. split.
  - unfold addText, andThen, withLines. cbn [doc on_doc fontSize bold doc_setFont doc_setFontSize].
    rewrite doc_advance.
    set (st0 := on_doc (doc_setFont isBold) (on_doc (doc_setFontSize size) st)).
    assert (H0 : current_is_last (doc st0)) by exact H.
    destruct (addText_loop_texts (size * Num 0.5)%js lines st0 H0) as [_ E].
    exact E.
  - unfold addText_unbounded, andThen, withLines.
    cbn [doc on_doc fontSize bold doc_setFont doc_setFontSize].
    rewrite doc_advance.
    set (st0 := on_doc (doc_setFont isBold) (on_doc (doc_setFontSize size) st)).
    assert (H0 : current_is_last (doc st0)) by exact H.
    destruct (unbounded_loop_texts (size * Num 0.5)%js lines st0 H0) as [_ E].
    exact E.
Qed.

Lemma addText_lines_independent_of_pagination_witness :
  let text := "first" +:+ String "010" "second" +:+ String "010" "third" in
  all_texts (doc (addText plainEnv text (Num 10) false (runAt 270))) =
    ["first"; "second"; "third"] /\
  all_texts (doc (addText_unbounded plainEnv text (Num 10) false (runAt 270))) =
    ["first"; "second"; "third"] /\
  length (pages (doc (addText plainEnv text (Num 10) false (runAt 270)))) = 2%nat.
Proof.
  cbv zeta.
  destruct (addText_lines_independent_of_pagination plainEnv
              ("first" +:+ String "010" "second" +:+ String "010" "third")
              (Num 10) false (runAt 270) eq_refl) as [Hpaged Hunbounded].
  split; [exact Hpaged | split; [exact Hunbounded | reflexivity]].
Defined.

(** ** The defects section *)

Lemma defectsSection_opening env defect defects st :
  let total := S (length defects) in
  let st2 := (on_doc doc_addPage ;; setY margin ;;
              addSectionHeader (defectsTitle total) ;;
              checkNewPage_ 100 ;;
              printHeading (defectHeading 0 defect "")) st in
  defectsSection env (defect :: defects) st =
    forEachFrom (renderDefect env total) 1 defects
      (imageAndDescription env total defect 0 st2) /\
  pages (doc st2) = pages (doc st) ++ [defectsOpening total defect] /\
  cur (doc st2) = length (pages (doc st)).
Proof.
  cbv zeta. split.
  { unfold defectsSection, forEachIndexed.
    cbn [length Nat.ltb Nat.leb when forEachFrom].
    unfold renderDefect, andThen. reflexivity. }
  destruct st as [[ps c fs b tc fc dc lw] y k].
  cbv -[alter list_alter length app defectsTitle defectHeading contentWidth
        defectsOpening].
  rewrite !alter_last. split; reflexivity.
Qed.

(** C7. With at least one defect, the defects section starts by adding a
    page, whatever room is left: the pages there were stay as they are,
    and the banner, the title and the heading of the first defect open the
    new page that follows them.  Without defects the section does
    nothing. *)
Theorem defects_start_on_fresh_page env defect defects st :
  let n := length (pages (doc st)) in
  let st' := defectsSection env (defect :: defects) st in
  take n (pages (doc st')) = pages (doc st) /\
  (n < length (pages (doc st')))%nat /\
  (exists rest,
     pages (doc st') !! n =
       Some (defectsOpening (S (length defects)) defect ++ rest)) /\
  defectsSection env [] st = st.
Proof.
  cbv zeta.
  destruct (defectsSection_opening env defect defects st) as (Hrun & Hp & Hc).
  cbv zeta in Hrun, Hp, Hc. rewrite Hrun.
  set (total := S (length defects)) in *.
  set (st2 := (on_doc doc_addPage ;; setY margin ;;
               addSectionHeader (defectsTitle total) ;;
               checkNewPage_ 100 ;;
               printHeading (defectHeading 0 defect "")) st) in *.
  assert (Hrest : forall I, DocInvariant any_text I ->
            I (doc st2) ->
            I (doc (forEachFrom (renderDefect env total) 1 defects
                      (imageAndDescription env total defect 0 st2)))).
  { intros I HI H2.
    apply (preserves_forEachFrom I).
    - intros x j. apply (preserves_renderDefect any_text I env any_text_all).
    - apply (preserves_imageAndDescription any_text I env any_text_all), H2. }
  assert (Hfrozen : frozen (length (pages (doc st))) (pages (doc st)) (doc st2)).
  { unfold frozen. rewrite Hp, Hc, length_app, take_app_length. cbn [length].
    repeat split; lia. }
  apply (Hrest _ (frozen_invariant _ _)) in Hfrozen.
  destruct Hfrozen as (Hn & Hlt & Htake).
  split; [exact Htake |]. split; [lia |]. split; [| reflexivity].
  assert (Hext : extends (doc st2) (doc st2)) by apply extends_refl.
  apply (Hrest _ page_inv) in Hext.
  apply Hext. rewrite Hp. rewrite lookup_app_r by lia.
  rewrite Nat.sub_diag. reflexivity.
Qed.

(** ** The whole run *)

Lemma ops_ok_newDoc T : ops_ok T newDoc.
Proof. unfold ops_ok. cbn. repeat constructor. Qed.

(** Every image of the finished document is tagged JPEG. *)
Lemma generate_ops_ok env form defects :
  ops_ok any_text (fst (generate env form defects)).
Proof.
  unfold generate. cbn [fst]. unfold andThen.
  apply (preserves_footers any_text _ env any_text_all).
  apply (preserves_compose any_text _ env any_text_all).
  apply ops_ok_newDoc.
Qed.

(** Throughout the composition the current page is the last one. *)
Lemma compose_current_is_last env form defects :
  current_is_last (doc (compose env form defects startRun)).
Proof.
  apply (preserves_compose any_text _ env any_text_all). reflexivity.
Qed.

(** C10. An image is always embedded under the format tag 'JPEG', whatever
    the payload is (the form accepts JPEG and PNG files): every image of
    the finished document carries that tag, and when [addImage] accepts
    the payload of a decoded image, the [try] block ends with that image,
    tagged 'JPEG', as the last operation of the current page. *)
Theorem every_image_tagged_JPEG env form defects :
  (forall p data format x y w h,
     p ∈ pages (fst (generate env form defects)) ->
     Image data format x y w h ∈ p ->
     format = "JPEG") /\
  (forall i defect st size,
     probe env (imageData defect) = Some size ->
     (cur (doc st) < length (pages (doc st)))%nat ->
     (forall x y w h, addImage_ok env (imageData defect) x y w h = true) ->
     exists st' p y w h,
       tryImage env i defect st = Done st' /\
       pages (doc st') !! cur (doc st') = Some p /\
       last p = Some (Image (imageData defect) "JPEG" margin y w h)).
Proof.
  split.
  - intros p data format x y w h Hp Hop.
    pose proof (generate_ops_ok env form defects) as Hok. unfold ops_ok in Hok.
    rewrite Forall_forall in Hok. specialize (Hok p Hp).
    rewrite Forall_forall in Hok. exact (Hok _ Hop).
  - intros i defect st size _ Hcur Hok. unfold tryImage.
    set (w := fst (scaleImage _ _ _ _)). set (h := snd (scaleImage _ _ _ _)).
    unfold placeImage. rewrite Hok.
    set (st1 := if (yPos st + h + 20 >? pageHeight - margin)%js then _ else st).
    assert (H1 : (cur (doc st1) < length (pages (doc st1)))%nat).
    { assert (H0 : frozen 0 [] (doc st)) by (repeat split; [lia | exact Hcur]).
      assert (H1 : frozen 0 [] (doc st1)); [| apply H1].
      subst st1. destruct (yPos st + h + 20 >? pageHeight - margin)%js; [| exact H0].
      apply (fun H : preserves (frozen 0 [])
                       (on_doc doc_addPage ;; setY margin ;;
                        printHeading (defectHeading i defect " (continued)")) =>
               H st H0).
      preserve_with any_text.
      apply (preserves_printHeading any_text _ any_text_all). }
    destruct (lookup_lt_is_Some_2 _ _ H1) as [p Hp].
    exists ((on_doc (emit (Image (imageData defect) "JPEG" margin (yPos st1) w h)) ;;
             advance (h + 5)) st1),
           (p ++ [Image (imageData defect) "JPEG" margin (yPos st1) w h]),
           (yPos st1), w, h.
    split; [reflexivity |]. split.
    + unfold andThen. rewrite doc_advance, doc_on_doc. unfold emit.
      cbn [pages cur with_pages]. rewrite list_lookup_alter_eq, Hp. reflexivity.
    + apply last_snoc.
Qed.

Lemma every_image_tagged_JPEG_witness :
  exists p y w h,
    pages (fst (generate plainEnv ∅ [pngDefect])) !! 1%nat = Some p /\
    p !! 3%nat = Some (Image "data:image/png;base64,iVBORw0KGgo=" "JPEG" margin y w h) /\
    "JPEG" = "JPEG".
Proof.
  eexists _, _, _, _. split; [vm_compute; reflexivity |]. split; [reflexivity |].
  refine (proj1 (every_image_tagged_JPEG plainEnv ∅ [pngDefect]) _ _ _ _ _ _ _ _ _).
  - apply (list_elem_of_lookup_2 _ 1%nat). vm_compute. reflexivity.
  - apply (list_elem_of_lookup_2 _ 3%nat). reflexivity.
Defined.

(** The finished document is the composed one with a page number and a
    timestamp added at the end of every page; the timestamp of the page at
    position [k] is the [k]-th reading of the clock. *)
Lemma generate_footers env form defects :
  let composed := compose env form defects startRun in
  pages (fst (generate env form defects)) =
    imap (fun k p =>
      p ++ footerStamps env (length (pages (doc composed))) (S k)
             (clockReads composed + k))
      (pages (doc composed)).
Proof. cbv zeta. unfold generate. cbn [fst]. apply footers_pages. Qed.

(** C1. The footer loop reads the clock anew for every page.  On a
    two-page report, with a clock that moves on by one second between two
    readings, the timestamp lines of the two pages differ: the timestamp is
    not one string captured once for the whole report. *)
Theorem footer_timestamp_read_per_page :
  lastLine <$> pages (fst (generate tickingEnv ∅ [pngDefect])) =
    [ Some "Report generated: 3/15/2024, 9:30:00 AM";
      Some "Report generated: 3/15/2024, 9:30:01 AM" ].
Proof. vm_compute. reflexivity. Qed.

(** ** A payload that cannot be decoded *)

Lemma add_NaN_l (a : jsnum) : (NaN + a)%js = NaN.
Proof. destruct a; reflexivity. Qed.

Lemma add_NaN_r (a : jsnum) : (a + NaN)%js = NaN.
Proof. destruct a; reflexivity. Qed.

(** After [onerror] the size is 0 by 0, the ratio is infinite and the
    scaled size is not a number. *)
Lemma scaleImage_undecoded :
  scaleImage (Num 0) (Num 0) maxImgWidth maxImgHeight = (NaN, NaN).
Proof. reflexivity. Qed.

(** When the payload cannot be decoded and [addImage] throws on it, the
    [catch] block runs in the state the defect heading left: the notice is
    drawn at the cursor in the error colour and the cursor moves down by
    8. *)
Lemma notice_when_addImage_throws env i defect st :
  probe env (imageData defect) = None ->
  (forall x y w h, addImage_ok env (imageData defect) x y w h = false) ->
  let st' := tryCatch (tryImage env i defect) imageError st in
  st' = imageError st /\
  doc st' = doc_setTextColor (0, 0, 0)%nat
              (emit (Text "[Image could not be loaded]" margin (yPos st) false
                          (Num 10) (bold (doc st)) (150, 0, 0)%nat)
                    (doc_setTextColor (150, 0, 0)%nat
                       (doc_setFontSize 10 (doc st)))) /\
  yPos st' = (yPos st + 8)%js.
Proof.
  intros Hprobe Hthrow. cbv zeta.
  assert (E : tryCatch (tryImage env i defect) imageError st = imageError st).
  { unfold tryCatch, tryImage, loadedSize. rewrite Hprobe. cbn [fst snd].
    rewrite scaleImage_undecoded. cbn [fst snd]. unfold placeImage.
    rewrite add_NaN_r, add_NaN_l. cbn [JsNum.gt]. rewrite Hthrow. reflexivity. }
  rewrite E. repeat split; reflexivity.
Qed.

(** *** Calls that jsPDF refuses *)

Lemma isNaN_add (a : jsnum) (q : Q) : isNaN (a + Num q)%js = isNaN a.
Proof. destruct a; reflexivity. Qed.

Lemma checkNewPage_NaN r st : yPos st = NaN -> checkNewPage_ r st = st.
Proof.
  intros Hy. unfold checkNewPage_, checkNewPage. rewrite Hy, add_NaN_l. reflexivity.
Qed.

(** A refused call stays in the record: pages are append-only. *)
Lemma has_refused_extends d0 d : extends d0 d -> has_refused d0 -> has_refused d.
Proof.
  unfold has_refused, calls. intros Hext H.
  apply existsb_exists in H. destruct H as (op & Hin & Hop).
  apply in_concat in Hin. destruct Hin as (p & Hp & Hin).
  apply list_elem_of_In, list_elem_of_lookup in Hp. destruct Hp as [i Hi].
  destruct (Hext i p Hi) as [q Hq].
  apply existsb_exists. exists op. split; [| exact Hop].
  apply in_concat. exists (p ++ q). split.
  - apply list_elem_of_In. eapply list_elem_of_lookup_2, Hq.
  - apply in_or_app. left. exact Hin.
Qed.

Lemma has_refused_after (s : Stmt) st :
  (forall d0, preserves (extends d0) s) ->
  has_refused (doc st) -> has_refused (doc (s st)).
Proof.
  intros Hs H. apply (has_refused_extends (doc st)); [| exact H].
  apply Hs, extends_refl.
Qed.

Lemma has_refused_emit op d :
  (cur d < length (pages d))%nat -> refused op = true -> has_refused (emit op d).
Proof.
  intros Hcur Hop. unfold has_refused, calls, emit. cbn [pages with_pages].
  destruct (lookup_lt_is_Some_2 _ _ Hcur) as [p Hp].
  apply existsb_exists. exists op. split; [| exact Hop].
  apply in_concat. exists (p ++ [op]). split.
  - apply list_elem_of_In. apply (list_elem_of_lookup_2 _ (cur d)).
    rewrite list_lookup_alter_eq, Hp. reflexivity.
  - apply in_or_app. right. left. reflexivity.
Qed.

Lemma has_refused_state d d' : pages d' = pages d -> has_refused d -> has_refused d'.
Proof. unfold has_refused, calls. intros ->. exact (fun H => H). Qed.

(** A text drawn at the cursor when the cursor is not a number. *)
Lemma text_at_lost_cursor s st :
  current_is_last (doc st) -> isNaN (yPos st) = true ->
  has_refused (doc (at_y (fun y => on_doc (doc_text s margin y false)) st)).
Proof.
  intros Hcur Hy. unfold at_y, on_doc, doc_text. cbn [doc].
  apply has_refused_emit.
  - unfold current_is_last in Hcur. lia.
  - cbn [refused]. rewrite Hy. reflexivity.
Qed.

(** The heading of a defect, when the cursor is not a number. *)
Lemma heading_at_lost_cursor env total defect i st :
  current_is_last (doc st) -> isNaN (yPos st) = true ->
  has_refused (doc (renderDefect env total defect i st)).
Proof.
  intros Hcur Hy.
  assert (E : checkNewPage_ 100 st = st).
  { apply checkNewPage_NaN. destruct (yPos st); try discriminate. reflexivity. }
  unfold renderDefect, andThen. rewrite E.
  apply has_refused_after.
  { intros d0. apply (preserves_imageAndDescription any_text _ env any_text_all). }
  unfold printHeading, andThen.
  apply has_refused_after; [intros d0; preserve_with any_text |].
  apply has_refused_after; [intros d0; preserve_with any_text |].
  apply text_at_lost_cursor.
  - exact Hcur.
  - exact Hy.
Qed.

(** A defect whose picture the browser cannot decode and jsPDF embeds: the
    size is not a number, no page-fit test sees it, the image is embedded,
    the cursor is not a number any more, and the first line of the
    description is a call jsPDF refuses. *)
Lemma undecoded_image_loses_cursor env i defect st :
  probe env (imageData defect) = None ->
  isNaN (yPos st) = false ->
  addImage_ok env (imageData defect) margin (yPos st) NaN NaN = true ->
  tryCatch (tryImage env i defect) imageError st =
    (on_doc (emit (Image (imageData defect) "JPEG" margin (yPos st) NaN NaN)) ;;
     advance (NaN + 5)) st.
Proof.
  intros Hprobe Hy Hok. unfold tryCatch, tryImage, loadedSize. rewrite Hprobe.
  cbn [fst snd]. rewrite scaleImage_undecoded. cbn [fst snd]. unfold placeImage.
  rewrite add_NaN_r, add_NaN_l. cbn [JsNum.gt]. rewrite Hok. reflexivity.
Qed.

Lemma undecoded_defect_refused env total defect i st :
  probe env (imageData defect) = None ->
  (forall y, isNaN y = false ->
     addImage_ok env (imageData defect) margin y NaN NaN = true) ->
  splitTextToSize env 10 false (description defect) contentWidth <> [] ->
  current_is_last (doc st) ->
  has_refused (doc (renderDefect env total defect i st)).
Proof.
  intros Hprobe Hok Hlines Hcur.
  destruct (isNaN (yPos st)) eqn:Hy.
  { apply heading_at_lost_cursor; assumption. }
  unfold renderDefect, andThen.
  set (st1 := printHeading (defectHeading i defect "") (checkNewPage_ 100 st)).
  assert (Hcur1 : current_is_last (doc st1)).
  { apply (fun H : preserves current_is_last
                     (checkNewPage_ 100 ;; printHeading (defectHeading i defect "")) =>
             H st Hcur).
    preserve_with any_text. apply (preserves_printHeading any_text _ any_text_all). }
  assert (Hy1 : isNaN (yPos st1) = false).
  { subst st1. unfold printHeading, andThen, advance, setY, at_y, on_doc. cbn [yPos].
    change (Num 8 : jsnum) with (Num 8). rewrite isNaN_add.
    unfold checkNewPage_, checkNewPage.
    destruct (yPos st + 100 >? pageHeight - margin)%js; [reflexivity | exact Hy]. }
  unfold imageAndDescription, andThen.
  rewrite (undecoded_image_loses_cursor env i defect st1 Hprobe Hy1 (Hok _ Hy1)).
  set (st2 := on_doc (doc_setFont false)
                (on_doc (doc_setFontSize 10)
                   ((on_doc (emit (Image (imageData defect) "JPEG" margin (yPos st1)
                                         NaN NaN)) ;;
                     advance (NaN + 5)) st1))).
  assert (Hcur2 : current_is_last (doc st2)).
  { subst st2. unfold andThen, on_doc, advance, setY, emit, current_is_last.
    cbn [doc pages cur with_pages doc_setFont doc_setFontSize].
    rewrite length_alter. exact Hcur1. }
  assert (Hy2 : yPos st2 = NaN).
  { subst st2. unfold andThen, on_doc, advance, setY. cbn [yPos].
    apply add_NaN_r. }
  apply has_refused_after;
    [intros d0; preserve_with any_text; apply (preserves_separator any_text); exact _ |].
  apply has_refused_after; [intros d0; preserve_with any_text |].
  unfold withLines.
  assert (Hsize : fontSize (doc st2) = Num 10) by reflexivity.
  assert (Hbold : bold (doc st2) = false) by reflexivity.
  rewrite Hsize, Hbold.
  destruct (splitTextToSize env 10 false (description defect) contentWidth)
    as [| line lines]; [contradiction |].
  rewrite forEach_cons.
  apply (has_refused_after (forEach (descriptionLine) lines)).
  { intros d0. apply preserves_forEach. intros x.
    apply (preserves_descriptionLine any_text _ any_text_all). }
  unfold descriptionLine, andThen. rewrite (checkNewPage_NaN 6 st2 Hy2).
  apply has_refused_after; [intros d0; preserve_with any_text |].
  apply text_at_lost_cursor; [exact Hcur2 | rewrite Hy2; reflexivity].
Qed.

Lemma forEachFrom_app {A} (body : A -> nat -> Stmt) i xs ys st :
  forEachFrom body i (xs ++ ys) st =
    forEachFrom body (i + length xs) ys (forEachFrom body i xs st).
Proof.
  revert i st. induction xs as [| x xs IH]; intros i st; cbn [app length forEachFrom].
  - rewrite Nat.add_0_r. reflexivity.
  - unfold andThen. rewrite IH. f_equal. lia.
Qed.

(** C3. A picture that the browser cannot decode ([onerror]: width and
    height 0) but that jsPDF embeds without throwing never reaches the
    [catch] block of the image: the scaled size is not a number, the image
    is embedded, no notice is drawn, and the cursor is not a number from
    then on.  The first line of the description is then a call of
    [doc.text] with a [y] that is not a number, on which jsPDF throws: the
    handler ends in its outer [catch] and no document is saved, whatever
    else the report holds. *)
Theorem undecodable_image_aborts_the_run env form before defect after :
  probe env (imageData defect) = None ->
  (forall y, isNaN y = false ->
     addImage_ok env (imageData defect) margin y NaN NaN = true) ->
  splitTextToSize env 10 false (description defect) contentWidth <> [] ->
  (forall i st, isNaN (yPos st) = false ->
     tryCatch (tryImage env i defect) imageError st =
       (on_doc (emit (Image (imageData defect) "JPEG" margin (yPos st) NaN NaN)) ;;
        advance (NaN + 5)) st /\
     yPos (tryCatch (tryImage env i defect) imageError st) = NaN) /\
  generatePdfClick env form (before ++ defect :: after) = ErrorShown.
Proof.
  intros Hprobe Hok Hlines. split.
  { intros i st Hy.
    rewrite (undecoded_image_loses_cursor env i defect st Hprobe Hy (Hok _ Hy)).
    split; [reflexivity |]. unfold andThen, advance, setY, on_doc. cbn [yPos].
    apply add_NaN_r. }
  unfold generatePdfClick.
  assert (H : has_refused (fst (generate env form (before ++ defect :: after))));
    [| unfold has_refused in H; rewrite H; reflexivity].
  unfold generate. cbn [fst]. unfold andThen.
  apply has_refused_after.
  { intros d0. apply (preserves_footers any_text _ env any_text_all). }
  unfold compose, andThen.
  set (st0 := disclaimerSection env form
                (inspectionDetails form
                   (clientDetails env form (documentHeader form startRun)))).
  assert (Hcur0 : current_is_last (doc st0)).
  { exact (compose_current_is_last env form []). }
  unfold defectsSection.
  assert (Hlen : (0 <? length (before ++ defect :: after))%nat = true).
  { apply Nat.ltb_lt. rewrite length_app. cbn [length]. lia. }
  rewrite Hlen. cbn [when]. unfold andThen, forEachIndexed.
  set (total := length (before ++ defect :: after)).
  set (st1 := addSectionHeader (defectsTitle total)
                (setY margin (on_doc doc_addPage st0))).
  assert (Hcur1 : current_is_last (doc st1)).
  { apply (fun H : preserves current_is_last
                     (on_doc doc_addPage ;; setY margin ;;
                      addSectionHeader (defectsTitle total)) => H st0 Hcur0).
    preserve_with any_text.
    apply (preserves_addSectionHeader any_text); first [exact Logic.I | exact _]. }
  rewrite forEachFrom_app. cbn [forEachFrom]. unfold andThen.
  apply has_refused_after.
  { intros d0. apply preserves_forEachFrom. intros x k.
    apply (preserves_renderDefect any_text _ env any_text_all). }
  apply undecoded_defect_refused; try assumption.
  apply (fun H : preserves current_is_last
                   (forEachFrom (renderDefect env total) 0 before) => H st1 Hcur1).
  apply preserves_forEachFrom. intros x k.
  apply (preserves_renderDefect any_text _ env any_text_all).
Qed.

Lemma undecodable_image_aborts_the_run_witness :
  probe headerOnlyEnv (imageData truncatedDefect) = None /\
  generatePdfClick headerOnlyEnv ∅ ([] ++ truncatedDefect :: [pngDefect]) = ErrorShown.
Proof.
  split; [reflexivity |].
  apply (undecodable_image_aborts_the_run headerOnlyEnv ∅ [] truncatedDefect [pngDefect]).
  - reflexivity.
  - intros y _. reflexivity.
  - discriminate.
Defined.

(** The other picture that cannot be decoded, the file that is not an
    image: jsPDF throws on it, the [catch] block draws the notice, and the
    report is saved with the next defect and the footers in place. *)
Lemma unreadable_file_gets_the_notice :
  exists d name,
    generatePdfClick headerOnlyEnv ∅ [brokenDefect; pngDefect] = Saved d name /\
    (pages d !! 1%nat) ≫= (.!! 3%nat) =
      Some (Text "[Image could not be loaded]" 20 45 false 10 true (150, 0, 0)%nat) /\
    (pages d !! 1%nat) ≫= (.!! 6%nat) =
      Some (Text "Defect #2: Crack" 20 78 false 11 true (44, 82, 130)%nat).
Proof. eexists _, _. split; [vm_compute; reflexivity |]. split; vm_compute; reflexivity. Qed.

(** ** The cursor and the page count *)

(** After a page-fit check for [r] units, at most the page minus its two
    margins, there is room for [r] units below a cursor that was a number
    not above the top margin line. *)
Lemma checkNewPage_room (r : Q) st :
  r <= 297 - 20 - 20 -> cursor_below_top st ->
  exists y, yPos (checkNewPage_ (Num r) st) = Num y /\ 20 <= y /\ y + r <= 297 - 20.
Proof.
  intros Hr (y & Hy & Hle). cbn in Hle. unfold checkNewPage_, checkNewPage.
  rewrite Hy, bottom_line. change (Num y + Num r)%js with (Num (y + r)).
  destruct (Num (y + r) >? Num (297 - 20))%js eqn:E; cbn [snd].
  - exists 20. split; [reflexivity |]. lra.
  - apply gt_Num_false in E. exists y. split; [exact Hy |]. lra.
Qed.

Lemma in_range_after (y dy : Q) st :
  yPos st = Num (y + dy) -> 20 <= y -> 0 <= dy -> y + dy <= 297 - 20 ->
  cursor_in_range st.
Proof.
  intros Hy H1 H2 H3. exists (y + dy). split; [exact Hy |]. cbn. lra.
Qed.

Lemma addSectionHeader_in_range title st :
  cursor_below_top st -> cursor_in_range (addSectionHeader title st).
Proof.
  intros H. destruct (checkNewPage_room 20 st) as (y & Hy & H1 & H2); [lra | exact H |].
  assert (E : yPos (addSectionHeader title st) = (yPos (checkNewPage_ 20 st) + 5 + 12)%js)
    by reflexivity.
  rewrite Hy in E. exists (y + 5 + 12). split; [exact E |]. cbn. lra.
Qed.

Lemma tableRow_in_range row index st :
  cursor_below_top st -> cursor_in_range (tableRow row index st).
Proof.
  intros H. destruct (checkNewPage_room 8 st) as (y & Hy & H1 & H2); [lra | exact H |].
  assert (E : yPos (tableRow row index st) = (yPos (checkNewPage_ 8 st) + 8)%js).
  { unfold tableRow, andThen. destruct (index mod 2 =? 0)%nat; reflexivity. }
  rewrite Hy in E. apply (in_range_after y 8); [exact E | lra ..].
Qed.

Lemma disclaimerLine_in_range line st :
  cursor_below_top st -> cursor_in_range (disclaimerLine line st).
Proof.
  intros H. destruct (checkNewPage_room 5 st) as (y & Hy & H1 & H2); [lra | exact H |].
  assert (E : yPos (disclaimerLine line st) = (yPos (checkNewPage_ 5 st) + Num 4.5)%js)
    by reflexivity.
  rewrite Hy in E. apply (in_range_after y 4.5); [exact E | lra ..].
Qed.

Lemma descriptionLine_in_range line st :
  cursor_below_top st -> cursor_in_range (descriptionLine line st).
Proof.
  intros H. destruct (checkNewPage_room 6 st) as (y & Hy & H1 & H2); [lra | exact H |].
  assert (E : yPos (descriptionLine line st) = (yPos (checkNewPage_ 6 st) + 5)%js)
    by reflexivity.
  rewrite Hy in E. apply (in_range_after y 5); [exact E | lra ..].
Qed.

Lemma separator_in_range st :
  cursor_below_top st -> cursor_in_range (separator st).
Proof.
  intros H. destruct (checkNewPage_room 15 st) as (y & Hy & H1 & H2); [lra | exact H |].
  assert (E : yPos (separator st) = (yPos (checkNewPage_ 15 st) + 10)%js)
    by reflexivity.
  rewrite Hy in E. apply (in_range_after y 10); [exact E | lra ..].
Qed.

Lemma heading_in_range heading st :
  cursor_below_top st ->
  cursor_in_range ((checkNewPage_ 100 ;; printHeading heading) st).
Proof.
  intros H. destruct (checkNewPage_room 100 st) as (y & Hy & H1 & H2); [lra | exact H |].
  assert (E : yPos ((checkNewPage_ 100 ;; printHeading heading) st) =
              (yPos (checkNewPage_ 100 st) + 8)%js) by reflexivity.
  rewrite Hy in E. apply (in_range_after y 8); [exact E | lra ..].
Qed.

Lemma addText_line_in_range (size : Q) line st :
  0 <= size -> size * 0.5 + 2 <= 297 - 20 - 20 ->
  cursor_below_top st ->
  cursor_in_range
    ((checkNewPage_ (Num size * Num 0.5 + 2) ;;
      at_y (fun y => on_doc (doc_text line margin y false)) ;;
      advance (Num size * Num 0.5)) st).
Proof.
  intros Hs Hfit H.
  change (Num size * Num 0.5 + 2)%js with (Num (size * 0.5 + 2)).
  change (Num size * Num 0.5)%js with (Num (size * 0.5)).
  destruct (checkNewPage_room (size * 0.5 + 2) st) as (y & Hy & H1 & H2);
    [exact Hfit | exact H |].
  assert (E : yPos ((checkNewPage_ (Num (size * 0.5 + 2)) ;;
                     at_y (fun y => on_doc (doc_text line margin y false)) ;;
                     advance (Num (size * 0.5))) st) =
              (yPos (checkNewPage_ (Num (size * 0.5 + 2)) st) + Num (size * 0.5))%js)
    by reflexivity.
  rewrite Hy in E. apply (in_range_after y (size * 0.5)); [exact E | lra ..].
Qed.

Lemma contentWidth_value : contentWidth = Num 170.
Proof. reflexivity. Qed.

Lemma image_in_range env i defect w h st st' :
  probe env (imageData defect) = Some (w, h) ->
  (Z.pos w < 2 ^ 32)%Z -> (Z.pos h < 2 ^ 32)%Z ->
  cursor_below_top st ->
  tryImage env i defect st = Done st' ->
  cursor_in_range st'.
Proof.
  intros Hprobe Hw Hh (y & Hy & Hle). cbn in Hle.
  destruct (scaled_bounds w h Hw Hh)
    as (r & ws & hs & _ & _ & _ & Es & _ & _ & _ & _ & Hhs & _).
  unfold tryImage, loadedSize. rewrite Hprobe. cbn [fst snd].
  change maxImgWidth with (Num 170). change maxImgHeight with (Num 80).
  rewrite Es. cbn [fst snd].
  assert (U : unit_roundoff == 1 # 9007199254740992) by reflexivity.
  rewrite U in Hhs.
  unfold placeImage. rewrite Hy, bottom_line.
  change (Num y + Num hs + 20)%js with (Num (y + hs + 20)).
  destruct (Num (y + hs + 20) >? Num (297 - 20))%js eqn:E.
  - destruct (addImage_ok env _ _ _ _ _); [| discriminate].
    intros [= <-]. exists (20 + 8 + (hs + 5)). split; [reflexivity |]. cbn. lra.
  - apply gt_Num_false in E.
    destruct (addImage_ok env _ _ _ _ _); [| discriminate].
    intros [= <-]. exists (y + (hs + 5)). split.
    + unfold andThen. rewrite yPos_advance, yPos_on_doc, Hy. reflexivity.
    + cbn. lra.
Qed.

Lemma page_count_compose env form defects n :
  preserves (at_least_pages n) (compose env form defects).
Proof. apply (preserves_compose any_text _ env any_text_all). Qed.

Lemma page_count_footers env n : preserves (at_least_pages n) (footers env).
Proof. apply (preserves_footers any_text _ env any_text_all). Qed.

(** What does hold of the cursor and of the page count.  The page count
    never decreases: whatever number of pages there is before the
    composition or the footer loop, and before any of the sections and
    loop bodies they are made of, there are at least as many after.
    Immediately after each write that follows a page-fit check (a section
    header, a table row, a disclaimer line, a defect heading, the image of
    a defect when it is decoded and embedded, a description line, a
    separator, a line of [addText] of a size that is not negative) the
    cursor is between the margins, provided it was a number not above the
    top margin line before the check. *)
Theorem guarded_writes_stay_on_page env :
  (forall form defects st,
     (length (pages (doc st))
        <= length (pages (doc (compose env form defects st))))%nat /\
     (length (pages (doc st)) <= length (pages (doc (footers env st))))%nat /\
     (length (pages (doc st)) <= length (pages (doc (documentHeader form st))))%nat /\
     (length (pages (doc st)) <= length (pages (doc (clientDetails env form st))))%nat /\
     (length (pages (doc st)) <= length (pages (doc (inspectionDetails form st))))%nat /\
     (length (pages (doc st))
        <= length (pages (doc (disclaimerSection env form st))))%nat /\
     (length (pages (doc st))
        <= length (pages (doc (defectsSection env defects st))))%nat /\
     (forall total defect i,
        (length (pages (doc st))
           <= length (pages (doc (renderDefect env total defect i st))))%nat)) /\
  (forall st, cursor_below_top st ->
     (forall title, cursor_in_range (addSectionHeader title st)) /\
     (forall row index, cursor_in_range (tableRow row index st)) /\
     (forall line, cursor_in_range (disclaimerLine line st)) /\
     (forall heading,
        cursor_in_range ((checkNewPage_ 100 ;; printHeading heading) st)) /\
     (forall i defect w h st',
        probe env (imageData defect) = Some (w, h) ->
        (Z.pos w < 2 ^ 32)%Z -> (Z.pos h < 2 ^ 32)%Z ->
        tryImage env i defect st = Done st' -> cursor_in_range st') /\
     (forall line, cursor_in_range (descriptionLine line st)) /\
     cursor_in_range (separator st) /\
     (forall (size : Q) line,
        0 <= size -> size * 0.5 + 2 <= 297 - 20 - 20 ->
        cursor_in_range
          ((checkNewPage_ (Num size * Num 0.5 + 2) ;;
            at_y (fun y => on_doc (doc_text line margin y false)) ;;
            advance (Num size * Num 0.5)) st))).
Proof.
  split.
  - intros form defects st.
    assert (H0 : at_least_pages (length (pages (doc st))) (doc st))
      by (unfold at_least_pages; lia).
    repeat split.
    + exact (page_count_compose env form defects _ st H0).
    + exact (page_count_footers env _ st H0).
    + refine (preserves_documentHeader any_text _ form _ _ _ st H0); intros;
        exact Logic.I.
    + refine (preserves_clientDetails any_text _ env form _ _ _ _ _ _ st H0);
        try exact Logic.I; intros _; (split; [exact Logic.I |]);
        try exact Logic.I; intros size b; apply Forall_forall; intros;
        exact Logic.I.
    + refine (preserves_inspectionDetails any_text _ form _ _ st H0);
        [exact Logic.I |]. apply Forall_forall. intros; split; exact Logic.I.
    + refine (preserves_disclaimerSection any_text _ env form _ _ st H0);
        [exact Logic.I |]. intros _ size b. apply Forall_forall. intros; exact Logic.I.
    + exact (preserves_defectsSection any_text _ env any_text_all defects st H0).
    + intros total defect i.
      exact (preserves_renderDefect any_text _ env any_text_all total defect i st H0).
  - intros st H. repeat split.
    + intros title. apply addSectionHeader_in_range, H.
    + intros row index. apply tableRow_in_range, H.
    + intros line. apply disclaimerLine_in_range, H.
    + intros heading. apply heading_in_range, H.
    + intros i defect w h st' Hprobe Hw Hh Hdone.
      exact (image_in_range env i defect w h st st' Hprobe Hw Hh H Hdone).
    + intros line. apply descriptionLine_in_range, H.
    + apply separator_in_range, H.
    + intros size line Hs Hfit. apply addText_line_in_range; assumption.
Qed.

Lemma guarded_writes_stay_on_page_witness :
  cursor_below_top (runAt 275) /\
  cursor_in_range (descriptionLine "Hairline crack in the wall." (runAt 275)) /\
  (length (pages (doc startRun))
     <= length (pages (doc (compose plainEnv ∅ [pngDefect] startRun))))%nat.
Proof.
  assert (H : cursor_below_top (runAt 275)).
  { exists 275. split; [reflexivity |]. cbn. lra. }
  destruct (guarded_writes_stay_on_page plainEnv) as [Hcount Hrange].
  destruct (Hrange (runAt 275) H) as (_ & _ & _ & _ & _ & Hline & _).
  destruct (Hcount ∅ [pngDefect] startRun) as (Hcompose & _).
  split; [exact H | split; [apply Hline | exact Hcompose]].
Defined.

(** C5. The property address is written without a page-fit check, and the
    cursor then moves down by five units per line, where every other block
    of lines of the report (the disclaimer, the description of a defect)
    checks before each line: after an address of sixty lines the cursor is
    at 369, below the bottom margin line at 277 and below the page, which
    is 297 high, no page has been added, and the label of the inspector is
    drawn there, off the page, in a report that is saved. *)
Theorem cursor_leaves_page_after_long_address :
  yPos (untilAddress plainEnv longAddressForm startRun) = Num 369 /\
  ~ cursor_in_range (untilAddress plainEnv longAddressForm startRun) /\
  length (pages (doc (untilAddress plainEnv longAddressForm startRun))) = 1%nat /\
  exists d name,
    generatePdfClick plainEnv longAddressForm [] = Saved d name /\
    (pages d !! 0%nat) ≫= (.!! 7%nat) =
      Some (Text "Inspector:" 20 369 false 10 true (0, 0, 0)%nat).
Proof.
  assert (Hy : yPos (untilAddress plainEnv longAddressForm startRun) = Num 369)
    by (vm_compute; reflexivity).
  split; [exact Hy |]. split; [| split].
  - intros (y & Hy' & _ & Hle). rewrite Hy in Hy'. injection Hy' as <-.
    cbn in Hle. lra.
  - vm_compute. reflexivity.
  - eexists _, _. split; vm_compute; reflexivity.
Qed.

(** ** Empty fields *)

Lemma truthy_false s : truthy s = false -> s = "".
Proof. destruct s; [reflexivity | discriminate]. Qed.

Lemma truthy_empty s : s = "" -> truthy s = false.
Proof. intros ->. reflexivity. Qed.

Lemma or_else_cases a b :
  (truthy a = true /\ or_else a b = a) \/ (a = "" /\ or_else a b = b).
Proof.
  unfold or_else. destruct (truthy a) eqn:E.
  - left. split; reflexivity.
  - right. split; [apply truthy_false, E | reflexivity].
Qed.

Lemma getFieldValue_empty id : getFieldValue ∅ id = "".
Proof. unfold getFieldValue. rewrite lookup_empty. reflexivity. Qed.

Lemma ops_ok_texts T d : ops_ok T d -> Forall T (all_texts d).
Proof.
  unfold ops_ok, all_texts. intros H.
  apply Forall_concat, Forall_fmap. eapply Forall_impl; [exact H |].
  intros p Hp. cbn. unfold page_texts.
  apply Forall_concat, Forall_fmap. eapply Forall_impl; [exact Hp |].
  intros op Hop. cbn. destruct op; cbn in *; auto.
Qed.

(** A text once drawn stays in the document. *)
#[export] Instance texts_include_invariant s : DocInvariant any_text (texts_include s).
Proof.
  split.
  - intros d d' Hp Hc [H1 H2]. unfold texts_include, current_is_last, all_texts in *.
    rewrite Hp, Hc. split; assumption.
  - intros op d Hop [H1 H2]. split.
    + apply (inv_emit (T := any_text)); [exact Hop | exact H1].
    + rewrite all_texts_emit by exact H1. apply elem_of_app. left. exact H2.
  - intros d [H1 H2]. split.
    + apply (inv_addPage (T := any_text)), H1.
    + rewrite all_texts_addPage. exact H2.
Qed.

Lemma seq_keep (I R : Doc -> Prop) (a b : Stmt) :
  preserves I a -> (forall st, I (doc st) -> R (doc (b st))) ->
  forall st, I (doc st) -> R (doc ((a ;; b) st)).
Proof. intros Ha Hb st H. apply Hb, Ha, H. Qed.

Lemma text_then_rest s x (f : jsnum -> jsnum) c (rest : Stmt) :
  preserves (texts_include s) rest ->
  forall st, current_is_last (doc st) ->
    texts_include s
      (doc ((at_y (fun y => on_doc (doc_text s x (f y) c)) ;; rest) st)).
Proof.
  intros Hrest st H. apply Hrest. unfold at_y. rewrite doc_on_doc. split.
  - apply (inv_emit (T := any_text)); [exact Logic.I | exact H].
  - unfold doc_text. rewrite all_texts_emit by exact H.
    apply elem_of_app. right. apply list_elem_of_singleton. reflexivity.
Qed.

Lemma documentHeader_company form st :
  current_is_last (doc st) ->
  texts_include (or_else (getFieldValue form "companyName") "Inspection Company")
    (doc (documentHeader form st)).
Proof.
  revert st. unfold documentHeader.
  do 2 (apply (seq_keep current_is_last); [preserve_with any_text |]).
  apply (text_then_rest _ _ (fun y => y)).
  preserve_with any_text; try exact Logic.I.
  apply (preserves_addLine any_text). exact _.
Qed.

Lemma documentHeader_title form st :
  current_is_last (doc st) ->
  texts_include
    (or_else (getFieldValue form "reportTitle") "Home Defect Inspection Report")
    (doc (documentHeader form st)).
Proof.
  revert st. unfold documentHeader.
  do 9 (apply (seq_keep current_is_last);
        [preserve_with any_text; try exact Logic.I |]).
  apply (text_then_rest _ _ (fun y => (y + 5)%js)).
  preserve_with any_text. apply (preserves_addLine any_text). exact _.
Qed.

Lemma compose_includes env form defects s :
  texts_include s (doc (documentHeader form startRun)) ->
  s ∈ all_texts (doc (compose env form defects startRun)).
Proof.
  intros H. unfold compose.
  apply (preserves_afterHeader any_text _ env any_text_all form defects) in H.
  apply H.
Qed.

Ltac in_list :=
  repeat first [ apply list_elem_of_here | apply list_elem_of_further ].

Lemma label_drawn env form s : s ∈ layoutLabels -> drawnText env form s.
Proof. intros H. left. left. exact H. Qed.

Lemma present_drawn env form s : fromPresentField env form s -> drawnText env form s.
Proof. intros H. left. right. left. exact H. Qed.

Lemma table_value_drawn env form id :
  id ∈ tableFields -> drawnText env form (or_else (getFieldValue form id) "N/A").
Proof.
  intros Hid. destruct (or_else_cases (getFieldValue form id) "N/A") as [[Hp ->] | [He ->]].
  - apply present_drawn. unfold fromPresentField. do 8 right. left.
    exists id. repeat split; assumption.
  - left. right. right. split; [reflexivity |]. exists id. split; [| exact He].
    unfold tableFields in Hid. rewrite !elem_of_cons in Hid.
    destruct Hid as [-> | [-> | [-> | [-> | Hnil]]]]; [in_list .. |].
    apply elem_of_nil in Hnil. contradiction.
Qed.

Lemma compose_drawn env form :
  ops_ok (drawnText env form) (doc (compose env form [] startRun)).
Proof.
  set (T := drawnText env form).
  assert (Hlabel : forall s, s ∈ layoutLabels -> T s) by apply label_drawn.
  assert (Hpresent : forall s, fromPresentField env form s -> T s) by apply present_drawn.
  apply (fun H : preserves (ops_ok T) (compose env form []) =>
           H startRun (ops_ok_newDoc T)).
  unfold compose.
  apply preserves_andThen;
    [| apply preserves_andThen;
       [| apply preserves_andThen; [| apply preserves_andThen]]].
  - apply (preserves_documentHeader T); invariant_instance.
    + destruct (or_else_cases (getFieldValue form "companyName") "Inspection Company")
        as [[Hp ->] | [He ->]].
      * apply Hpresent. left. split; [exact Hp | reflexivity].
      * right. left. split; [reflexivity | exact He].
    + intros Hp. apply Hpresent. right. left. split; [exact Hp | reflexivity].
    + destruct (or_else_cases (getFieldValue form "reportTitle")
                  "Home Defect Inspection Report") as [[Hp ->] | [He ->]].
      * apply Hpresent. do 2 right. left. split; [exact Hp | reflexivity].
      * right. right. split; [reflexivity | exact He].
  - apply (preserves_clientDetails T); invariant_instance.
    + apply Hlabel. in_list.
    + intros Hp. split; apply Hpresent; do 3 right; left; (split; [exact Hp |]);
        [left | right]; reflexivity.
    + intros Hp. split.
      * apply Hpresent. do 4 right. left. split; [exact Hp | left; reflexivity].
      * intros size b. apply Forall_forall. intros s Hs.
        apply Hpresent. do 4 right. left. split; [exact Hp |]. right.
        exists size, b. exact Hs.
    + intros Hp. split; apply Hpresent; do 5 right; left; (split; [exact Hp |]);
        [left | right]; reflexivity.
    + intros Hp. split; apply Hpresent; do 6 right; left; (split; [exact Hp |]);
        [left | right]; reflexivity.
    + intros Hp. split.
      * apply Hpresent. do 7 right. left. split; [exact Hp | left; reflexivity].
      * intros size b. apply Forall_forall. intros s Hs.
        apply Hpresent. do 7 right. left. split; [exact Hp |]. right.
        exists size, b. exact Hs.
  - apply (preserves_inspectionDetails T); invariant_instance.
    + apply Hlabel. in_list.
    + unfold tableData.
      repeat (apply Forall_cons; split; [cbn [fst snd]; split |]);
        first [ solve [apply Forall_nil; exact Logic.I]
              | solve [apply table_value_drawn; in_list]
              | solve [apply Hlabel; in_list] ].
  - apply (preserves_disclaimerSection T); invariant_instance.
    + apply Hlabel. in_list.
    + intros Hp size b. apply Forall_forall. intros s Hs.
      apply Hpresent. do 9 right. split; [exact Hp |]. exists size, b. exact Hs.
  - apply (preserves_skip (ops_ok T)).
Qed.

(** C2, as the code has it.  Without defects, every text the composition
    draws is a title or label of the layout, a text of a field that is not
    empty, the placeholder "N/A" of an empty field of the table, or the
    default of an empty company name or report title: an empty field is
    left out or replaced by "N/A", except that an empty company name is
    replaced by "Inspection Company" and an empty report title by "Home
    Defect Inspection Report", which are then drawn. *)
Theorem absent_fields_omitted_or_substituted env form :
  (forall s, s ∈ all_texts (doc (compose env form [] startRun)) ->
     drawnText env form s) /\
  (getFieldValue form "companyName" = "" ->
   forall defects,
     "Inspection Company" ∈ all_texts (doc (compose env form defects startRun))) /\
  (getFieldValue form "reportTitle" = "" ->
   forall defects,
     "Home Defect Inspection Report"
       ∈ all_texts (doc (compose env form defects startRun))).
Proof.
  split; [| split].
  - intros s Hs. pose proof (ops_ok_texts _ _ (compose_drawn env form)) as H.
    rewrite Forall_forall in H. exact (H s Hs).
  - intros He defects. apply compose_includes.
    pose proof (documentHeader_company form startRun eq_refl) as H.
    rewrite He in H. exact H.
  - intros He defects. apply compose_includes.
    pose proof (documentHeader_title form startRun eq_refl) as H.
    rewrite He in H. exact H.
Qed.

Lemma absent_fields_omitted_or_substituted_witness :
  getFieldValue ∅ "companyName" = "" /\
  "Inspection Company" ∈ all_texts (doc (compose plainEnv ∅ [pngDefect] startRun)) /\
  drawnText plainEnv ∅ "N/A".
Proof.
  destruct (absent_fields_omitted_or_substituted plainEnv ∅) as (Hdrawn & Hcompany & _).
  split; [reflexivity |]. split.
  - apply Hcompany. reflexivity.
  - apply Hdrawn. vm_compute. in_list.
Defined.

(** C2 as stated fails.  With an empty form the company name is empty, and
    the layout draws "Inspection Company" in its place, which is neither a
    title or label, nor a text of a field that is not empty, nor "N/A". *)
Lemma default_company_name_is_drawn :
  getFieldValue ∅ "companyName" = "" /\
  "Inspection Company" ∈ all_texts (doc (compose plainEnv ∅ [] startRun)) /\
  ~ claimedText plainEnv ∅ "Inspection Company".
Proof.
  split; [reflexivity |]. split; [vm_compute; in_list |].
  intros [H | [H | [H _]]].
  - apply list_elem_of_In in H. cbn in H. intuition discriminate.
  - unfold fromPresentField in H. cbv zeta in H.
    rewrite !getFieldValue_empty in H. cbn [truthy] in H.
    destruct H as [[H _] | [[[H | H] _] | [[H _] | [[H _] | [[H _] | [[H _] |
                   [[H _] | [[H _] | [(id & _ & H & _) | [H _]]]]]]]]]];
      discriminate.
  - discriminate.
Qed.

(** * Further properties of the layout *)

(** ** Outlines *)

Lemma all_ops_emit op d :
  current_is_last d -> all_ops (emit op d) = all_ops d ++ [op].
Proof.
  unfold current_is_last, all_ops, emit. cbn [pages with_pages].
  generalize (pages d) (cur d). intros ps c.
  induction ps as [| p l _] using rev_ind; [cbn; lia |].
  rewrite length_app. cbn [length]. intros Hc.
  assert (Hcur : c = length l) by lia.
  rewrite Hcur, alter_last, !concat_app. cbn [concat].
  rewrite !app_nil_r, app_assoc. reflexivity.
Qed.

Lemma outline_emit op d :
  current_is_last d -> outline (emit op d) = outline d ++ [sketch op].
Proof.
  intros H. unfold outline. rewrite all_ops_emit by exact H.
  rewrite fmap_app. reflexivity.
Qed.

Lemma outline_addPage d : outline (doc_addPage d) = outline d.
Proof.
  unfold outline, all_ops, doc_addPage. cbn [pages with_pages].
  rewrite concat_app. cbn. rewrite !app_nil_r. reflexivity.
Qed.

Section Writes.

Variable env : Env.

Lemma writes_skip p : writes p skip [] p.
Proof. intros st H Hp. rewrite app_nil_r. auto. Qed.

Lemma writes_andThen p a l1 p1 b l2 p2 :
  writes p a l1 p1 -> writes p1 b l2 p2 -> writes p (a ;; b) (l1 ++ l2) p2.
Proof.
  intros Ha Hb st H Hp. destruct (Ha st H Hp) as (H1 & Hp1 & E1).
  destruct (Hb (a st) H1 Hp1) as (H2 & Hp2 & E2).
  unfold andThen. rewrite E2, E1, app_assoc. auto.
Qed.

Lemma writes_when_true p a l p' : writes p a l p' -> writes p (when true a) l p'.
Proof. intros H. exact H. Qed.

Lemma writes_when_false p a : writes p (when false a) [] p.
Proof. apply writes_skip. Qed.

Lemma writes_at_y p f l p' : (forall y, writes p (f y) l p') -> writes p (at_y f) l p'.
Proof. intros Hf st. apply Hf. Qed.

Lemma writes_setY p y : writes p (setY y) [] p.
Proof. intros st H Hp. rewrite app_nil_r. auto. Qed.

Lemma writes_advance p dy : writes p (advance dy) [] p.
Proof. intros st H Hp. rewrite app_nil_r. auto. Qed.

Lemma writes_setFontSize size b fill stroke s :
  writes (mkPen size b fill stroke) (on_doc (doc_setFontSize s)) []
         (mkPen s b fill stroke).
Proof. intros st H Hp. rewrite app_nil_r. injection Hp as <- <- <- <-. auto. Qed.

Lemma writes_setFont size b fill stroke b' :
  writes (mkPen size b fill stroke) (on_doc (doc_setFont b')) []
         (mkPen size b' fill stroke).
Proof. intros st H Hp. rewrite app_nil_r. injection Hp as <- <- <- <-. auto. Qed.

Lemma writes_setFillColor size b fill stroke c :
  writes (mkPen size b fill stroke) (on_doc (doc_setFillColor c)) []
         (mkPen size b c stroke).
Proof. intros st H Hp. rewrite app_nil_r. injection Hp as <- <- <- <-. auto. Qed.

Lemma writes_setDrawColor size b fill stroke c :
  writes (mkPen size b fill stroke) (on_doc (doc_setDrawColor c)) []
         (mkPen size b fill c).
Proof. intros st H Hp. rewrite app_nil_r. injection Hp as <- <- <- <-. auto. Qed.

Lemma writes_setTextColor p c : writes p (on_doc (doc_setTextColor c)) [] p.
Proof. intros st H <-. rewrite app_nil_r. auto. Qed.

Lemma writes_setLineWidth p w : writes p (on_doc (doc_setLineWidth w)) [] p.
Proof. intros st H <-. rewrite app_nil_r. auto. Qed.

Lemma current_is_last_emit op d : current_is_last d -> current_is_last (emit op d).
Proof.
  unfold current_is_last, emit. cbn [pages cur with_pages].
  rewrite length_alter. auto.
Qed.

Lemma writes_emit p op : writes p (on_doc (emit op)) [sketch op] p.
Proof.
  intros st H <-. rewrite doc_on_doc. split; [| split].
  - apply current_is_last_emit, H.
  - reflexivity.
  - apply outline_emit, H.
Qed.

Lemma writes_text p s x y c : writes p (on_doc (doc_text s x y c)) [KText s] p.
Proof. intros st H Hp. exact (writes_emit p _ st H Hp). Qed.

Lemma writes_textLines p ls x y :
  writes p (on_doc (doc_textLines ls x y)) [KLines ls] p.
Proof. intros st H Hp. exact (writes_emit p _ st H Hp). Qed.

Lemma writes_rect p x y w h : writes p (on_doc (doc_rect x y w h)) [KRect (penFill p)] p.
Proof.
  intros st H Hp. destruct (writes_emit p (Rect x y w h (fillColor (doc st))) st H Hp)
    as (H1 & H2 & H3).
  subst p. auto.
Qed.

Lemma writes_line p x1 y1 x2 y2 :
  writes p (on_doc (doc_line x1 y1 x2 y2)) [KLine (penStroke p)] p.
Proof.
  intros st H Hp.
  destruct (writes_emit p (Line x1 y1 x2 y2 (drawColor (doc st)) (lineWidth (doc st)))
              st H Hp) as (H1 & H2 & H3).
  subst p. auto.
Qed.

Lemma writes_addPage p : writes p (on_doc doc_addPage) [] p.
Proof.
  intros st H <-. rewrite doc_on_doc, app_nil_r. split; [| split].
  - apply (inv_addPage (T := any_text)), H.
  - reflexivity.
  - apply outline_addPage.
Qed.

Lemma writes_checkNewPage_ p r : writes p (checkNewPage_ r) [] p.
Proof.
  intros st H Hp. unfold checkNewPage_, checkNewPage.
  destruct (yPos st + r >? pageHeight - margin)%js; cbn [snd].
  - exact (writes_andThen p _ [] p _ [] p (writes_addPage p) (writes_setY p margin)
             st H Hp).
  - rewrite app_nil_r. auto.
Qed.

Lemma writes_withLines p text width k l p' :
  writes p (k (splitTextToSize env (penSize p) (penBold p) text width)) l p' ->
  writes p (withLines env text width k) l p'.
Proof. intros Hk st H Hp. unfold withLines. subst p. apply Hk; auto. Qed.

Lemma writes_forEach {A} p (body : A -> Stmt) (g : A -> list Sketch) xs :
  (forall x, writes p (body x) (g x) p) ->
  writes p (forEach body xs) (concat (g <$> xs)) p.
Proof.
  intros Hbody. induction xs as [| x xs IH].
  - apply writes_skip.
  - intros st H Hp. rewrite forEach_cons.
    exact (writes_andThen p _ _ p _ _ p (Hbody x) IH st H Hp).
Qed.

Lemma writes_forEachFrom_nil {A} p (body : A -> nat -> Stmt) i :
  writes p (forEachFrom body i []) [] p.
Proof. apply writes_skip. Qed.

Lemma writes_forEachFrom_cons {A} p (body : A -> nat -> Stmt) i x xs l1 p1 l2 p2 :
  writes p (body x i) l1 p1 ->
  writes p1 (forEachFrom body (S i) xs) l2 p2 ->
  writes p (forEachFrom body i (x :: xs)) (l1 ++ l2) p2.
Proof. intros H1 H2. exact (writes_andThen p _ _ p1 _ _ p2 H1 H2). Qed.

Lemma writes_eq p s l l' p' : writes p s l p' -> l = l' -> writes p s l' p'.
Proof. intros H <-. exact H. Qed.

Lemma writes_appends p s l p' st :
  writes p s l p' -> current_is_last (doc st) -> pen_of (doc st) = p ->
  appends s st l.
Proof. intros Hs H Hp. destruct (Hs st H Hp) as (H1 & _ & E). split; assumption. Qed.

End Writes.

(** Follows a statement along its structure, collecting what it writes. *)
Ltac draw env :=
  repeat
    lazymatch goal with
    | |- writes _ skip _ _ => apply writes_skip
    | |- writes _ (setY _) _ _ => apply writes_setY
    | |- writes _ (advance _) _ _ => apply writes_advance
    | |- writes _ (on_doc (doc_setFontSize _)) _ _ => apply writes_setFontSize
    | |- writes _ (on_doc (doc_setFont _)) _ _ => apply writes_setFont
    | |- writes _ (on_doc (doc_setTextColor _)) _ _ => apply writes_setTextColor
    | |- writes _ (on_doc (doc_setFillColor _)) _ _ => apply writes_setFillColor
    | |- writes _ (on_doc (doc_setDrawColor _)) _ _ => apply writes_setDrawColor
    | |- writes _ (on_doc (doc_setLineWidth _)) _ _ => apply writes_setLineWidth
    | |- writes _ (on_doc (doc_rect _ _ _ _)) _ _ => apply writes_rect
    | |- writes _ (on_doc (doc_line _ _ _ _)) _ _ => apply writes_line
    | |- writes _ (on_doc (doc_text _ _ _ _)) _ _ => apply writes_text
    | |- writes _ (on_doc (doc_textLines _ _ _)) _ _ => apply writes_textLines
    | |- writes _ (on_doc (emit _)) _ _ => apply writes_emit
    | |- writes _ (on_doc doc_addPage) _ _ => apply writes_addPage
    | |- writes _ (checkNewPage_ _) _ _ => apply writes_checkNewPage_
    | |- writes _ (at_y _) _ _ => apply writes_at_y; intros ?
    | |- writes _ (when true _) _ _ => apply writes_when_true
    | |- writes _ (when false _) _ _ => apply writes_when_false
    | |- writes _ (withLines _ _ _ _) _ _ =>
        apply (writes_withLines env); cbv beta zeta
    | |- writes _ (forEachFrom _ _ []) _ _ => apply writes_forEachFrom_nil
    | |- writes _ (forEachFrom _ _ (_ :: _)) _ _ => eapply writes_forEachFrom_cons
    | |- writes _ (forEach _ _) _ _ => eapply writes_forEach; intros ?
    | |- writes _ (_ ;; _) _ _ => eapply writes_andThen
    | |- writes _ addLine _ _ => unfold addLine
    | |- writes _ (addSectionHeader _) _ _ => unfold addSectionHeader
    | |- writes _ (labelled _ _) _ _ => unfold labelled
    | |- writes _ (labelledLines _ _ _) _ _ => unfold labelledLines
    | |- writes _ (tableRow _ _) _ _ => unfold tableRow
    | |- writes _ (disclaimerLine _) _ _ => unfold disclaimerLine
    | |- writes _ (printHeading _) _ _ => unfold printHeading
    | |- writes _ imageError _ _ => unfold imageError
    | |- writes _ (descriptionLine _) _ _ => unfold descriptionLine
    | |- writes _ separator _ _ => unfold separator
    end.

(** Collects what a statement writes, then compares it with what the goal
    says. *)
Ltac drawn env := eapply writes_eq; [draw env | try reflexivity].

Lemma concat_singletons {A B} (f : A -> B) (xs : list A) :
  concat ((fun x => [f x]) <$> xs) = f <$> xs.
Proof. induction xs as [| x xs IH]; [reflexivity |]. cbn. rewrite IH. reflexivity. Qed.

(** ** The sections of the report *)

(** X1. The header draws the company name, then the contact line, then the
    report title and a rule.  The contact line is the phone and the email
    joined by " | " when both are given, the one that is given when only
    one is, and is not drawn at all when both are empty; the cursor moves
    down by 8 more when it is drawn. *)
Theorem documentHeader_outline form st :
  current_is_last (doc st) ->
  let phone := getFieldValue form "companyPhone" in
  let email := getFieldValue form "companyEmail" in
  appends (documentHeader form) st
    ([KText (or_else (getFieldValue form "companyName") "Inspection Company")] ++
     contactSketch phone email ++
     [KText (or_else (getFieldValue form "reportTitle")
                     "Home Defect Inspection Report");
      KLine ruleStroke]) /\
  yPos (documentHeader form st) =
    (if truthy phone || truthy email
     then yPos st + 10 + 8 + 15 + 5
     else yPos st + 10 + 15 + 5)%js.
Proof.
  intros H phone email. split.
  - unfold documentHeader, contactSketch, contactInfo. fold phone email.
    destruct (truthy phone), (truthy email);
      cbn [app length Nat.ltb Nat.leb String.concat];
      (eapply writes_appends with (p := pen_of (doc st));
       [drawn plainEnv | exact H | reflexivity]).
  - unfold documentHeader, contactInfo. fold phone email.
    destruct (truthy phone), (truthy email); reflexivity.
Qed.

Lemma documentHeader_outline_witness :
  outline (doc (documentHeader ∅ startRun)) =
    [KText "Inspection Company"; KText "Home Defect Inspection Report";
     KLine ruleStroke] /\
  outline (doc (documentHeader {[ "companyPhone" := "555 0100" ]} startRun)) =
    [KText "Inspection Company"; KText "555 0100";
     KText "Home Defect Inspection Report"; KLine ruleStroke].
Proof.
  split.
  - exact (proj2 (proj1 (documentHeader_outline ∅ startRun eq_refl))).
  - exact (proj2 (proj1 (documentHeader_outline {[ "companyPhone" := "555 0100" ]}
                           startRun eq_refl))).
Defined.

(** X2. The client details are the banner and the title, then, in this
    order and only for the fields that are not empty, the label and the
    value of the client name, the property address, the inspection date
    (formatted), the inspector and the credentials.  Address and
    credentials are wrapped in 10 pt regular type to the content width less
    40 and drawn as one block of lines each. *)
Theorem clientDetails_outline env form st :
  current_is_last (doc st) ->
  let v := getFieldValue form in
  let wrapped s := KLines (splitTextToSize env 10 false s (contentWidth - 40)%js) in
  appends (clientDetails env form) st
    ([KRect bannerFill; KText "Property & Client Details"] ++
     pairSketch "Client Name:" (v "clientName") (KText (v "clientName")) ++
     pairSketch "Property Address:" (v "clientAddress") (wrapped (v "clientAddress")) ++
     pairSketch "Inspection Date:" (v "inspectionDate")
       (KText (formatDate env (v "inspectionDate"))) ++
     pairSketch "Inspector:" (v "inspectorName") (KText (v "inspectorName")) ++
     pairSketch "Credentials:" (v "inspectorCredentials")
       (wrapped (v "inspectorCredentials"))).
Proof.
  intros H v wrapped.
  unfold clientDetails, pairSketch. fold v.
  destruct (truthy (v "clientName")), (truthy (v "clientAddress")),
    (truthy (v "inspectionDate")), (truthy (v "inspectorName")),
    (truthy (v "inspectorCredentials"));
    (eapply writes_appends with (p := pen_of (doc st));
     [drawn env | exact H | reflexivity]).
Qed.

Lemma clientDetails_outline_witness :
  outline (doc (clientDetails plainEnv {[ "inspectorName" := " Ann " ]} startRun)) =
    [KRect bannerFill; KText "Property & Client Details";
     KText "Inspector:"; KText "Ann"].
Proof.
  exact (proj2 (clientDetails_outline plainEnv {[ "inspectorName" := " Ann " ]}
                  startRun eq_refl)).
Defined.

(** X3. The inspection details are the banner and the title, then four
    rows in a fixed order (attendance, occupancy, type of building, weather
    condition), each a label and the value or "N/A"; the first and the
    third row, and only these, are shaded, wherever page breaks fall. *)
Theorem inspectionDetails_outline form st :
  current_is_last (doc st) ->
  let shown id := KText (or_else (getFieldValue form id) "N/A") in
  appends (inspectionDetails form) st
    [KRect bannerFill; KText "Inspection Details";
     KRect rowFill; KText "Attendance"; shown "attendance";
     KText "Occupancy"; shown "occupancy";
     KRect rowFill; KText "Type of Building"; shown "buildingType";
     KText "Weather Condition"; shown "weatherCondition"].
Proof.
  intros H shown.
  eapply writes_appends with (p := pen_of (doc st)); [| exact H | reflexivity].
  unfold inspectionDetails, forEachIndexed, tableData.
  eapply writes_eq.
  - draw plainEnv.
    all: cbn [Nat.modulo Nat.divmod Nat.eqb fst snd Nat.sub]; draw plainEnv.
  - reflexivity.
Qed.

Lemma inspectionDetails_outline_witness :
  outline (doc (inspectionDetails {[ "occupancy" := "Vacant" ]} (runAt 260))) =
    [KRect bannerFill; KText "Inspection Details";
     KRect rowFill; KText "Attendance"; KText "N/A";
     KText "Occupancy"; KText "Vacant";
     KRect rowFill; KText "Type of Building"; KText "N/A";
     KText "Weather Condition"; KText "N/A"] /\
  length (pages (doc (inspectionDetails {[ "occupancy" := "Vacant" ]} (runAt 260)))) =
    2%nat.
Proof.
  split; [| reflexivity].
  exact (proj2 (inspectionDetails_outline {[ "occupancy" := "Vacant" ]} (runAt 260)
                  eq_refl)).
Defined.

(** X4. The disclaimer section always draws its banner and title; below
    them come the lines of the disclaimer, wrapped in 9 pt regular type to
    the content width, one operation per line, and nothing when the
    disclaimer is empty. *)
Theorem disclaimerSection_outline env form st :
  current_is_last (doc st) ->
  let disclaimer := getFieldValue form "disclaimer" in
  appends (disclaimerSection env form) st
    ([KRect bannerFill; KText "General Disclaimer"] ++
     (if truthy disclaimer
      then KText <$> splitTextToSize env 9 false disclaimer contentWidth
      else [])).
Proof.
  intros H disclaimer.
  unfold disclaimerSection. fold disclaimer.
  destruct (truthy disclaimer);
    (eapply writes_appends with (p := pen_of (doc st)); [| exact H | reflexivity]).
  - eapply writes_eq; [draw env |].
    cbn [app]. rewrite !app_nil_r.
    rewrite (concat_singletons KText). reflexivity.
  - drawn env.
Qed.

Lemma disclaimerSection_outline_witness :
  outline (doc (disclaimerSection plainEnv ∅ startRun)) =
    [KRect bannerFill; KText "General Disclaimer"].
Proof.
  exact (proj2 (disclaimerSection_outline plainEnv ∅ startRun eq_refl)).
Defined.

(** ** The defects, one after the other *)

Lemma appends_of_writes s l st :
  (forall size b fill stroke, exists p', writes (mkPen size b fill stroke) s l p') ->
  current_is_last (doc st) -> appends s st l.
Proof.
  intros Hs H.
  destruct (Hs (fontSize (doc st)) (bold (doc st)) (fillColor (doc st))
               (drawColor (doc st))) as [p' Hw].
  exact (writes_appends _ s l p' st Hw H eq_refl).
Qed.

Lemma appends_step a b st l1 l2 :
  appends a st l1 -> appends b (a st) l2 -> appends (a ;; b) st (l1 ++ l2).
Proof.
  intros [H1 E1] [H2 E2]. split; [exact H2 |].
  unfold andThen. rewrite E2, E1, app_assoc. reflexivity.
Qed.

Lemma heading_appends heading st :
  current_is_last (doc st) ->
  appends (checkNewPage_ 100 ;; printHeading heading) st [KText heading].
Proof.
  apply appends_of_writes. intros size b fill stroke. eexists. drawn plainEnv.
Qed.

Lemma continued_appends heading st :
  current_is_last (doc st) ->
  appends (on_doc doc_addPage ;; setY margin ;; printHeading heading) st
          [KText heading].
Proof.
  apply appends_of_writes. intros size b fill stroke. eexists. drawn plainEnv.
Qed.

Lemma image_appends data format x y w h dy st :
  current_is_last (doc st) ->
  appends (on_doc (emit (Image data format x y w h)) ;; advance dy) st
          [KImage data format].
Proof.
  apply appends_of_writes. intros size b fill stroke. eexists. drawn plainEnv.
Qed.

Lemma imageError_appends st :
  current_is_last (doc st) ->
  appends imageError st [KText "[Image could not be loaded]"].
Proof.
  apply appends_of_writes. intros size b fill stroke. eexists. drawn plainEnv.
Qed.

Lemma description_appends env total defect i st :
  current_is_last (doc st) ->
  appends (on_doc (doc_setFontSize 10) ;;
           on_doc (doc_setFont false) ;;
           withLines env (description defect) contentWidth (forEach descriptionLine) ;;
           advance 10 ;;
           when (i <? total - 1)%nat separator) st
          ((KText <$> splitTextToSize env 10 false (description defect) contentWidth) ++
           (if (i <? total - 1)%nat then [KLine separatorStroke] else [])).
Proof.
  apply appends_of_writes. intros size b fill stroke.
  destruct (i <? total - 1)%nat; eexists.
  - eapply writes_eq; [draw env |]. cbn [app]. rewrite ?app_nil_r.
    rewrite (concat_singletons KText). reflexivity.
  - eapply writes_eq; [draw env |]. cbn [app]. rewrite ?app_nil_r.
    rewrite (concat_singletons KText). reflexivity.
Qed.

Lemma tryImage_appends env i defect st :
  current_is_last (doc st) ->
  exists img, imageSketches i defect img /\
    appends (tryCatch (tryImage env i defect) imageError) st img.
Proof.
  intros H. unfold appends, tryCatch, tryImage.
  set (w := fst (scaleImage _ _ _ _)). set (h := snd (scaleImage _ _ _ _)).
  unfold placeImage.
  destruct (yPos st + h + 20 >? pageHeight - margin)%js.
  - set (st1 := (on_doc doc_addPage ;; setY margin ;;
                 printHeading (defectHeading i defect " (continued)")) st).
    pose proof (continued_appends (defectHeading i defect " (continued)") st H) as H1.
    fold st1 in H1.
    destruct (addImage_ok env (imageData defect) margin (yPos st1) w h).
    + eexists. split; [right; left; reflexivity |].
      exact (appends_step _ _ st _ _ H1
               (image_appends _ _ _ _ _ _ _ _ (proj1 H1))).
    + eexists. split; [do 3 right; reflexivity |].
      exact (appends_step _ _ st _ _ H1 (imageError_appends _ (proj1 H1))).
  - destruct (addImage_ok env (imageData defect) margin (yPos st) w h).
    + eexists. split; [left; reflexivity |].
      exact (image_appends _ _ _ _ _ _ _ _ H).
    + eexists. split; [do 2 right; left; reflexivity |].
      exact (imageError_appends _ H).
Qed.

Lemma renderDefect_appends env total defect i st :
  current_is_last (doc st) ->
  exists img, imageSketches i defect img /\
    appends (renderDefect env total defect i) st
            (defectSketches env total i defect img).
Proof.
  intros H.
  pose proof (heading_appends (defectHeading i defect "") st H) as H1.
  destruct (tryImage_appends env i defect _ (proj1 H1)) as (img & Himg & H2).
  pose proof (appends_step _ _ st _ _ H1 H2) as H12.
  pose proof (description_appends env total defect i _ (proj1 H12)) as H3.
  exists img. split; [exact Himg |].
  pose proof (appends_step _ _ st _ _ H12 H3) as H123.
  unfold defectSketches.
  replace (KText (defectHeading i defect "") :: img ++
           (KText <$> splitTextToSize env 10 false (description defect) contentWidth) ++
           (if (i <? total - 1)%nat then [KLine separatorStroke] else []))
    with (([KText (defectHeading i defect "")] ++ img) ++
          (KText <$> splitTextToSize env 10 false (description defect) contentWidth) ++
          (if (i <? total - 1)%nat then [KLine separatorStroke] else []))
    by (rewrite <- app_assoc; reflexivity).
  unfold appends in *. unfold renderDefect, imageAndDescription, andThen in *.
  exact H123.
Qed.

Lemma defects_loop_appends env total defects : forall i st,
  current_is_last (doc st) ->
  exists imgs, imagesSketches i defects imgs /\
    appends (forEachFrom (renderDefect env total) i defects) st
            (defectsSketches env total i defects imgs).
Proof.
  induction defects as [| defect defects IH]; intros i st H.
  - exists []. split; [exact Logic.I |]. split; [exact H |].
    cbn. rewrite app_nil_r. reflexivity.
  - destruct (renderDefect_appends env total defect i st H) as (img & Himg & H1).
    destruct (IH (S i) _ (proj1 H1)) as (imgs & Himgs & H2).
    exists (img :: imgs). split; [split; assumption |].
    exact (appends_step _ _ st _ _ H1 H2).
Qed.

(** X5. With at least one defect, the defects section is the banner and
    the title, then the defects in the order of the list, numbered from 1
    without a gap: for each its heading, then its image or the notice
    (after the heading repeated with " (continued)" when a page was added
    for the image), then the lines of its description wrapped in 10 pt
    regular type, then a separator rule unless it is the last defect. *)
Theorem defectsSection_outline env defect defects st :
  current_is_last (doc st) ->
  let total := S (length defects) in
  exists imgs,
    imagesSketches 0 (defect :: defects) imgs /\
    appends (defectsSection env (defect :: defects)) st
      ([KRect bannerFill; KText (defectsTitle total)] ++
       defectsSketches env total 0 (defect :: defects) imgs).
Proof.
  intros H total.
  assert (H1 : appends (on_doc doc_addPage ;; setY margin ;;
                        addSectionHeader (defectsTitle total)) st
                 [KRect bannerFill; KText (defectsTitle total)]).
  { apply appends_of_writes; [| exact H].
    intros size b fill stroke. eexists. drawn plainEnv. }
  destruct (defects_loop_appends env total (defect :: defects) 0 _ (proj1 H1))
    as (imgs & Himgs & H2).
  exists imgs. split; [exact Himgs |].
  exact (appends_step _ _ st _ _ H1 H2).
Qed.

Lemma defectsSection_outline_witness :
  exists imgs,
    imagesSketches 0 [brokenDefect; pngDefect] imgs /\
    outline (doc (defectsSection strictEnv [brokenDefect; pngDefect] startRun)) =
      [KRect bannerFill; KText "Identified Defects (2 Total)"] ++
      defectsSketches strictEnv 2 0 [brokenDefect; pngDefect] imgs.
Proof.
  destruct (defectsSection_outline strictEnv brokenDefect [pngDefect] startRun eq_refl)
    as (imgs & Himgs & _ & E).
  exists imgs. split; [exact Himgs | exact E].
Defined.

(** ** Properties of the run that statements keep *)

Lemma keeps_skip J : keeps J skip.
Proof. intros st H. exact H. Qed.

Lemma keeps_andThen J a b : keeps J a -> keeps J b -> keeps J (a ;; b).
Proof. intros Ha Hb st H. apply Hb, Ha, H. Qed.

Lemma keeps_when J c a : keeps J a -> keeps J (when c a).
Proof. intros Ha. destruct c; [exact Ha | apply keeps_skip]. Qed.

Lemma keeps_at_y J f : (forall y, keeps J (f y)) -> keeps J (at_y f).
Proof. intros Hf st. apply Hf. Qed.

Lemma keeps_withLines J env text width k :
  (forall lines, keeps J (k lines)) -> keeps J (withLines env text width k).
Proof. intros Hk st. apply Hk. Qed.

Lemma keeps_forEach {A} J (body : A -> Stmt) xs :
  (forall x, keeps J (body x)) -> keeps J (forEach body xs).
Proof.
  intros Hbody. induction xs as [| x xs IH]; intros st H; [exact H |].
  rewrite forEach_cons. apply IH, Hbody, H.
Qed.

Lemma keeps_forEachFrom {A} J (body : A -> nat -> Stmt) i xs :
  (forall x j, keeps J (body x j)) -> keeps J (forEachFrom body i xs).
Proof.
  intros Hbody. revert i. induction xs as [| x xs IH]; intros i st H; [exact H |].
  cbn [forEachFrom]. apply IH, Hbody, H.
Qed.

Lemma keeps_tryCatch J body handler :
  (forall st, J st -> J (outcome_state (body st))) -> keeps J handler ->
  keeps J (tryCatch body handler).
Proof.
  intros Hbody Hh st H. unfold tryCatch. specialize (Hbody st H).
  destruct (body st); cbn in Hbody; [exact Hbody | apply Hh, Hbody].
Qed.

(** Follows a statement along its structure; [prim] settles the
    statements that touch the document or the cursor. *)
Ltac keep_with prim :=
  repeat
    lazymatch goal with
    | |- keeps _ skip => apply keeps_skip
    | |- keeps _ (_ ;; _) => apply keeps_andThen
    | |- keeps _ (when _ _) => apply keeps_when
    | |- keeps _ (at_y _) => apply keeps_at_y; intros ?
    | |- keeps _ (withLines _ _ _ _) => apply keeps_withLines; intros ?
    | |- keeps _ (forEach _ _) => apply keeps_forEach; intros ?
    | |- keeps _ (forEachFrom _ _ _) => apply keeps_forEachFrom; intros ? ?
    | |- keeps _ (forEachIndexed _ _) => unfold forEachIndexed
    | |- keeps _ addLine => unfold addLine
    | |- keeps _ (addSectionHeader _) => unfold addSectionHeader
    | |- keeps _ (documentHeader _) => unfold documentHeader; cbv zeta
    | |- keeps _ (labelled _ _) => unfold labelled
    | |- keeps _ (labelledLines _ _ _) => unfold labelledLines
    | |- keeps _ (clientDetails _ _) => unfold clientDetails; cbv zeta
    | |- keeps _ (tableRow _ _) => unfold tableRow; cbv zeta
    | |- keeps _ (inspectionDetails _) => unfold inspectionDetails
    | |- keeps _ (disclaimerLine _) => unfold disclaimerLine
    | |- keeps _ (disclaimerSection _ _) => unfold disclaimerSection; cbv zeta
    | |- keeps _ (printHeading _) => unfold printHeading
    | |- keeps _ imageError => unfold imageError
    | |- keeps _ (descriptionLine _) => unfold descriptionLine
    | |- keeps _ separator => unfold separator
    | |- keeps _ (imageAndDescription _ _ _ _) => unfold imageAndDescription
    | |- keeps _ (renderDefect _ _ _ _) => unfold renderDefect
    | |- keeps _ (defectsSection _ _) => unfold defectsSection
    | |- keeps _ (compose _ _ _) => unfold compose
    | |- keeps _ ((fun _ => _) _) => cbv beta
    | |- keeps _ _ => prim
    end.

(** *** The clock *)

Lemma clock_on_doc k f : keeps (clock_at k) (on_doc f).
Proof. intros st H. exact H. Qed.

Lemma clock_setY k y : keeps (clock_at k) (setY y).
Proof. intros st H. exact H. Qed.

Lemma clock_advance k dy : keeps (clock_at k) (advance dy).
Proof. intros st H. exact H. Qed.

Lemma clock_checkNewPage_ k r : keeps (clock_at k) (checkNewPage_ r).
Proof.
  intros st H. unfold checkNewPage_, checkNewPage.
  destruct (yPos st + r >? pageHeight - margin)%js; exact H.
Qed.

Ltac clock_prim :=
  first [ apply clock_on_doc | apply clock_setY | apply clock_advance
        | apply clock_checkNewPage_ ].

Lemma clock_tryImage env k i defect :
  keeps (clock_at k) (tryCatch (tryImage env i defect) imageError).
Proof.
  apply keeps_tryCatch; [| keep_with clock_prim].
  intros st H. unfold tryImage, placeImage.
  set (w := fst _). set (h := snd _).
  set (st1 := if (yPos st + h + 20 >? pageHeight - margin)%js then _ else st).
  assert (H1 : clock_at k st1).
  { subst st1. destruct (yPos st + h + 20 >? pageHeight - margin)%js; exact H. }
  destruct (addImage_ok env _ _ _ _ _); exact H1.
Qed.

(** The composition never reads the clock. *)
Lemma compose_clock env form defects k : keeps (clock_at k) (compose env form defects).
Proof. keep_with ltac:(first [apply clock_tryImage | clock_prim]). Qed.

(** ** The footer loop and the file name *)

Lemma stampPage_run env n i st :
  let st' := stampPage env n i st in
  clockReads st' = S (clockReads st) /\
  yPos st' = yPos st /\
  length (pages (doc st')) = length (pages (doc st)) /\
  ((1 <= i <= length (pages (doc st)))%nat -> cur (doc st') = (i - 1)%nat).
Proof.
  cbv zeta. unfold stampPage, andThen, newDate, on_doc. cbn [doc clockReads yPos].
  split; [reflexivity |]. split; [reflexivity |].
  unfold doc_text, emit. cbn [pages cur with_pages doc_setFontSize doc_setFont
    doc_setTextColor]. rewrite !length_alter.
  unfold doc_setPage.
  destruct ((1 <=? i)%nat && (i <=? length (pages (doc st)))%nat)%bool eqn:E.
  - cbn [pages cur with_pages]. split; [reflexivity |]. intros _. reflexivity.
  - split; [reflexivity |]. intros [H1 H2].
    apply andb_false_iff in E. destruct E as [E | E]; apply Nat.leb_gt in E; lia.
Qed.

Lemma stamp_loop_run env n m : forall a st,
  let st' := forEach (stampPage env n) (seq a m) st in
  clockReads st' = (clockReads st + m)%nat /\
  yPos st' = yPos st /\
  length (pages (doc st')) = length (pages (doc st)) /\
  ((0 < m)%nat -> (1 <= a)%nat -> (a + m - 1 <= length (pages (doc st)))%nat ->
   cur (doc st') = (a + m - 2)%nat).
Proof.
  induction m as [| m IH]; intros a st; cbv zeta.
  - cbn. repeat split; [lia | lia].
  - cbn [seq]. rewrite forEach_cons.
    destruct (stampPage_run env n a st) as (Hc & Hy & Hl & Hcur).
    destruct (IH (S a) (stampPage env n a st)) as (Hc' & Hy' & Hl' & Hcur').
    rewrite Hc', Hy', Hl', Hc, Hy, Hl. repeat split; [lia |].
    intros _ Ha Hle. destruct m as [| m'].
    + unfold forEach. cbn [seq fold_left]. rewrite Hcur by lia. lia.
    + rewrite Hcur' by lia. lia.
Qed.

(** X6. The footer loop visits every page once, in order: each page keeps
    what it had and gets its number out of the total and a timestamp at its
    end; no page is added or removed, the cursor is not moved, the clock is
    read once per page, and the loop ends on the last page. *)
Theorem footers_stamp_every_page env st :
  let n := length (pages (doc st)) in
  let st' := footers env st in
  pages (doc st') =
    imap (fun k p => p ++ footerStamps env n (S k) (clockReads st + k)) (pages (doc st)) /\
  length (pages (doc st')) = n /\
  clockReads st' = (clockReads st + n)%nat /\
  yPos st' = yPos st /\
  ((0 < n)%nat -> cur (doc st') = (n - 1)%nat).
Proof.
  cbv zeta. split; [apply footers_pages |].
  unfold footers, getNumberOfPages.
  destruct (stamp_loop_run env (length (pages (doc st))) (length (pages (doc st))) 1 st)
    as (Hc & Hy & Hl & Hcur).
  repeat split; [exact Hl | exact Hc | exact Hy |].
  intros Hn. rewrite Hcur by lia. lia.
Qed.

Lemma footers_stamp_every_page_witness :
  cur (doc (footers plainEnv (compose plainEnv ∅ [pngDefect] startRun))) = 1%nat /\
  clockReads (footers plainEnv (compose plainEnv ∅ [pngDefect] startRun)) = 2%nat.
Proof.
  destruct (footers_stamp_every_page plainEnv (compose plainEnv ∅ [pngDefect] startRun))
    as (_ & _ & Hc & _ & Hcur).
  split.
  - rewrite Hcur; [vm_compute; reflexivity | vm_compute; lia].
  - rewrite Hc. vm_compute. reflexivity.
Defined.

Lemma before_char_app c date rest :
  c ∉ String.list_ascii_of_string date ->
  before_char c (date +:+ String c rest) = date.
Proof.
  induction date as [| a date IH]; intros Hc.
  - change (before_char c (String c rest) = ""). cbn [before_char].
    rewrite Ascii.eqb_refl. reflexivity.
  - change (before_char c (String a (date +:+ String c rest)) = String a date).
    cbn [before_char]. cbn [String.list_ascii_of_string] in Hc. apply not_elem_of_cons in Hc. destruct Hc as [Hne Hc].
    destruct (Ascii.eqb a c) eqn:E.
    + apply Ascii.eqb_eq in E. congruence.
    + rewrite (IH Hc). reflexivity.
Qed.

(** X7. The file is saved as [Inspection_Report_<date>.pdf], where the date
    is what precedes the first "T" in the ISO string of the clock; the
    clock reading used is the one that follows the readings of the footer
    loop, one per page. *)
Theorem fileName_from_clock env form defects :
  (forall today date rest,
     isoString env today = date +:+ String "T" rest ->
     "T"%char ∉ String.list_ascii_of_string date ->
     fileName env today = "Inspection_Report_" +:+ date +:+ ".pdf") /\
  snd (generate env form defects) =
    fileName env (length (pages (fst (generate env form defects)))).
Proof.
  split.
  - intros today date rest Hiso HT. unfold fileName.
    rewrite Hiso, before_char_app by exact HT. reflexivity.
  - unfold generate. cbn [fst snd]. unfold andThen.
    destruct (footers_pages env (compose env form defects startRun)) as [].
    destruct (stamp_loop_run env
                (length (pages (doc (compose env form defects startRun))))
                (length (pages (doc (compose env form defects startRun)))) 1
                (compose env form defects startRun)) as (Hc & _ & Hl & _).
    unfold footers, getNumberOfPages. rewrite Hc, Hl.
    rewrite (compose_clock env form defects 0%nat startRun eq_refl). reflexivity.
Qed.

Lemma fileName_from_clock_witness :
  fileName plainEnv 2 = "Inspection_Report_2024-03-15.pdf".
Proof.
  apply (proj1 (fileName_from_clock plainEnv ∅ []) 2%nat "2024-03-15" "09:30:00.000Z").
  - reflexivity.
  - vm_compute. intros H. repeat (apply elem_of_cons in H; destruct H as [H | H];
      [discriminate |]). apply elem_of_nil in H. exact H.
Defined.

(** ** What the handler reads from the form *)

Lemma generate_ext env form form' defects :
  (forall id, id ∈ formFields -> getFieldValue form id = getFieldValue form' id) ->
  generate env form defects = generate env form' defects.
Proof.
  intros H.
  assert (E : compose env form defects = compose env form' defects).
  { unfold compose, documentHeader, clientDetails, inspectionDetails, tableData,
      disclaimerSection.
    rewrite (H "companyName"), (H "companyPhone"), (H "companyEmail"),
      (H "reportTitle"), (H "clientName"), (H "clientAddress"),
      (H "inspectionDate"), (H "inspectorName"), (H "inspectorCredentials"),
      (H "attendance"), (H "occupancy"), (H "buildingType"),
      (H "weatherCondition"), (H "disclaimer") by in_list.
    reflexivity. }
  unfold generate. rewrite E. reflexivity.
Qed.

Lemma trim_start_spaces s : all_spaces s = true -> trim_start s = "".
Proof.
  induction s as [| c s IH]; [reflexivity |]. cbn [all_spaces trim_start].
  intros H. apply andb_true_iff in H. destruct H as [Hc Hs].
  rewrite Hc. exact (IH Hs).
Qed.

Lemma trim_start_head s c r : trim_start s = String c r -> is_space c = false.
Proof.
  induction s as [| a s IH]; [discriminate |]. cbn [trim_start].
  destruct (is_space a) eqn:E; [exact IH |]. intros [= <- _]. exact E.
Qed.

Lemma trim_end_head s c r : trim_end s = String c r -> exists r0, s = String c r0.
Proof.
  destruct s as [| a s]; [discriminate |]. cbn [trim_end].
  destruct (trim_end s); [destruct (is_space a); [discriminate |] |];
    intros [= <- _]; eexists; reflexivity.
Qed.

Lemma trim_end_last s c : last_char (trim_end s) = Some c -> is_space c = false.
Proof.
  induction s as [| a s IH]; [discriminate |]. cbn [trim_end].
  destruct (trim_end s) as [| b t] eqn:E.
  - destruct (is_space a) eqn:Ea; [discriminate |]. intros [= <-]. exact Ea.
  - exact IH.
Qed.

Lemma trim_end_idempotent s : trim_end (trim_end s) = trim_end s.
Proof.
  induction s as [| a s IH]; [reflexivity |]. cbn [trim_end].
  destruct (trim_end s) as [| b t] eqn:E.
  - destruct (is_space a) eqn:Ea; [reflexivity |]. cbn [trim_end]. rewrite Ea. reflexivity.
  - change (trim_end (String a (String b t))) with
      (match trim_end (String b t) with
       | EmptyString => if is_space a then EmptyString else String a EmptyString
       | t' => String a t'
       end).
    rewrite IH. reflexivity.
Qed.

Lemma trim_head s c r : trim s = String c r -> is_space c = false.
Proof.
  unfold trim. intros H. destruct (trim_end_head _ _ _ H) as [r0 H0].
  exact (trim_start_head _ _ _ H0).
Qed.

Lemma trim_start_fixed s : (forall c r, s = String c r -> is_space c = false) ->
  trim_start s = s.
Proof.
  destruct s as [| c r]; [reflexivity |]. intros H. cbn [trim_start].
  rewrite (H c r eq_refl). reflexivity.
Qed.

Lemma trim_idempotent s : trim (trim s) = trim s.
Proof.
  unfold trim at 1. rewrite trim_start_fixed.
  - unfold trim. apply trim_end_idempotent.
  - intros c r. apply trim_head.
Qed.

Lemma trim_spaces s : all_spaces s = true -> trim s = "".
Proof. intros H. unfold trim. rewrite (trim_start_spaces s H). reflexivity. Qed.

(** X8. The report depends on the form only through the trimmed values of
    its fourteen fields: two forms that agree on them give the same
    document and file name.  So a field that holds white space only is the
    same as an empty or missing one, and an element that is not one of the
    fourteen is never looked at. *)
Theorem generate_depends_on_trimmed_fields env form defects :
  (forall form',
     (forall id, id ∈ formFields -> getFieldValue form id = getFieldValue form' id) ->
     generate env form defects = generate env form' defects) /\
  (forall id v,
     all_spaces v = true -> getFieldValue form id = "" ->
     generate env (<[id := v]> form) defects = generate env form defects) /\
  (forall id v,
     id ∉ formFields ->
     generate env (<[id := v]> form) defects = generate env form defects).
Proof.
  split; [| split].
  - intros form' H. apply generate_ext, H.
  - intros id v Hv He. apply generate_ext. intros id' _. unfold getFieldValue in *.
    destruct (decide (id = id')) as [<- | Hne].
    + rewrite lookup_insert_eq, He. apply trim_spaces, Hv.
    + rewrite lookup_insert_ne by exact Hne. reflexivity.
  - intros id v Hid. apply generate_ext. intros id' Hid'. unfold getFieldValue.
    rewrite lookup_insert_ne; [reflexivity |]. intros ->. contradiction.
Qed.

Lemma generate_depends_on_trimmed_fields_witness :
  generate plainEnv (<[ "clientName" := "   " ]> ∅) [pngDefect] =
    generate plainEnv ∅ [pngDefect].
Proof.
  apply (proj1 (proj2 (generate_depends_on_trimmed_fields plainEnv ∅ [pngDefect]))).
  - reflexivity.
  - reflexivity.
Defined.

(** X9. [getFieldValue] gives the empty string for an element that is
    missing and for one whose value is white space only; what it gives
    never starts or ends with white space, and trimming it again changes
    nothing. *)
Theorem getFieldValue_trimmed (form : Form) id :
  (form !! id = None -> getFieldValue form id = "") /\
  (forall v, form !! id = Some v -> all_spaces v = true -> getFieldValue form id = "") /\
  (forall c r, getFieldValue form id = String c r -> is_space c = false) /\
  (forall c, last_char (getFieldValue form id) = Some c -> is_space c = false) /\
  trim (getFieldValue form id) = getFieldValue form id.
Proof.
  unfold getFieldValue. destruct (form !! id) as [v |].
  - split; [discriminate |]. split; [| split; [| split]].
    + intros v' [= <-] Hv. apply trim_spaces, Hv.
    + intros c r. apply trim_head.
    + intros c. unfold trim. apply trim_end_last.
    + apply trim_idempotent.
  - repeat split; try reflexivity; discriminate.
Qed.

Lemma getFieldValue_trimmed_witness :
  getFieldValue {[ "clientName" := "  " ]} "clientName" = "" /\
  getFieldValue {[ "clientName" := "  " ]} "clientAddress" = "".
Proof.
  split.
  - apply (proj1 (proj2 (getFieldValue_trimmed {[ "clientName" := "  " ]} "clientName"))
             "  "); reflexivity.
  - apply (proj1 (getFieldValue_trimmed {[ "clientName" := "  " ]} "clientAddress")).
    reflexivity.
Defined.

(** ** More on the cursor *)

(** X10. A page-fit check makes room: when the cursor is a number and the
    space asked for is at most a page less its margins, a second check for
    no more space, right after the first, finds room and changes
    nothing. *)
Theorem checkNewPage_twice (r r' y : Q) st :
  yPos st = Num y -> r' <= r -> r <= 297 - 20 - 20 ->
  checkNewPage (Num r') (snd (checkNewPage (Num r) st)) =
    (false, snd (checkNewPage (Num r) st)).
Proof.
  intros Hy Hr' Hr.
  assert (H1 : exists y1, yPos (snd (checkNewPage (Num r) st)) = Num y1 /\
                          y1 + r <= 297 - 20).
  { unfold checkNewPage. rewrite Hy, bottom_line.
    change (Num y + Num r)%js with (Num (y + r)).
    destruct (Num (y + r) >? Num (297 - 20))%js eqn:E; cbn [snd].
    - exists 20. split; [reflexivity | lra].
    - apply gt_Num_false in E. exists y. split; [exact Hy | exact E]. }
  destruct H1 as (y1 & Hy1 & Hle).
  generalize dependent (snd (checkNewPage (Num r) st)). intros st1 Hy1.
  unfold checkNewPage. rewrite Hy1, bottom_line.
  change (Num y1 + Num r')%js with (Num (y1 + r')).
  assert (E' : (Num (y1 + r') >? Num (297 - 20))%js = false)
    by (apply gt_Num_false; lra).
  rewrite E'. reflexivity.
Qed.

Lemma checkNewPage_twice_witness :
  checkNewPage (Num 6) (snd (checkNewPage (Num 15) (runAt 270))) =
    (false, snd (checkNewPage (Num 15) (runAt 270))).
Proof.
  apply (checkNewPage_twice 15 6 270 (runAt 270)).
  - reflexivity.
  - unfold Qle; cbn; lia.
  - unfold Qle; cbn; lia.
Defined.

(** *** A cursor that is not a number *)

Lemma in_calls_extends d0 d op : extends d0 d -> In op (calls d0) -> In op (calls d).
Proof.
  unfold calls. intros Hext Hin.
  apply in_concat in Hin. destruct Hin as (p & Hp & Hin).
  apply list_elem_of_In, list_elem_of_lookup in Hp. destruct Hp as [i Hi].
  destruct (Hext i p Hi) as [q Hq].
  apply in_concat. exists (p ++ q). split.
  - apply list_elem_of_In. eapply list_elem_of_lookup_2, Hq.
  - apply in_or_app. left. exact Hin.
Qed.

Lemma in_calls_emit op d : (cur d < length (pages d))%nat -> In op (calls (emit op d)).
Proof.
  intros Hcur. unfold calls, emit. cbn [pages with_pages].
  destruct (lookup_lt_is_Some_2 _ _ Hcur) as [p Hp].
  apply in_concat. exists (p ++ [op]). split.
  - apply list_elem_of_In. apply (list_elem_of_lookup_2 _ (cur d)).
    rewrite list_lookup_alter_eq, Hp. reflexivity.
  - apply in_or_app. right. left. reflexivity.
Qed.

(** X11. A cursor that is not a number does not get through the loop over
    the defects unnoticed: the heading of the next defect is drawn with a
    [y] that is not a number, a call of [doc.text] on which jsPDF throws,
    and whatever the rest of the loop and the footer loop would draw after
    it, that call stays in the record of the run, which is what sends the
    handler to its outer [catch]. *)
Theorem lost_cursor_is_refused env total defect defects i st :
  yPos st = NaN ->
  current_is_last (doc st) ->
  let st' := forEachFrom (renderDefect env total) i (defect :: defects) st in
  let heading :=
    Text (defectHeading i defect "") margin NaN false (Num 11) true (44, 82, 130)%nat in
  In heading (calls (doc st')) /\ refused heading = true /\
  has_refused (doc st') /\ has_refused (doc (footers env st')).
Proof.
  intros Hy Hcur st' heading.
  assert (Hin : In heading (calls (doc st'))).
  { subst st'. cbn [forEachFrom]. unfold andThen.
    eapply in_calls_extends.
    { apply (fun H : preserves (extends (doc (renderDefect env total defect i st)))
                       (forEachFrom (renderDefect env total) (S i) defects) =>
               H _ (extends_refl _)).
      apply preserves_forEachFrom. intros x k.
      apply (preserves_renderDefect any_text _ env any_text_all). }
    unfold renderDefect, andThen. rewrite (checkNewPage_NaN 100 st Hy).
    eapply in_calls_extends.
    { apply (fun H : preserves (extends (doc (printHeading (defectHeading i defect "") st)))
                       (imageAndDescription env total defect i) =>
               H _ (extends_refl _)).
      apply (preserves_imageAndDescription any_text _ env any_text_all). }
    unfold printHeading, andThen, at_y, on_doc, advance, setY. cbn [doc yPos].
    unfold doc_text. cbn [fontSize bold textColor doc_setTextColor doc_setFont
                          doc_setFontSize].
    rewrite Hy. unfold calls. cbn [pages doc_setTextColor].
    apply (in_calls_emit heading).
    cbn [cur pages doc_setTextColor doc_setFont doc_setFontSize].
    unfold current_is_last in Hcur. lia. }
  assert (Href : has_refused (doc st')).
  { unfold has_refused. apply existsb_exists. exists heading.
    split; [exact Hin | reflexivity]. }
  split; [exact Hin |]. split; [reflexivity |]. split; [exact Href |].
  apply has_refused_after; [| exact Href].
  intros d0. apply (preserves_footers any_text _ env any_text_all).
Qed.

Lemma lost_cursor_is_refused_witness :
  let st := {| doc := newDoc; yPos := NaN; clockReads := 0 |} in
  current_is_last (doc st) /\
  has_refused (doc (forEachFrom (renderDefect plainEnv 2) 0 [pngDefect; brokenDefect] st)).
Proof.
  cbv zeta. split; [reflexivity |].
  exact (proj1 (proj2 (proj2
           (lost_cursor_is_refused plainEnv 2 pngDefect [brokenDefect] 0
              {| doc := newDoc; yPos := NaN; clockReads := 0 |} eq_refl eq_refl)))).
Defined.

(** ** More on images *)

(** X12. A decoded image (pixel counts below 2^32) is scaled to touch its
    box, up to the two roundings of the scaling ([u] is [2 ^ -53]): the
    placed size is a pair of positive numbers, at most [170 (1 + u)^2] wide
    and [80 (1 + u)^2] high, and at least [170 (1 - u)^2] wide or at least
    [80 (1 - u)^2] high. *)
Theorem decoded_image_touches_box env data w h :
  probe env data = Some (w, h) ->
  (Z.pos w < 2 ^ 32)%Z -> (Z.pos h < 2 ^ 32)%Z ->
  let u := unit_roundoff in
  exists a b,
    scaleImage (fst (loadedSize env data)) (snd (loadedSize env data))
               maxImgWidth maxImgHeight = (Num a, Num b) /\
    0 < a <= 170 * (1 + u) * (1 + u) /\
    0 < b <= 80 * (1 + u) * (1 + u) /\
    (170 * (1 - u) * (1 - u) <= a \/ 80 * (1 - u) * (1 - u) <= b).
Proof.
  intros Hprobe Hw Hh u. subst u.
  destruct (scaled_bounds w h Hw Hh)
    as (r & a & b & _ & _ & _ & Es & _ & _ & _ & Ha & Hb & Htouch & _).
  exists a, b. split.
  - unfold loadedSize. rewrite Hprobe. cbn [fst snd].
    change maxImgWidth with (Num 170). change maxImgHeight with (Num 80). exact Es.
  - split; [exact Ha |]. split; [exact Hb | exact Htouch].
Qed.

Lemma decoded_image_touches_box_witness :
  exists a b,
    scaleImage (fst (loadedSize plainEnv "x")) (snd (loadedSize plainEnv "x"))
               maxImgWidth maxImgHeight = (Num a, Num b) /\
    0 < a <= 170 * (1 + unit_roundoff) * (1 + unit_roundoff) /\
    0 < b <= 80 * (1 + unit_roundoff) * (1 + unit_roundoff) /\
    (170 * (1 - unit_roundoff) * (1 - unit_roundoff) <= a \/
     80 * (1 - unit_roundoff) * (1 - unit_roundoff) <= b).
Proof.
  exact (decoded_image_touches_box plainEnv "x" 400 300 eq_refl eq_refl eq_refl).
Defined.



(** ** Pages are append-only *)

(** X14. Neither the composition nor the footer loop removes a page or
    removes, reorders or rewrites an operation already drawn: every page
    there was is still there, at the same position, with operations added
    at its end only. *)
Theorem pages_are_append_only env form defects st :
  extends (doc st) (doc (compose env form defects st)) /\
  extends (doc st) (doc (footers env st)) /\
  extends (doc st) (doc ((compose env form defects ;; footers env) st)).
Proof.
  assert (H0 : extends (doc st) (doc st)) by apply extends_refl.
  assert (H1 : extends (doc st) (doc (compose env form defects st)))
    by exact (preserves_compose any_text _ env any_text_all form defects st H0).
  split; [exact H1 |]. split.
  - exact (preserves_footers any_text _ env any_text_all st H0).
  - exact (preserves_footers any_text _ env any_text_all _ H1).
Qed.

(** ** The defect list *)

Lemma ids_increase_weaken lower lower' ds counter counter' :
  (lower' <= lower)%nat -> (counter <= counter')%nat ->
  ids_increase lower ds counter -> ids_increase lower' ds counter'.
Proof.
  revert lower lower'. induction ds as [|d ds IH]; cbn; intros lower lower' Hl Hc.
  - lia.
  - intros [H1 H2]. split; [lia|]. eapply IH; [| exact Hc | exact H2]. lia.
Qed.

Lemma ids_increase_le lower ds counter :
  ids_increase lower ds counter -> (lower <= counter)%nat.
Proof.
  revert lower. induction ds as [|d ds IH]; cbn; intros lower.
  - lia.
  - intros [H1 H2]. apply IH in H2. lia.
Qed.

Lemma ids_increase_snoc lower ds counter d :
  id d = S counter ->
  ids_increase lower ds counter -> ids_increase lower (ds ++ [d]) (S counter).
Proof.
  intros Hd. revert lower. induction ds as [|d' ds IH]; cbn; intros lower.
  - rewrite Hd. lia.
  - intros [H1 H2]. split; [exact H1 | apply IH; exact H2].
Qed.

Lemma ids_increase_filter lower ds counter (f : Defect -> bool) :
  ids_increase lower ds counter -> ids_increase lower (List.filter f ds) counter.
Proof.
  revert lower. induction ds as [|d ds IH]; cbn; intros lower.
  - lia.
  - intros [H1 H2]. destruct (f d); cbn.
    + split; [exact H1 | apply IH; exact H2].
    + apply IH. eapply ids_increase_weaken; [| | exact H2]; lia.
Qed.

Lemma ids_increase_bounds lower ds counter :
  ids_increase lower ds counter ->
  Forall (fun d => (lower < id d <= counter)%nat) ds.
Proof.
  revert lower. induction ds as [|d ds IH]; cbn; intros lower.
  - intros _. apply Forall_nil. exact Logic.I.
  - intros [H1 H2]. apply Forall_cons. split.
    + apply ids_increase_le in H2. lia.
    + eapply Forall_impl; [apply IH; exact H2|]. cbn. intros x Hx. lia.
Qed.

Lemma ids_increase_NoDup lower ds counter :
  ids_increase lower ds counter -> NoDup (map id ds).
Proof.
  revert lower. induction ds as [|d ds IH]; cbn; intros lower.
  - intros _. apply NoDup_nil. exact Logic.I.
  - intros [H1 H2]. apply NoDup_cons. split; [| eapply IH; exact H2].
    intros Hin. apply list_elem_of_In, in_map_iff in Hin.
    destruct Hin as (x & Hx & Hin).
    apply ids_increase_bounds in H2.
    rewrite List.Forall_forall in H2.
    apply H2 in Hin. lia.
Qed.

Lemma NoDup_map_inj {A B} (f : A -> B) (l : list A) (x y : A) :
  NoDup (map f l) -> In x l -> In y l -> f x = f y -> x = y.
Proof.
  induction l as [|a l IH]; cbn; [intros _ []|].
  intros Hnd Hx Hy Heq. apply NoDup_cons in Hnd. destruct Hnd as [Hnot Hnd].
  destruct Hx as [->|Hx], Hy as [->|Hy].
  - reflexivity.
  - exfalso. apply Hnot. rewrite Heq. apply list_elem_of_In, in_map, Hy.
  - exfalso. apply Hnot. rewrite <- Heq. apply list_elem_of_In, in_map, Hx.
  - apply IH; assumption.
Qed.

Lemma filter_all {A} (f : A -> bool) (l : list A) :
  (forall x, In x l -> f x = true) -> List.filter f l = l.
Proof.
  induction l as [|a l IH]; cbn; intros H; [reflexivity|].
  rewrite (H a) by (left; reflexivity).
  f_equal. apply IH. intros x Hx. apply H. right. exact Hx.
Qed.

(** With distinct ids, filtering out the id of one defect removes that
    defect and no other. *)
Lemma filter_other_ids (l1 l2 : list Defect) (d : Defect) :
  NoDup (map id (l1 ++ d :: l2)) ->
  List.filter (fun x => negb (Nat.eqb (id x) (id d))) (l1 ++ d :: l2) = l1 ++ l2.
Proof.
  intros Hnd.
  rewrite map_app in Hnd. cbn in Hnd.
  apply NoDup_app in Hnd. destruct Hnd as (_ & Hdisj & Hnd).
  apply NoDup_cons in Hnd. destruct Hnd as [Hnot _].
  rewrite List.filter_app. cbn. rewrite Nat.eqb_refl. cbn.
  rewrite !filter_all; [reflexivity | |].
  - intros x Hx. apply negb_true_iff, Nat.eqb_neq. intros Heq.
    apply Hnot. rewrite <- Heq. apply list_elem_of_In, in_map, Hx.
  - intros x Hx. apply negb_true_iff, Nat.eqb_neq. intros Heq.
    apply (Hdisj (id x)).
    + apply list_elem_of_In, in_map, Hx.
    + rewrite Heq. left.
Qed.

Lemma truthy_negb_false (s : string) : negb (truthy s) = false -> truthy s = true.
Proof. destruct (truthy s); [reflexivity | discriminate]. Qed.

(** A click on "Add Defect" either alerts and changes nothing, or starts a
    read of the picked file with the type and the description of the form
    and changes nothing else. *)
Lemma addDefectClick_cases (ui : Ui) :
  (exists msg, addDefectClick ui = (Some msg, ui)) \/
  (exists file,
     defectImage ui = Some file /\
     truthy (chosenType ui) = true /\
     truthy (trim (defectDescription ui)) = true /\
     addDefectClick ui =
       (None, startReading {| read_defectType := chosenType ui;
                              read_description := trim (defectDescription ui);
                              read_file := file |} ui)).
Proof.
  unfold addDefectClick.
  destruct (negb (truthy (chosenType ui))) eqn:Htype.
  { left. eexists. reflexivity. }
  destruct (defectImage ui) as [file|] eqn:Hfile.
  2:{ left. eexists. reflexivity. }
  destruct (negb (truthy (trim (defectDescription ui)))) eqn:Hdesc.
  { left. eexists. reflexivity. }
  right. exists file.
  repeat split; auto using truthy_negb_false.
Qed.

(** The list is well formed and so is what the reads under way will add
    to it. *)
Lemma sound_step (ui : Ui) (e : Event) :
  well_formed ui /\ readings_valid ui ->
  well_formed (step ui e) /\ readings_valid (step ui e).
Proof.
  intros [[Hids Hall] Hrs].
  destruct e as [picked|value|text|text| |n|removed confirmed]; cbn [step].
  - unfold imageChange. destruct picked as [file|]; [| repeat split; assumption].
    destruct (_ && _); repeat split; assumption.
  - unfold typeChange. destruct (String.eqb _ _); repeat split; assumption.
  - repeat split; assumption.
  - repeat split; assumption.
  - destruct (addDefectClick_cases ui)
      as [[msg Hmsg] | (file & _ & Htype & Hdesc & Hclick)]; rewrite ?Hmsg, ?Hclick;
      cbn [snd]; [repeat split; assumption |].
    split; [split; assumption |].
    unfold readings_valid, startReading. cbn [readings].
    apply Forall_app. split; [exact Hrs |].
    apply Forall_cons. split; [| apply Forall_nil; exact Logic.I].
    cbn. split; [exact Htype |]. split; [exact Hdesc |]. apply trim_idempotent.
  - unfold finishReading. destruct (readings ui !! n) as [r |] eqn:Hr;
      [| repeat split; assumption].
    assert (Hvalid := Hrs). unfold readings_valid in Hvalid.
    rewrite Forall_lookup in Hvalid. specialize (Hvalid n r Hr).
    destruct Hvalid as (Ht & Hd & Htrim).
    split; [split |].
    + cbn. apply ids_increase_snoc; [reflexivity | exact Hids].
    + cbn. apply Forall_app. split; [exact Hall |].
      apply Forall_cons. split; [| apply Forall_nil; exact Logic.I].
      cbn. repeat split; assumption.
    + unfold readings_valid. cbn. apply Forall_delete. exact Hrs.
  - unfold removeDefect. destruct confirmed; [| repeat split; assumption].
    split; [split |]; cbn.
    + apply ids_increase_filter. exact Hids.
    + rewrite List.Forall_forall in Hall |- *. intros x Hx.
      apply List.filter_In in Hx. destruct Hx as [Hx _].
      apply Hall. exact Hx.
    + exact Hrs.
Qed.

Lemma well_formed_run (events : list Event) (ui : Ui) :
  well_formed ui -> readings_valid ui -> well_formed (run events ui).
Proof.
  intros Hwf Hrs.
  assert (H : well_formed (run events ui) /\ readings_valid (run events ui));
    [| apply H].
  unfold run. revert ui Hwf Hrs. induction events as [|e events IH]; cbn; intros ui Hwf Hrs.
  - split; assumption.
  - destruct (sound_step ui e (conj Hwf Hrs)) as [H1 H2]. apply IH; assumption.
Qed.

Lemma well_formed_loaded (a b c : string) : well_formed (loadedUi a b c).
Proof.
  split; cbn; [lia | apply Forall_nil; exact Logic.I].
Qed.

(** X15.  Whatever the user does after the script has loaded (picking
    files, choosing and typing, adding, removing), the defect list keeps
    its shape: the ids grow along the list, so no two defects share an id;
    every id is at least 1 and at most the counter; every defect has a type
    and a description that are not empty, and its description is
    trimmed. *)
Theorem defect_list_stays_well_formed (a b c : string) (events : list Event) :
  let ui := run events (loadedUi a b c) in
  well_formed ui /\
  NoDup (map id (defects ui)) /\
  Forall (fun d => (1 <= id d <= defectCounter ui)%nat) (defects ui).
Proof.
  intros ui.
  assert (Hwf : well_formed ui).
  { apply well_formed_run; [apply well_formed_loaded | apply Forall_nil; exact Logic.I]. }
  split; [exact Hwf|]. destruct Hwf as [Hids _]. split.
  - eapply ids_increase_NoDup. exact Hids.
  - eapply Forall_impl; [apply ids_increase_bounds; exact Hids|].
    cbn. intros x Hx. lia.
Qed.

(** X16.  The form is cleared when the picked file has been read, not at
    the click.  Once a read has finished, the form is empty: a click right
    after it adds nothing, asks for a defect type and changes nothing.  But
    a second click on a valid form before the read has finished passes the
    validation again and starts a second read, and when both reads have
    finished the list holds the same defect twice, under two consecutive
    ids. *)
Theorem form_is_cleared_by_the_load_not_by_the_click (ui : Ui) :
  (forall r,
     addDefectClick (readerOnload r ui) =
       (Some "Please select or enter a defect type.", readerOnload r ui)) /\
  (readings ui = [] ->
   fst (addDefectClick ui) = None ->
   exists file,
     defectImage ui = Some file /\
     let made n :=
       {| id := n; defectType := chosenType ui;
          imageData := file_dataURL file; imageName := file_name file;
          description := trim (defectDescription ui) |} in
     let ui' := run [ClickAdd; ClickAdd; ReaderLoaded 0; ReaderLoaded 0] ui in
     fst (addDefectClick (snd (addDefectClick ui))) = None /\
     defects ui' =
       defects ui ++ [made (S (defectCounter ui)); made (S (S (defectCounter ui)))] /\
     defectCounter ui' = S (S (defectCounter ui)) /\
     readings ui' = []).
Proof.
  split; [intros r; reflexivity |].
  intros Hrs Hclick.
  destruct (addDefectClick_cases ui)
    as [[msg Hmsg] | (file & Hfile & Htype & Hdesc & Hstart)].
  { rewrite Hmsg in Hclick. discriminate. }
  exists file. split; [exact Hfile |]. cbv zeta.
  set (r := {| read_defectType := chosenType ui;
               read_description := trim (defectDescription ui);
               read_file := file |}) in *.
  assert (Hagain : addDefectClick (startReading r ui) =
                     (None, startReading r (startReading r ui))).
  { unfold addDefectClick.
    change (chosenType (startReading r ui)) with (chosenType ui).
    change (defectImage (startReading r ui)) with (defectImage ui).
    change (defectDescription (startReading r ui)) with (defectDescription ui).
    rewrite Htype, Hfile, Hdesc. reflexivity. }
  unfold run. cbn [fold_left step]. rewrite Hstart. cbn [snd]. rewrite Hagain.
  cbn [snd fst]. split; [reflexivity |].
  unfold finishReading, startReading. cbn [readings]. rewrite Hrs.
  cbn. rewrite <- app_assoc. repeat split; reflexivity.
Qed.

Lemma form_is_cleared_by_the_load_not_by_the_click_witness :
  readings filledUi = [] /\
  fst (addDefectClick filledUi) = None /\
  defects (run [ClickAdd; ClickAdd; ReaderLoaded 0; ReaderLoaded 0] filledUi) =
    [ {| id := 1; defectType := "Crack";
         imageData := file_dataURL sampleFile; imageName := file_name sampleFile;
         description := "Hairline crack in the wall." |};
      {| id := 2; defectType := "Crack";
         imageData := file_dataURL sampleFile; imageName := file_name sampleFile;
         description := "Hairline crack in the wall." |} ].
Proof.
  split; [reflexivity |]. split; [reflexivity |].
  destruct (proj2 (form_is_cleared_by_the_load_not_by_the_click filledUi)
              eq_refl eq_refl) as (file & Hfile & _ & Hds & _).
  injection Hfile as <-. exact Hds.
Defined.

(** X17.  On a well-formed list, a confirmed removal removes the defect of
    that id and no other, and keeps the order of the rest; the counter and
    the form stay as they were. *)
Theorem removeDefect_removes_exactly_one (ui : Ui) (l1 l2 : list Defect) (d : Defect) :
  well_formed ui ->
  defects ui = l1 ++ d :: l2 ->
  defects (removeDefect (id d) true ui) = l1 ++ l2 /\
  defectCounter (removeDefect (id d) true ui) = defectCounter ui /\
  defectImage (removeDefect (id d) true ui) = defectImage ui /\
  chosenType (removeDefect (id d) true ui) = chosenType ui /\
  defectDescription (removeDefect (id d) true ui) = defectDescription ui.
Proof.
  intros [Hids _] Hsplit. cbn. repeat split.
  rewrite Hsplit. apply filter_other_ids.
  rewrite <- Hsplit. eapply ids_increase_NoDup. exact Hids.
Qed.

Lemma later_than_refl (ui : Ui) : later_than ui ui.
Proof.
  split; [lia|]. rewrite List.Forall_forall. intros x Hx. left. exact Hx.
Qed.

Lemma later_than_step (ui ui' : Ui) (e : Event) :
  later_than ui ui' -> later_than ui (step ui' e).
Proof.
  intros [Hc Hall].
  destruct e as [picked|value|text|text| |n|removed confirmed]; cbn [step].
  - unfold imageChange. destruct picked as [file|]; [|split; assumption].
    destruct (_ && _); split; assumption.
  - unfold typeChange. destruct (String.eqb _ _); split; assumption.
  - split; assumption.
  - split; assumption.
  - destruct (addDefectClick_cases ui')
      as [[msg Hmsg] | (file & _ & _ & _ & Hclick)]; rewrite ?Hmsg, ?Hclick;
      split; assumption.
  - unfold finishReading. destruct (readings ui' !! n) as [r |]; [| split; assumption].
    unfold later_than. cbn. split; [lia |].
    apply Forall_app. split; [exact Hall |].
    apply Forall_cons. split; [| apply Forall_nil; exact Logic.I].
    right. cbn. lia.
  - unfold removeDefect. destruct confirmed; [|split; assumption].
    split; cbn; [exact Hc|].
    rewrite List.Forall_forall in Hall |- *. intros x Hx.
    apply List.filter_In in Hx. destruct Hx as [Hx _].
    apply Hall. exact Hx.
Qed.

Lemma later_than_run (events : list Event) (ui ui' : Ui) :
  later_than ui ui' -> later_than ui (run events ui').
Proof.
  unfold run. revert ui'. induction events as [|e events IH]; cbn; intros ui' H.
  - exact H.
  - apply IH, later_than_step, H.
Qed.

(** X18.  An id names one defect for good: if a defect of the list has id
    [i], then after any further events a defect with id [i] in the list is
    that same defect, so the id of a removed defect is never given to a new
    one. *)
Theorem id_names_one_defect (ui : Ui) (events : list Event) (d d' : Defect) :
  well_formed ui ->
  In d (defects ui) ->
  In d' (defects (run events ui)) ->
  id d' = id d ->
  d' = d.
Proof.
  intros [Hids _] Hd Hd' Hid.
  destruct (later_than_run events ui ui (later_than_refl ui)) as [_ Hall].
  rewrite List.Forall_forall in Hall.
  specialize (Hall d' Hd').
  pose proof (ids_increase_bounds _ _ _ Hids) as Hb.
  rewrite List.Forall_forall in Hb.
  specialize (Hb d Hd).
  destruct Hall as [Hold | Hnew]; [| lia].
  apply ids_increase_NoDup in Hids.
  eapply NoDup_map_inj; eauto.
Qed.

Lemma twoDefects_well_formed : well_formed twoDefects.
Proof.
  split.
  - vm_compute. repeat constructor.
  - vm_compute. repeat constructor.
Qed.

Lemma removeDefect_removes_exactly_one_witness :
  well_formed twoDefects /\
  defects twoDefects = [] ++ firstDefect :: [secondDefect] /\
  defects (removeDefect (id firstDefect) true twoDefects) = [] ++ [secondDefect].
Proof.
  split; [exact twoDefects_well_formed|]. split; [vm_compute; reflexivity|].
  apply (removeDefect_removes_exactly_one twoDefects [] [secondDefect] firstDefect).
  - exact twoDefects_well_formed.
  - vm_compute. reflexivity.
Defined.

Lemma id_names_one_defect_witness :
  well_formed twoDefects /\
  In secondDefect (defects twoDefects) /\
  In secondDefect (defects (run laterEvents twoDefects)) /\
  secondDefect = secondDefect.
Proof.
  split; [exact twoDefects_well_formed|].
  split; [vm_compute; right; left; reflexivity|].
  split; [vm_compute; left; reflexivity|].
  apply (id_names_one_defect twoDefects laterEvents secondDefect secondDefect).
  - exact twoDefects_well_formed.
  - vm_compute; right; left; reflexivity.
  - vm_compute; left; reflexivity.
  - reflexivity.
Defined.

Lemma from_files_step (files : list File) (ui : Ui) (e : Event) :
  (forall file, e = PickFile (Some file) -> In file files) ->
  from_files files ui -> from_files files (step ui e).
Proof.
  intros Hpick (Hfile & Hrs & Hds).
  destruct e as [picked|value|text|text| |n|removed confirmed]; cbn [step].
  - unfold imageChange. destruct picked as [file|].
    + destruct (_ && _) eqn:Hcheck; (split; [| split; assumption]); cbn.
      * intros f Hf. discriminate.
      * intros f Hf. injection Hf as <-. split; [apply Hpick; reflexivity |].
        unfold accepted.
        destruct (contains "image/jpeg" (file_type file)),
                 (contains "image/png" (file_type file));
          try reflexivity; discriminate.
    + split; [| split; assumption]. cbn. intros f Hf. discriminate.
  - unfold typeChange. destruct (String.eqb _ _); (split; [| split]; assumption).
  - (split; [| split]; assumption).
  - (split; [| split]; assumption).
  - destruct (addDefectClick_cases ui)
      as [[msg Hmsg] | (file & Hf & _ & _ & Hclick)]; rewrite ?Hmsg, ?Hclick;
      cbn [snd]; [(split; [| split]; assumption) |].
    split; [exact Hfile |]. split; [| exact Hds].
    unfold startReading. cbn [readings].
    apply Forall_app. split; [exact Hrs |].
    apply Forall_cons. split; [| apply Forall_nil; exact Logic.I].
    cbn. apply Hfile, Hf.
  - unfold finishReading. destruct (readings ui !! n) as [r |] eqn:Hr;
      [| (split; [| split]; assumption)].
    assert (Hvalid := Hrs). rewrite Forall_lookup in Hvalid.
    specialize (Hvalid n r Hr). destruct Hvalid as [Hin Hacc].
    split; [| split]; cbn.
    + intros f Hf. discriminate.
    + apply Forall_delete. exact Hrs.
    + apply Forall_app. split; [exact Hds |].
      apply Forall_cons. split; [| apply Forall_nil; exact Logic.I].
      exists (read_file r). split; [exact Hin |]. split; [exact Hacc |].
      split; reflexivity.
  - unfold removeDefect. destruct confirmed; [| (split; [| split]; assumption)].
    split; [exact Hfile |]. split; [exact Hrs |]. cbn.
    rewrite List.Forall_forall in Hds |- *. intros x Hx.
    apply List.filter_In in Hx. destruct Hx as [Hx _].
    apply Hds. exact Hx.
Qed.

Lemma from_files_run (files : list File) (events : list Event) (ui : Ui) :
  (forall file, In (PickFile (Some file)) events -> In file files) ->
  from_files files ui -> from_files files (run events ui).
Proof.
  unfold run. revert ui. induction events as [|e events IH]; cbn; intros ui Hpick H.
  - exact H.
  - apply IH.
    + intros file Hin. apply Hpick. right. exact Hin.
    + apply from_files_step; [| exact H].
      intros file ->. apply Hpick. left. reflexivity.
Qed.

Lemma in_pickedFiles (file : File) (events : list Event) :
  In file (pickedFiles events) <-> In (PickFile (Some file)) events.
Proof.
  unfold pickedFiles. rewrite in_flat_map. split.
  - intros (e & He & Hin). destruct e as [[f |] | | | | | |]; cbn in Hin; try contradiction.
    destruct Hin as [<- | []]. exact He.
  - intros H. exists (PickFile (Some file)). split; [exact H | left; reflexivity].
Qed.

(** X19.  Only files that have passed the type check of the file input
    become defects: whatever the user does after the script has loaded,
    every defect of the list was made of a file (its data URL and its
    name) that the user has picked in one of these events and whose type
    has image/jpeg or image/png in it. *)
Theorem only_accepted_files_become_defects (a b c : string) (events : list Event) :
  Forall (fun d => exists file,
            In (PickFile (Some file)) events /\
            accepted file = true /\
            imageData d = file_dataURL file /\
            imageName d = file_name file)
         (defects (run events (loadedUi a b c))).
Proof.
  assert (H : from_files (pickedFiles events) (run events (loadedUi a b c))).
  { apply from_files_run.
    - intros file. apply in_pickedFiles.
    - split; [| split]; cbn.
      + intros f Hf. discriminate.
      + apply Forall_nil. exact Logic.I.
      + apply Forall_nil. exact Logic.I. }
  destruct H as (_ & _ & Hds).
  eapply Forall_impl; [exact Hds |]. cbn.
  intros d (file & Hin & Hacc & Hdata & Hname).
  exists file. split; [apply in_pickedFiles, Hin |]. repeat split; assumption.
Qed.






